(** * Course generator for the rhythm mode: a shallow embedding

    The definitions below follow [scripts/generate_courses.py].  Python
    floats that only go through comparisons, additions, products and
    quotients are exact rationals ([Q]); the quality scores, which go
    through [math.sqrt] and [math.log2], are real numbers ([R]), and so are
    the tunables that the adaptive loop derives from them.  Python [int]s
    are [Z], lists are lists, the [set] of blocked lanes is a duplicate-free
    list ([ListSet]).  A call that raises in Python returns [None] here. *)

From Stdlib Require Import ZArith QArith Qabs Qround Qminmax.
From Stdlib Require Import Reals Qreals.
From Stdlib Require Import String Bool Lia Lqa Lra.
From Stdlib Require Import List ListSet Sorted Permutation.
Import ListNotations.

Local Open Scope string_scope.
Local Open Scope list_scope.
Local Open Scope Z_scope.

(** ** Numbers *)

(** [x < y] on floats. *)
Definition Qltb (x y : Q) : bool := negb (Qle_bool y x).

(** [int(x)]: truncation toward zero. *)
Definition py_int (x : Q) : Z :=
  if Qle_bool 0 x then Qfloor x else Qceiling x.

(** [round(x)]: nearest integer, ties to the even one. *)
Definition py_round (x : Q) : Z :=
  let f := Qfloor x in
  let d := (x - inject_Z f)%Q in
  if Qltb d (1 # 2) then f
  else if Qltb (1 # 2) d then f + 1
  else if Z.even f then f else f + 1.

(** [round(x, 3)]. *)
Definition py_round3 (x : Q) : Q := (inject_Z (py_round (x * 1000)) / 1000)%Q.

(** ** Constants *)

Definition LANE_COUNT : Z := 4.
Definition LANE_CROSS_TIME_S : Q := 0.3.
Definition INTRO_SKIP_S : Q := 4.
Definition OUTRO_SKIP_S : Q := 2.
Definition NUM_SECTIONS : nat := 8.

(** ** Data structures *)

Record DifficultyParams : Type := mkParams {
  beat_skip : Z;
  max_per_cluster : Z;
  crash_weight : R;
  car_weight : R;
  slow_weight : R;
  pickup_ratio : R;
  min_safe_lanes : Z;
  density : R;
  curve_start : R;
  energy_floor : R;
  energy_influence : R;
  wave_amplitude : Z;
  wave_period : Z;
  wave_noise : R;
  cluster2_energy : R;
  cluster3_energy : R;
  cluster2_prob : R;
  cluster3_prob : R
}.

(** [DIFFICULTY_PRESETS]; a field a preset leaves out takes the default of
    the dataclass. *)
Definition preset_easy : DifficultyParams :=
  mkParams 4 1 0.25 0.20 0.20 0.35 3 0.55 0.15 0.18 0.4 3 10 0.15
           0.65 0.82 0.45 0.25.
Definition preset_normal : DifficultyParams :=
  mkParams 2 2 0.35 0.30 0.15 0.25 2 0.55 0.20 0.12 0.6 3 14 0.15
           0.65 0.82 0.45 0.25.
Definition preset_hard : DifficultyParams :=
  mkParams 1 3 0.45 0.30 0.10 0.12 1 0.55 0.25 0.08 0.7 3 16 0.20
           0.55 0.75 0.55 0.35.

Record CourseEvent : Type := mkEvent {
  t : Q;
  lane : Z;
  type : string;
  lead : option Q
}.

(** [e.type.startswith('pickup')] *)
Definition is_pickup (e : CourseEvent) : bool := prefix "pickup" (type e).
Definition is_obstacle (e : CourseEvent) : bool := negb (is_pickup e).

(** ** Sorting by time

    [sorted(events, key=lambda x: x.t)] and [list.sort(key=...)] are stable;
    so is this insertion sort, hence it returns the same list. *)

Fixpoint insert_by_t (e : CourseEvent) (l : list CourseEvent) : list CourseEvent :=
  match l with
  | [] => [e]
  | y :: l' => if Qle_bool (t e) (t y) then e :: y :: l'
               else y :: insert_by_t e l'
  end.

Fixpoint sort_by_t (l : list CourseEvent) : list CourseEvent :=
  match l with
  | [] => []
  | e :: l' => insert_by_t e (sort_by_t l')
  end.

(** ** Path validation *)

(** A time group: the time of its first event and its events. *)
Definition TimeGroup : Type := (Q * list CourseEvent)%type.

(** [if current_group: time_groups.append((current_group_time, current_group))] *)
Definition flush_group (cur_t : Q) (cur : list CourseEvent)
    (acc : list TimeGroup) : list TimeGroup :=
  match cur with
  | [] => acc
  | _ => acc ++ [(cur_t, cur)]
  end.

(** The grouping loop over the sorted events: an event within 50 ms of the
    time of the current group joins it, any other event opens a group. *)
Fixpoint group_loop (es : list CourseEvent) (cur_t : Q)
    (cur : list CourseEvent) (acc : list TimeGroup) : list TimeGroup :=
  match es with
  | [] => flush_group cur_t cur acc
  | e :: es' =>
      if Qltb (Qabs (t e - cur_t)) 0.05
      then group_loop es' cur_t (cur ++ [e]) acc
      else group_loop es' (t e) [e] (flush_group cur_t cur acc)
  end.

Definition time_groups (events : list CourseEvent) : list TimeGroup :=
  group_loop (sort_by_t events) (-999) [] [].

(** The [set] of lanes of a list of obstacle events, built by [add]. *)
Definition blocked_lanes_of (obs : list CourseEvent) : set Z :=
  fold_left (fun bl e => set_add Z.eq_dec (lane e) bl) obs (empty_set Z).

(** [LANE_COUNT - len(blocked_lanes)] *)
Definition safe_count (blocked : set Z) : Z :=
  LANE_COUNT - Z.of_nat (length blocked).

(** [set(range(LANE_COUNT)) - blocked_lanes] *)
Definition safe_lanes_of (blocked : set Z) : set Z :=
  set_diff Z.eq_dec [0; 1; 2; 3] blocked.

(** The double loop that looks for a previous safe lane and a current safe
    lane at most [max_lane_change] apart. *)
Definition reachable (prev_safe cur_safe : set Z) (max_lane_change : Z) : bool :=
  existsb (fun prev_lane =>
    existsb (fun curr_lane => Z.abs (curr_lane - prev_lane) <=? max_lane_change)
            cur_safe) prev_safe.

(** [while safe_lanes < params.min_safe_lanes and obstacle_events].  The
    obstacle list is held reversed, so that [pop()] takes its head; the
    loop ends when the list is empty. *)
Fixpoint enforce_min_safe (min_safe : Z) (robs : list CourseEvent)
    (blocked : set Z) (cull : Z) : list CourseEvent * set Z * Z :=
  match robs with
  | [] => (robs, blocked, cull)
  | removed :: rest =>
      if safe_count blocked <? min_safe
      then enforce_min_safe min_safe rest
             (set_remove Z.eq_dec (lane removed) blocked) (cull + 1)
      else (robs, blocked, cull)
  end.

(** [while not reachable and obstacle_events], entered with [reachable]
    false: pop, discard the lane, test again, count the cull. *)
Fixpoint restore_reachability (prev_safe : set Z) (max_lane_change : Z)
    (robs : list CourseEvent) (blocked : set Z) (cull : Z)
    : list CourseEvent * set Z * Z :=
  match robs with
  | [] => (robs, blocked, cull)
  | removed :: rest =>
      let blocked' := set_remove Z.eq_dec (lane removed) blocked in
      if reachable prev_safe (safe_lanes_of blocked') max_lane_change
      then (rest, blocked', cull + 1)
      else restore_reachability prev_safe max_lane_change rest blocked' (cull + 1)
  end.

(** The body of the loop over the time groups.  [prev] is
    [time_groups[gi - 1]], the previous group as the grouping made it.
    The quotient [time_gap / LANE_CROSS_TIME_S] is exact here, where the
    code divides doubles; [validate_group_with] below leaves the count
    open. *)
Definition validate_group (params : DifficultyParams) (prev : option TimeGroup)
    (g : TimeGroup) (cull : Z) : list CourseEvent * Z :=
  let '(group_time, group_events) := g in
  let pickup_events := filter is_pickup group_events in
  let obstacle_events := filter is_obstacle group_events in
  let blocked_lanes := blocked_lanes_of obstacle_events in
  let '(robs1, blocked1, cull1) :=
    enforce_min_safe (min_safe_lanes params) (rev obstacle_events)
                     blocked_lanes cull in
  let '(robs2, cull2) :=
    match prev with
    | None => (robs1, cull1)
    | Some (prev_time, prev_events) =>
        let time_gap := (group_time - prev_time)%Q in
        let max_lane_change := py_int (time_gap / LANE_CROSS_TIME_S) in
        let prev_blocked := blocked_lanes_of (filter is_obstacle prev_events) in
        let prev_safe := safe_lanes_of prev_blocked in
        if reachable prev_safe (safe_lanes_of blocked1) max_lane_change
        then (robs1, cull1)
        else let '(r, _, c) :=
               restore_reachability prev_safe max_lane_change robs1 blocked1 cull1
             in (r, c)
    end in
  (rev robs2 ++ pickup_events, cull2).

Fixpoint validate_groups (params : DifficultyParams) (prev : option TimeGroup)
    (gs : list TimeGroup) (validated : list CourseEvent) (cull : Z)
    : list CourseEvent * Z :=
  match gs with
  | [] => (validated, cull)
  | g :: rest =>
      let '(kept, cull') := validate_group params prev g cull in
      validate_groups params (Some g) rest (validated ++ kept) cull'
  end.

Definition validate_paths (events : list CourseEvent) (params : DifficultyParams)
    : list CourseEvent * Z :=
  match events with
  | [] => (events, 0)
  | _ =>
      let '(validated, cull_count) :=
        validate_groups params None (time_groups events) [] 0 in
      (sort_by_t validated, cull_count)
  end.

(** The two playability properties of an event list, on its time groups. *)

Definition group_blocked (g : TimeGroup) : set Z :=
  blocked_lanes_of (filter is_obstacle (snd g)).

Definition group_safe (min_safe : Z) (g : TimeGroup) : bool :=
  min_safe <=? LANE_COUNT - Z.of_nat (length (group_blocked g)).

Definition safety_invariant (min_safe : Z) (events : list CourseEvent) : bool :=
  forallb (group_safe min_safe) (time_groups events).

Definition pair_reachable (g1 g2 : TimeGroup) : bool :=
  reachable (safe_lanes_of (group_blocked g1)) (safe_lanes_of (group_blocked g2))
            (Qfloor ((fst g2 - fst g1) / LANE_CROSS_TIME_S)).

Fixpoint consecutive_reachable (gs : list TimeGroup) : bool :=
  match gs with
  | g1 :: ((g2 :: _) as rest) => pair_reachable g1 g2 && consecutive_reachable rest
  | _ => true
  end.

Definition reachability_invariant (events : list CourseEvent) : bool :=
  consecutive_reachable (time_groups events).

(** ** Beat data *)

(** The beat-map document, with the keys the generator reads. *)
Record BeatData : Type := mkBeatData {
  resolution_ms : Z;
  duration_s : Q;
  bpm : Q;
  beats : list Q;
  bass : list Z;
  percussive : list Z;
  harmonic : list Z;
  energy : list Z;
  spotify_track_id : option string
}.

(** [arr[i]] for an index in range, and [arr[-1]], as floats. *)
Definition sample (arr : list Z) (i : Z) : Q :=
  inject_Z (nth (Z.to_nat i) arr 0).
Definition last_sample (arr : list Z) : Q := inject_Z (last arr 0).

(** [sample_at(arr, time_s, resolution_ms)]; [None] is the
    [ZeroDivisionError] of a zero resolution. *)
Definition sample_at (arr : list Z) (time_s : Q) (res_ms : Z) : option Q :=
  match arr with
  | [] => Some 0%Q
  | _ =>
      if res_ms =? 0 then None
      else
        let idx := ((time_s * 1000) / inject_Z res_ms)%Q in
        let i0 := py_int idx in
        let i1 := i0 + 1 in
        if i0 <? 0 then Some (sample arr 0 / 255)%Q
        else if Z.of_nat (length arr) - 1 <=? i0
        then Some (last_sample arr / 255)%Q
        else
          let frac := (idx - inject_Z i0)%Q in
          Some ((sample arr i0 * (1 - frac) + sample arr i1 * frac) / 255)%Q
  end.

(** ** Section quotas of [generate_events] (steps 1 and 2) *)

Definition playable_start : Q := INTRO_SKIP_S.
Definition playable_end (bd : BeatData) : Q := (duration_s bd - OUTRO_SKIP_S)%Q.

(** [section_dur = (playable_end - playable_start) / NUM_SECTIONS] *)
Definition section_dur (bd : BeatData) : Q :=
  ((playable_end bd - playable_start) / inject_Z (Z.of_nat NUM_SECTIONS))%Q.

Definition section_start (bd : BeatData) (s : nat) : Q :=
  (playable_start + inject_Z (Z.of_nat s) * section_dur bd)%Q.

(** [s_mid = s_start + section_dur / 2] *)
Definition section_mid (bd : BeatData) (s : nat) : Q :=
  (section_start bd s + section_dur bd / 2)%Q.

Fixpoint sample_all (arr : list Z) (times : list Q) (res_ms : Z) : option (list Q) :=
  match times with
  | [] => Some []
  | tm :: rest =>
      match sample_at arr tm res_ms with
      | None => None
      | Some v =>
          match sample_all arr rest res_ms with
          | None => None
          | Some vs => Some (v :: vs)
          end
      end
  end.

(** The energy at the midpoint of each of the eight sections. *)
Definition section_energies (bd : BeatData) : option (list Q) :=
  sample_all (energy bd) (map (section_mid bd) (seq 0 NUM_SECTIONS))
             (resolution_ms bd).

Definition Qsum (l : list Q) : Q := fold_left Qplus l 0%Q.

(** [sum(section_energies) / max(1, len(section_energies))] *)
Definition avg_section_energy (se : list Q) : Q :=
  (Qsum se / inject_Z (Z.max 1 (Z.of_nat (length se))))%Q.

(** The factor [energy_scale] of section [s]. *)
Definition energy_scale (se : list Q) (s : nat) : Q :=
  let avg := avg_section_energy se in
  if Qltb 0 avg
  then (0.7 + 0.6 * (nth s se 0 / Qmax 0.01 (avg * 2)))%Q
  else 1%Q.

(** ** The random source

    [random.Random] is library code; the generator reads it through
    [rng.random()] and, under [rng.choice] and [rng.randint], through the
    draw of an integer below a bound. *)
Class RandomSource (Rng : Type) : Type := {
  rng_random : Rng -> Q * Rng;
  rng_randbelow : Z -> Rng -> Z * Rng
}.

(** A source that replays a list of draws, then zeros. *)
Definition replay_random (r : list Q) : Q * list Q :=
  match r with
  | [] => (0%Q, [])
  | u :: r' => (u, r')
  end.

Definition replay_randbelow (n : Z) (r : list Q) : Z * list Q :=
  let (u, r') := replay_random r in (py_int (u * inject_Z n), r').

#[export] Instance replay_source : RandomSource (list Q) :=
  {| rng_random := replay_random; rng_randbelow := replay_randbelow |}.

(** ** Rhythm-zone post-processing: [add_car_crash_beats] *)

Definition GAME_WIDTH : Q := 1920.
Definition OBSTACLE_SPAWN_MARGIN : Q := 120.
Definition KILL_ZONE_X : Q := 200.
Definition ROAD_BASE_SPEED : Q := 1000.
Definition CAR_SPEED_FACTOR : Q := 0.65.
Definition SPAWN_X : Q := (GAME_WIDTH + OBSTACLE_SPAWN_MARGIN)%Q.
Definition CAR_SPEED : Q := (ROAD_BASE_SPEED * (1 - CAR_SPEED_FACTOR))%Q.
Definition SWEET_SPOT_X : Q := 960.

(** [min(b0 :: bs, key=key)]: the first element of least key. *)
Fixpoint min_by_key {A} (key : A -> Q) (best : A) (l : list A) : A :=
  match l with
  | [] => best
  | x :: l' => min_by_key key (if Qltb (key x) (key best) then x else best) l'
  end.

Section PostProcessing.
Context {Rng : Type} `{RandomSource Rng}.

(** The loop over the car events, with the generator threaded through. *)
Fixpoint car_crash_loop (car_events : list CourseEvent) (bts : list Q)
    (car_crash_prob : Q) (rng : Rng) (new_events : list CourseEvent)
    : list CourseEvent * Rng :=
  match car_events with
  | [] => (new_events, rng)
  | car_ev :: rest =>
      let (u, rng1) := rng_random rng in
      if Qltb car_crash_prob u
      then car_crash_loop rest bts car_crash_prob rng1 new_events
      else
        let car_t := t car_ev in
        let candidate_beats :=
          filter (fun b => Qle_bool 1 (car_t - b) && Qle_bool (car_t - b) 3) bts in
        match candidate_beats with
        | [] => car_crash_loop rest bts car_crash_prob rng1 new_events
        | b0 :: bs =>
            let collision_t :=
              min_by_key (fun b => Qabs ((car_t - b) - 2)) b0 bs in
            let time_before_kz := (car_t - collision_t)%Q in
            let car_x_at_collision :=
              (KILL_ZONE_X + CAR_SPEED * time_before_kz)%Q in
            let crash_travel := (SPAWN_X - car_x_at_collision)%Q in
            if Qle_bool crash_travel 0
            then car_crash_loop rest bts car_crash_prob rng1 new_events
            else
              let crash_lead := (crash_travel / ROAD_BASE_SPEED)%Q in
              car_crash_loop rest bts car_crash_prob rng1
                (new_events ++
                 [mkEvent (py_round3 collision_t) (lane car_ev)
                          "car_crash_beat" (Some (py_round3 crash_lead))])
        end
  end.

Definition add_car_crash_beats (events : list CourseEvent) (bd : BeatData)
    (rng : Rng) (car_crash_prob : Q) : list CourseEvent * Rng :=
  let car_events := filter (fun e => String.eqb (type e) "car") events in
  let (new_events, rng') :=
    car_crash_loop car_events (beats bd) car_crash_prob rng [] in
  (sort_by_t (events ++ new_events), rng').
End PostProcessing.

(** ** Scoring *)

Definition BEAT_SNAP_WINDOW_S : Q := 0.100.
Definition ENERGY_WINDOW_S : Q := 10.
Definition DIFFICULTY_CURVE_WINDOWS : nat := 8.

Record ScoreBreakdown : Type := mkScores {
  beat_sync : R;
  flow : R;
  difficulty_curve : R;
  type_variety : R;
  lane_coverage : R;
  energy_match : R;
  cull_rate : R
}.

(** [SCORE_WEIGHTS], in the order of the fields. *)
Definition SCORE_WEIGHTS : list R :=
  [0.25; 0.20; 0.15; 0.10; 0.10; 0.10; 0.10]%R.

Definition weight (i : nat) : R := nth i SCORE_WEIGHTS 0%R.

(** [ScoreBreakdown.total] *)
Definition total (s : ScoreBreakdown) : R :=
  (beat_sync s * weight 0 + flow s * weight 1 + difficulty_curve s * weight 2
   + type_variety s * weight 3 + lane_coverage s * weight 4
   + energy_match s * weight 5 + cull_rate s * weight 6)%R.

(** The [while lo < hi] loop of [find_nearest_beat]; [fuel] bounds the
    number of turns ([bisect_loop_fuel] below: [hi - lo] turns suffice). *)
Fixpoint bisect_loop (fuel : nat) (bts : list Q) (tm : Q) (lo hi : nat) : nat :=
  match fuel with
  | O => lo
  | S fuel' =>
      if (lo <? hi)%nat then
        let mid := ((lo + hi) / 2)%nat in
        if Qltb (nth mid bts 0%Q) tm
        then bisect_loop fuel' bts tm (S mid) hi
        else bisect_loop fuel' bts tm lo mid
      else lo
  end.

Definition find_nearest_beat (bts : list Q) (tm : Q) : Q :=
  match bts with
  | [] => 999%Q
  | _ =>
      let lo := bisect_loop (length bts) bts tm 0 (length bts - 1) in
      let best := Qabs (nth lo bts 0 - tm)%Q in
      if (0 <? lo)%nat
      then Qmin best (Qabs (nth (lo - 1) bts 0 - tm)%Q)
      else best
  end.

(** 1. Beat sync. *)
Definition beat_sync_score (events : list CourseEvent) (bts : list Q) : R :=
  let synced :=
    length (filter (fun e =>
      Qle_bool (find_nearest_beat bts (t e)) BEAT_SNAP_WINDOW_S) events) in
  Rmin 10 (INR synced / INR (length events) * 10).

(** 2. Flow: the first lane of each time group of obstacles. *)
Definition append_first_lane (first_lane : Z) (groups : list Z) : list Z :=
  if 0 <=? first_lane then groups ++ [first_lane] else groups.

Fixpoint flow_group_loop (es : list CourseEvent) (current_t : Q)
    (first_lane : Z) (groups : list Z) : list Z :=
  match es with
  | [] => append_first_lane first_lane groups
  | e :: es' =>
      if Qltb (Qabs (t e - current_t)) 0.05
      then flow_group_loop es' current_t first_lane groups
      else flow_group_loop es' (t e) (lane e)
             (append_first_lane first_lane groups)
  end.

Definition flow_groups (obstacle_events : list CourseEvent) : list Z :=
  flow_group_loop (sort_by_t obstacle_events) (-999) (-1) [].

Record FlowStats : Type := mkFlowStats {
  small_steps : Z;
  total_transitions : Z;
  reversals : Z;
  directional_moves : Z;
  prev_dir : Z
}.

(** One turn of [for i in range(1, len(flow_groups))], on
    [flow_groups[i - 1]] and [flow_groups[i]]. *)
Definition flow_step (before here : Z) (st : FlowStats) : FlowStats :=
  let diff := here - before in
  let small := if Z.abs diff <=? 1 then small_steps st + 1 else small_steps st in
  if diff =? 0
  then mkFlowStats small (total_transitions st + 1) (reversals st)
                   (directional_moves st) (prev_dir st)
  else
    let direction := if 0 <? diff then 1 else -1 in
    mkFlowStats small (total_transitions st + 1)
      (if negb (prev_dir st =? 0) && negb (direction =? prev_dir st)
       then reversals st + 1 else reversals st)
      (directional_moves st + 1) direction.

Fixpoint flow_stats (groups : list Z) (st : FlowStats) : FlowStats :=
  match groups with
  | before :: ((here :: _) as rest) => flow_stats rest (flow_step before here st)
  | _ => st
  end.

Definition flow_score (obstacle_events : list CourseEvent) : R :=
  if (3 <=? length obstacle_events)%nat then
    let groups := flow_groups obstacle_events in
    if (3 <=? length groups)%nat then
      let st := flow_stats groups (mkFlowStats 0 0 0 0 0) in
      let step_score :=
        (IZR (small_steps st) / IZR (Z.max 1 (total_transitions st)))%R in
      let reversal_rate :=
        (IZR (reversals st) / IZR (Z.max 1 (directional_moves st)))%R in
      let reversal_penalty := (reversal_rate * 0.4)%R in
      let raw := (step_score - reversal_penalty)%R in
      Rmin 10 (Rmax 0 (raw * 10.5))
    else 10%R
  else if (length obstacle_events <=? 2)%nat then 10%R
  else 8%R.

(** [sum(1 for e in events if t_start <= e.t < t_end)] *)
Definition count_in_window (events : list CourseEvent) (t_start t_end : Q) : nat :=
  length (filter (fun e => Qle_bool t_start (t e) && Qltb (t e) t_end) events).

Definition Rsum (l : list R) : R := fold_right Rplus 0%R l.

(** [pearson_correlation(x, y)]; both callers pass two lists of one
    length, so that [y[i]] is in range. *)
Definition pearson_correlation (x y : list R) : R :=
  let n := length x in
  if (n <? 2)%nat then 0%R
  else
    let mean_x := (Rsum x / INR n)%R in
    let mean_y := (Rsum y / INR n)%R in
    let num :=
      Rsum (map (fun i => ((nth i x 0 - mean_x) * (nth i y 0 - mean_y))%R)
                (seq 0 n)) in
    let den_x :=
      sqrt (Rsum (map (fun i => ((nth i x 0 - mean_x) ^ 2)%R) (seq 0 n))) in
    let den_y :=
      sqrt (Rsum (map (fun i => ((nth i y 0 - mean_y) ^ 2)%R) (seq 0 n))) in
    if Req_dec_T den_x 0 then 0%R
    else if Req_dec_T den_y 0 then 0%R
    else (num / (den_x * den_y))%R.

(** [min(10.0, max(0.0, (corr + 1) * 5.0))] *)
Definition correlation_score (corr : R) : R :=
  Rmin 10 (Rmax 0 ((corr + 1) * 5)).

(** 3. Difficulty curve. *)
Definition window_densities (events : list CourseEvent) (window_dur : Q)
    (windows : nat) : list nat :=
  map (fun w =>
         count_in_window events (inject_Z (Z.of_nat w) * window_dur)%Q
                         (inject_Z (Z.of_nat w + 1) * window_dur)%Q)
      (seq 0 windows).

Definition difficulty_curve_score (obstacle_events : list CourseEvent)
    (duration : Q) : R :=
  match obstacle_events with
  | [] => 0%R
  | _ =>
      if Qltb 0 duration then
        let window_dur :=
          (duration / inject_Z (Z.of_nat DIFFICULTY_CURVE_WINDOWS))%Q in
        let densities :=
          window_densities obstacle_events window_dur DIFFICULTY_CURVE_WINDOWS in
        if (0 <? fold_right Nat.add 0 densities)%nat then
          correlation_score
            (pearson_correlation (map INR (seq 0 (length densities)))
                                 (map INR densities))
        else 0%R
      else 0%R
  end.

(** 4. Type variety: the [type_counts] dict, in insertion order. *)
Definition variety_key (e : CourseEvent) : string :=
  if is_pickup e then "pickup" else type e.

Fixpoint bump (k : string) (counts : list (string * nat)) : list (string * nat) :=
  match counts with
  | [] => [(k, 1%nat)]
  | (k', c) :: rest =>
      if String.eqb k k' then (k', S c) :: rest else (k', c) :: bump k rest
  end.

Definition type_counts (events : list CourseEvent) : list (string * nat) :=
  fold_left (fun counts e => bump (variety_key e) counts) events [].

Definition log2 (x : R) : R := (ln x / ln 2)%R.

Definition type_variety_score (events : list CourseEvent) : R :=
  let counts := type_counts events in
  let n := INR (length events) in
  let num_types := length counts in
  if (1 <? num_types)%nat then
    let entropy :=
      (- Rsum (map (fun kc => (INR (snd kc) / n) * log2 (INR (snd kc) / n))%R
                   counts))%R in
    let max_entropy := log2 (INR (Nat.min num_types 4)) in
    Rmin 10 (entropy / max_entropy * 10)
  else 2%R.

(** 5. Lane coverage.  [lane_counts[e.lane] += 1] on a list of four
    counters: a negative index counts from the end, an index out of range
    raises [IndexError]. *)
Fixpoint incr_at (i : nat) (counts : list Z) : option (list Z) :=
  match counts, i with
  | [], _ => None
  | c :: rest, O => Some (c + 1 :: rest)
  | c :: rest, S i' => option_map (cons c) (incr_at i' rest)
  end.

Definition incr_lane (counts : list Z) (l : Z) : option (list Z) :=
  if 0 <=? l then incr_at (Z.to_nat l) counts
  else if 0 <=? Z.of_nat (length counts) + l
       then incr_at (Z.to_nat (Z.of_nat (length counts) + l)) counts
       else None.

Fixpoint lane_counts (events : list CourseEvent) (counts : list Z)
    : option (list Z) :=
  match events with
  | [] => Some counts
  | e :: rest =>
      match incr_lane counts (lane e) with
      | None => None
      | Some counts' => lane_counts rest counts'
      end
  end.

Definition Zsum (l : list Z) : Z := fold_right Z.add 0 l.

Definition lane_coverage_score (counts : list Z) : R :=
  let n := Zsum counts in
  if 0 <? n then
    let expected := (IZR n / IZR LANE_COUNT)%R in
    let deviation :=
      (Rsum (map (fun c => ((IZR c - expected) ^ 2)%R) counts) / expected)%R in
    Rmin 10 (Rmax 0 (10 - deviation * 2))
  else 0%R.

(** 6. Energy match.  [energy[i_start:i_end]] for [0 <= i_start < i_end]. *)
Definition slice (arr : list Z) (i_start i_end : Z) : list Z :=
  firstn (Z.to_nat (i_end - i_start)) (skipn (Z.to_nat i_start) arr).

Definition energy_average (arr : list Z) (res_ms : Z) (t_start t_end : Q) : Q :=
  let i_start := py_int (t_start * 1000 / inject_Z res_ms)%Q in
  let i_end := py_int (t_end * 1000 / inject_Z res_ms)%Q in
  let i_start := Z.max 0 (Z.min i_start (Z.of_nat (length arr) - 1)) in
  let i_end := Z.max (i_start + 1) (Z.min i_end (Z.of_nat (length arr))) in
  (inject_Z (Zsum (slice arr i_start i_end))
   / inject_Z (Z.max 1 (i_end - i_start)))%Q.

Definition energy_match_score (events : list CourseEvent) (bd : BeatData) : R :=
  if Qltb 0 (duration_s bd) then
    let num_windows :=
      Z.to_nat (Z.max 2 (py_int (duration_s bd / ENERGY_WINDOW_S)%Q)) in
    let window_dur := (duration_s bd / inject_Z (Z.of_nat num_windows))%Q in
    let spawn_densities := window_densities events window_dur num_windows in
    let energy_averages :=
      map (fun w =>
             energy_average (energy bd) (resolution_ms bd)
               (inject_Z (Z.of_nat w) * window_dur)%Q
               (inject_Z (Z.of_nat w + 1) * window_dur)%Q)
          (seq 0 num_windows) in
    if (2 <=? length spawn_densities)%nat then
      correlation_score
        (pearson_correlation (map INR spawn_densities) (map Q2R energy_averages))
    else 5%R
  else 0%R.

(** 7. Cull rate. *)
Definition cull_rate_score (cull_count total_generated : Z) : R :=
  if 0 <? total_generated then
    let cull_ratio := (IZR cull_count / IZR total_generated)%R in
    Rmin 10 (Rmax 0 (10 - cull_ratio * 33.3))
  else 10%R.

(** [compute_scores]; [None] when the Python raises: an [IndexError] of
    [lane_counts[e.lane]], or the [ZeroDivisionError] of a zero
    [resolution_ms] in the energy windows. *)
Definition compute_scores (events : list CourseEvent) (bd : BeatData)
    (cull_count total_generated : Z) : option ScoreBreakdown :=
  match events with
  | [] => Some (mkScores 0 0 0 0 0 0 0)
  | _ =>
      match lane_counts events [0; 0; 0; 0] with
      | None => None
      | Some counts =>
          if Qltb 0 (duration_s bd) && (resolution_ms bd =? 0) then None
          else
            let obstacle_events := filter is_obstacle events in
            Some (mkScores
                    (beat_sync_score events (beats bd))
                    (flow_score obstacle_events)
                    (difficulty_curve_score obstacle_events (duration_s bd))
                    (type_variety_score events)
                    (lane_coverage_score counts)
                    (energy_match_score events bd)
                    (cull_rate_score cull_count total_generated))
      end
  end.

(** ** Event generation *)

(** [round(x)] and [round(x, 2)] of a real. *)
Definition py_round_R (x : R) : Z :=
  let f := Int_part x in
  let d := (x - IZR f)%R in
  if Rlt_dec d (1 / 2) then f
  else if Rlt_dec (1 / 2) d then f + 1
  else if Z.even f then f else f + 1.

Definition py_round2 (x : R) : R := (IZR (py_round_R (x * 100)) / 100)%R.

(** A stable sort for a key order given as a test [x <= y]. *)
Fixpoint insert_by {A : Type} (leb : A -> A -> bool) (x : A) (l : list A) : list A :=
  match l with
  | [] => [x]
  | y :: l' => if leb x y then x :: y :: l' else y :: insert_by leb x l'
  end.

Fixpoint sort_by {A : Type} (leb : A -> A -> bool) (l : list A) : list A :=
  match l with
  | [] => []
  | x :: l' => insert_by leb x (sort_by leb l')
  end.

Definition Rleb (x y : R) : bool := if Rle_dec x y then true else false.
Definition Rltb (x y : R) : bool := if Rlt_dec x y then true else false.

(** [l[:k]], also for a negative [k]. *)
Definition py_prefix {A : Type} (l : list A) (k : Z) : list A :=
  if 0 <=? k then firstn (Z.to_nat k) l
  else firstn (Z.to_nat (Z.of_nat (length l) + k)) l.

Definition BOUNCE : list Z := [0; 1; 2; 3; 3; 2; 1; 0].

(** An entry of [scored]: [(bt, score, e_val)]. *)
Record ScoredBeat : Type := mkScored {
  scored_time : Q;
  scored_score : R;
  scored_energy : Q
}.

(** Step 1: the candidate beats.  [i % params.beat_skip] raises for a zero
    stride, on the first beat inside the playable window. *)
Fixpoint candidate_loop (bts : list Q) (i : Z) (p_end : Q) (skip : Z)
    : option (list Q) :=
  match bts with
  | [] => Some []
  | beat_time :: rest =>
      if Qltb beat_time playable_start || Qltb p_end beat_time
      then candidate_loop rest (i + 1) p_end skip
      else if skip =? 0 then None
      else
        match candidate_loop rest (i + 1) p_end skip with
        | None => None
        | Some cands =>
            Some (if i mod skip =? 0 then beat_time :: cands else cands)
        end
  end.

Definition candidate_beats (bd : BeatData) (params : DifficultyParams)
    : option (list Q) :=
  candidate_loop (beats bd) 0 (playable_end bd) (beat_skip params).

(** Step 2: the beats and the quota of section [s]. *)
Definition section_beats (bd : BeatData) (cands : list Q) (s : nat) : list Q :=
  let s_start := section_start bd s in
  let s_end := (s_start + section_dur bd)%Q in
  filter (fun b => Qle_bool s_start b && Qltb b s_end) cands.

Definition section_quota (bd : BeatData) (params : DifficultyParams)
    (se : list Q) (cands : list Q) (s : nat) : Z :=
  let progress := ((INR s + 0.5) / INR NUM_SECTIONS)%R in
  let quota_frac :=
    (curve_start params + (1 - curve_start params) * progress)%R in
  Z.max 0 (py_round_R (INR (length (section_beats bd cands s))
                       * density params * quota_frac
                       * Q2R (energy_scale se s))).

(** [min(range(len(keys)), key=...)] for keys [(count, draw)], compared as
    tuples: the first index of least key. *)
Definition key_lt (a b : Z * Q) : bool :=
  (fst a <? fst b) || ((fst a =? fst b) && Qltb (snd a) (snd b)).

Fixpoint argmin_key (keys : list (Z * Q)) (i best_i : Z) (best : Z * Q) : Z :=
  match keys with
  | [] => best_i
  | k :: rest =>
      if key_lt k best then argmin_key rest (i + 1) i k
      else argmin_key rest (i + 1) best_i best
  end.

Section Generation.
Context {Rng : Type} `{RandomSource Rng}.

(** Code that draws from the generator it is handed and may raise. *)
Definition Gen (A : Type) : Type := Rng -> option (A * Rng).

Definition ret {A : Type} (a : A) : Gen A := fun rng => Some (a, rng).

Definition bind {A B : Type} (m : Gen A) (k : A -> Gen B) : Gen B :=
  fun rng =>
    match m rng with
    | None => None
    | Some (a, rng') => k a rng'
    end.

Definition raise {A : Type} : Gen A := fun _ => None.

Definition lift {A : Type} (o : option A) : Gen A :=
  fun rng =>
    match o with
    | None => None
    | Some a => Some (a, rng)
    end.

(** [rng.random()] *)
Definition draw : Gen Q := fun rng => Some (rng_random rng).

(** [rng.choice(seq)] for a non-empty [seq]. *)
Definition choice (seq : list Z) : Gen Z :=
  fun rng =>
    let (k, rng') := rng_randbelow (Z.of_nat (length seq)) rng in
    Some (nth (Z.to_nat k) seq 0, rng').

(** [rng.randint(a, b)] *)
Definition randint (a b : Z) : Gen Z :=
  fun rng =>
    let (k, rng') := rng_randbelow (b - a + 1) rng in Some (a + k, rng').

Notation "x <- m ;; k" := (bind m (fun x => k))
  (at level 61, m at next level, right associativity).

Definition wave_lane (event_index : Z) (params : DifficultyParams) : Gen Z :=
  let base_lane := nth (Z.to_nat (event_index mod Z.of_nat (length BOUNCE))) BOUNCE 0 in
  u <- draw ;;
  base_lane' <- (if Rltb (Q2R u) (wave_noise params)
                 then (d <- choice [-1; 1] ;; ret (base_lane + d))
                 else ret base_lane) ;;
  ret (Z.max 0 (Z.min (LANE_COUNT - 1) base_lane')).

Definition pick_type (bass_val perc_val harm_val : Q)
    (params : DifficultyParams) (as_pickup : bool) : Gen string :=
  if as_pickup then
    u <- draw ;; ret (if Qltb 0.3 u then "pickup_ammo" else "pickup_shield")
  else
    let dominant := Qmax (Qmax bass_val perc_val) (harm_val * 0.5) in
    early <- (if Qeq_bool dominant bass_val && Qltb 0.3 bass_val
              then (u <- draw ;; ret (if Qltb u 0.55 then Some "crash" else None))
              else if Qeq_bool dominant perc_val && Qltb 0.3 perc_val
              then (u <- draw ;; ret (if Qltb u 0.45 then Some "car" else None))
              else ret None) ;;
    match early with
    | Some ty => ret ty
    | None =>
        roll <- draw ;;
        let total_w :=
          (crash_weight params + car_weight params + slow_weight params)%R in
        if Req_dec_T total_w 0 then raise
        else if Rltb (Q2R roll) (crash_weight params / total_w) then ret "crash"
        else if Rltb (Q2R roll)
                     ((crash_weight params + car_weight params) / total_w)
        then ret "car"
        else ret "slow"
    end.

(** Step 3: the beats of a section that pass the energy floor, scored. *)
Fixpoint score_beats (s_beats : list Q) (bd : BeatData)
    (params : DifficultyParams) (scored : list ScoredBeat)
    : Gen (list ScoredBeat) :=
  match s_beats with
  | [] => ret scored
  | bt :: rest =>
      e_val <- lift (sample_at (energy bd) bt (resolution_ms bd)) ;;
      if Rltb (Q2R e_val) (energy_floor params)
      then score_beats rest bd params scored
      else
        u <- draw ;;
        let score :=
          ((1 - energy_influence params) + energy_influence params * Q2R e_val
           + Q2R u * 0.1)%R in
        score_beats rest bd params (scored ++ [mkScored bt score e_val])
  end.

Definition select_section (bd : BeatData) (params : DifficultyParams)
    (s_beats : list Q) (quota : Z) : Gen (list ScoredBeat) :=
  match s_beats with
  | [] => ret []
  | _ =>
      if quota <=? 0 then ret []
      else
        scored <- score_beats s_beats bd params [] ;;
        let by_score :=
          sort_by (fun a b => Rleb (- scored_score a) (- scored_score b)) scored in
        let picked := py_prefix by_score quota in
        ret (sort_by (fun a b => Qle_bool (scored_time a) (scored_time b)) picked)
  end.

Fixpoint select_beats (bd : BeatData) (params : DifficultyParams)
    (sections : list (list Q * Z)) (selected : list ScoredBeat)
    : Gen (list ScoredBeat) :=
  match sections with
  | [] => ret selected
  | (s_beats, quota) :: rest =>
      picked <- select_section bd params s_beats quota ;;
      select_beats bd params rest (selected ++ picked)
  end.

(** Step 4: the indices that become pickups. *)
Fixpoint pickup_index_loop (turns : nat) (i : Z) (n_events : Z) (spacing : Q)
    (indices : set Z) : Gen (set Z) :=
  match turns with
  | O => ret indices
  | S turns' =>
      u <- draw ;;
      let idx :=
        Z.min (n_events - 1)
              (py_round (inject_Z i * spacing + u * spacing * 0.4)%Q) in
      pickup_index_loop turns' (i + 1) n_events spacing
                        (set_add Z.eq_dec idx indices)
  end.

Definition pickup_indices (n_events : Z) (params : DifficultyParams) : Gen (set Z) :=
  let n_pickups := Z.max 1 (py_round_R (IZR n_events * pickup_ratio params)) in
  if (0 <? n_pickups) && (0 <? n_events)
  then pickup_index_loop (Z.to_nat n_pickups) 0 n_events
         (inject_Z n_events / inject_Z n_pickups)%Q (empty_set Z)
  else ret (empty_set Z).

(** Step 5.  The keys [(lane_counts[l], rng.random())] of the four lanes. *)
Fixpoint pickup_lane_keys (counts : list Z) : Gen (list (Z * Q)) :=
  match counts with
  | [] => ret []
  | c :: rest =>
      u <- draw ;;
      keys <- pickup_lane_keys rest ;;
      ret ((c, u) :: keys)
  end.

Definition least_used_lane (counts : list Z) : Gen Z :=
  keys <- pickup_lane_keys counts ;;
  match keys with
  | [] => raise
  | k :: rest => ret (argmin_key rest 1 0 k)
  end.

Definition cluster_size_of (e_val : Q) (params : DifficultyParams) : Gen Z :=
  size2 <- (if (2 <=? max_per_cluster params)
               && Rltb (cluster2_energy params) (Q2R e_val)
            then (u <- draw ;;
                  ret (if Rltb (Q2R u) (cluster2_prob params) then 2 else 1))
            else ret 1) ;;
  if (3 <=? max_per_cluster params) && Rltb (cluster3_energy params) (Q2R e_val)
  then (u <- draw ;;
        ret (if Rltb (Q2R u) (cluster3_prob params) then 3 else size2))
  else ret size2.

(** The lanes of a cluster: the wave lane, then the nearest and least used
    of the others. *)
Definition cluster_lanes (primary_lane cluster_size : Z) (counts : list Z)
    (params : DifficultyParams) : list Z :=
  if 1 <? cluster_size then
    let available := filter (fun l => negb (l =? primary_lane)) [0; 1; 2; 3] in
    let key l := (Z.abs (l - primary_lane), nth (Z.to_nat l) counts 0) in
    let key_le a b :=
      (fst (key a) <? fst (key b))
      || ((fst (key a) =? fst (key b)) && (snd (key a) <=? snd (key b))) in
    let available := sort_by key_le available in
    let max_obstacles := LANE_COUNT - min_safe_lanes params in
    let extra :=
      Z.min (Z.min (cluster_size - 1) (max_obstacles - 1))
            (Z.of_nat (length available)) in
    primary_lane :: py_prefix available extra
  else [primary_lane].

Fixpoint place_obstacles (lanes : list Z) (tm : Q)
    (bass_val perc_val harm_val : Q) (params : DifficultyParams)
    (events : list CourseEvent) (counts : list Z)
    : Gen (list CourseEvent * list Z) :=
  match lanes with
  | [] => ret (events, counts)
  | l :: rest =>
      etype <- pick_type bass_val perc_val harm_val params false ;;
      counts' <- lift (incr_lane counts l) ;;
      place_obstacles rest tm bass_val perc_val harm_val params
        (events ++ [mkEvent tm l etype None]) counts'
  end.

Fixpoint assign_loop (selected : list ScoredBeat) (i : Z) (bd : BeatData)
    (params : DifficultyParams) (pickups : set Z) (wave_offset : Z)
    (obstacle_wave_idx : Z) (events : list CourseEvent) (counts : list Z)
    : Gen (list CourseEvent) :=
  match selected with
  | [] => ret events
  | sb :: rest =>
      let beat_time := scored_time sb in
      let e_val := scored_energy sb in
      bass_val <- lift (sample_at (bass bd) beat_time (resolution_ms bd)) ;;
      perc_val <- lift (sample_at (percussive bd) beat_time (resolution_ms bd)) ;;
      harm_val <- lift (sample_at (harmonic bd) beat_time (resolution_ms bd)) ;;
      if set_mem Z.eq_dec i pickups then
        pickup_lane <- least_used_lane counts ;;
        u <- draw ;;
        let etype := if Qltb 0.3 u then "pickup_ammo" else "pickup_shield" in
        counts' <- lift (incr_lane counts pickup_lane) ;;
        assign_loop rest (i + 1) bd params pickups wave_offset obstacle_wave_idx
          (events ++ [mkEvent (py_round3 beat_time) pickup_lane etype None])
          counts'
      else
        cluster_size <- cluster_size_of e_val params ;;
        primary_lane <- wave_lane (obstacle_wave_idx + wave_offset) params ;;
        let chosen_lanes := cluster_lanes primary_lane cluster_size counts params in
        placed <- place_obstacles chosen_lanes (py_round3 beat_time)
                    bass_val perc_val harm_val params events counts ;;
        assign_loop rest (i + 1) bd params pickups wave_offset
          (obstacle_wave_idx + 1) (fst placed) (snd placed)
  end.

Definition generate_events (bd : BeatData) (params : DifficultyParams)
    : Gen (list CourseEvent) :=
  cands <- lift (candidate_beats bd params) ;;
  match cands with
  | [] => ret []
  | _ =>
      se <- lift (section_energies bd) ;;
      let sections :=
        map (fun s => (section_beats bd cands s,
                       section_quota bd params se cands s))
            (seq 0 NUM_SECTIONS) in
      selected <- select_beats bd params sections [] ;;
      pickups <- pickup_indices (Z.of_nat (length selected)) params ;;
      wave_offset <- randint 0 (Z.of_nat (length BOUNCE) - 1) ;;
      assign_loop selected 0 bd params pickups wave_offset 0 [] [0; 0; 0; 0]
  end.

End Generation.

(** ** Adaptive parameter adjustment *)

Definition set_wave_noise (p : DifficultyParams) (v : R) : DifficultyParams :=
  mkParams (beat_skip p) (max_per_cluster p) (crash_weight p) (car_weight p)
    (slow_weight p) (pickup_ratio p) (min_safe_lanes p) (density p)
    (curve_start p) (energy_floor p) (energy_influence p) (wave_amplitude p)
    (wave_period p) v (cluster2_energy p) (cluster3_energy p)
    (cluster2_prob p) (cluster3_prob p).

Definition set_wave (p : DifficultyParams) (amplitude period : Z) : DifficultyParams :=
  mkParams (beat_skip p) (max_per_cluster p) (crash_weight p) (car_weight p)
    (slow_weight p) (pickup_ratio p) (min_safe_lanes p) (density p)
    (curve_start p) (energy_floor p) (energy_influence p) amplitude
    period (wave_noise p) (cluster2_energy p) (cluster3_energy p)
    (cluster2_prob p) (cluster3_prob p).

Definition set_curve_start (p : DifficultyParams) (v : R) : DifficultyParams :=
  mkParams (beat_skip p) (max_per_cluster p) (crash_weight p) (car_weight p)
    (slow_weight p) (pickup_ratio p) (min_safe_lanes p) (density p)
    v (energy_floor p) (energy_influence p) (wave_amplitude p)
    (wave_period p) (wave_noise p) (cluster2_energy p) (cluster3_energy p)
    (cluster2_prob p) (cluster3_prob p).

Definition set_type_mix (p : DifficultyParams) (crash car slow pickup : R)
    : DifficultyParams :=
  mkParams (beat_skip p) (max_per_cluster p) crash car slow pickup
    (min_safe_lanes p) (density p) (curve_start p) (energy_floor p)
    (energy_influence p) (wave_amplitude p) (wave_period p) (wave_noise p)
    (cluster2_energy p) (cluster3_energy p) (cluster2_prob p) (cluster3_prob p).

Definition set_energy (p : DifficultyParams) (floor influence : R)
    : DifficultyParams :=
  mkParams (beat_skip p) (max_per_cluster p) (crash_weight p) (car_weight p)
    (slow_weight p) (pickup_ratio p) (min_safe_lanes p) (density p)
    (curve_start p) floor influence (wave_amplitude p)
    (wave_period p) (wave_noise p) (cluster2_energy p) (cluster3_energy p)
    (cluster2_prob p) (cluster3_prob p).

Definition set_density (p : DifficultyParams) (dens prob2 prob3 : R)
    : DifficultyParams :=
  mkParams (beat_skip p) (max_per_cluster p) (crash_weight p) (car_weight p)
    (slow_weight p) (pickup_ratio p) (min_safe_lanes p) dens
    (curve_start p) (energy_floor p) (energy_influence p) (wave_amplitude p)
    (wave_period p) (wave_noise p) (cluster2_energy p) (cluster3_energy p)
    prob2 prob3.

(** The six rules of [adjust_params], in the order of the source. *)
Definition adjust_flow (scores : ScoreBreakdown) (p : DifficultyParams) :=
  if Rltb (flow scores) 9.5 then
    let deficit := (10 - flow scores)%R in
    set_wave (set_wave_noise p (Rmax 0 (wave_noise p - 0.02 * deficit)))
             (wave_amplitude p) (Z.min 24 (wave_period p + 1))
  else p.

Definition adjust_curve (scores : ScoreBreakdown) (p : DifficultyParams) :=
  if Rltb (difficulty_curve scores) 9 then
    let deficit := (10 - difficulty_curve scores)%R in
    set_curve_start p (Rmax 0.02 (curve_start p - 0.02 * deficit))
  else p.

Definition adjust_variety (scores : ScoreBreakdown) (p : DifficultyParams) :=
  if Rltb (type_variety scores) 9 then
    let deficit := (10 - type_variety scores)%R in
    let avg_w := ((crash_weight p + car_weight p + slow_weight p) / 3)%R in
    set_type_mix p
      (crash_weight p + (avg_w - crash_weight p) * 0.08 * deficit)
      (car_weight p + (avg_w - car_weight p) * 0.08 * deficit)
      (slow_weight p + (avg_w - slow_weight p) * 0.08 * deficit)
      (Rmax 0.08 (Rmin 0.45 (pickup_ratio p + 0.01 * deficit)))
  else p.

Definition adjust_coverage (scores : ScoreBreakdown) (p : DifficultyParams) :=
  if Rltb (lane_coverage scores) 9 then
    let deficit := (10 - lane_coverage scores)%R in
    set_wave_noise (set_wave p (LANE_COUNT - 1) (wave_period p))
                   (Rmax 0 (wave_noise p - 0.02 * deficit))
  else p.

Definition adjust_energy (scores : ScoreBreakdown) (p : DifficultyParams) :=
  if Rltb (energy_match scores) 9 then
    let deficit := (10 - energy_match scores)%R in
    set_energy p (Rmin 0.35 (energy_floor p + 0.02 * deficit))
               (Rmin 0.95 (energy_influence p + 0.06 * deficit))
  else p.

Definition adjust_cull (scores : ScoreBreakdown) (p : DifficultyParams) :=
  if Rltb (cull_rate scores) 9.5 then
    let deficit := (10 - cull_rate scores)%R in
    set_density p (Rmax 0.25 (density p - 0.02 * deficit))
                (Rmax 0.05 (cluster2_prob p - 0.03 * deficit))
                (Rmax 0.02 (cluster3_prob p - 0.03 * deficit))
  else p.

Definition adjust_params (params : DifficultyParams) (scores : ScoreBreakdown)
    : DifficultyParams :=
  adjust_cull scores
    (adjust_energy scores
       (adjust_coverage scores
          (adjust_variety scores
             (adjust_curve scores (adjust_flow scores params))))).

(** ** The course document *)

(** [ScoreBreakdown.to_dict] *)
Record ScoreReport : Type := mkReport {
  report_total : R;
  report_beat_sync : R;
  report_flow : R;
  report_difficulty_curve : R;
  report_type_variety : R;
  report_lane_coverage : R;
  report_energy_match : R;
  report_cull_rate : R
}.

Definition to_dict (s : ScoreBreakdown) : ScoreReport :=
  mkReport (py_round2 (total s)) (py_round2 (beat_sync s)) (py_round2 (flow s))
    (py_round2 (difficulty_curve s)) (py_round2 (type_variety s))
    (py_round2 (lane_coverage s)) (py_round2 (energy_match s))
    (py_round2 (cull_rate s)).

Record Course : Type := mkCourse {
  course_track_id : string;
  course_difficulty : string;
  course_name : string;
  course_duration_s : Q;
  course_bpm : Q;
  course_version : Z;
  course_seed : Z;
  course_score : ScoreReport;
  course_attempts : Z;
  course_events : list CourseEvent
}.

(** [DIFFICULTY_PRESETS[difficulty]]; [None] is the [KeyError]. *)
Definition preset_of (difficulty : string) : option DifficultyParams :=
  if String.eqb difficulty "easy" then Some preset_easy
  else if String.eqb difficulty "normal" then Some preset_normal
  else if String.eqb difficulty "hard" then Some preset_hard
  else None.

(** The champion record of the search loop. *)
Record Champion : Type := mkChampion {
  champion_events : option (list CourseEvent);
  champion_score : ScoreBreakdown;
  champion_seed : Z;
  champion_attempts : Z
}.

Section SearchLoop.
Context {Rng : Type} `{RandomSource Rng}.

(** [add_guardians] *)
Fixpoint guardian_loop (pickup_events : list CourseEvent) (guardian_prob : Q)
    (rng : Rng) (new_guardians : list CourseEvent) : list CourseEvent * Rng :=
  match pickup_events with
  | [] => (new_guardians, rng)
  | pickup_ev :: rest =>
      let (u, rng1) := rng_random rng in
      if Qltb guardian_prob u
      then guardian_loop rest guardian_prob rng1 new_guardians
      else
        let (v, rng2) := rng_random rng1 in
        let offset := (0.3 + v * 0.5)%Q in
        let guardian_t := py_round3 (t pickup_ev - offset) in
        if Qltb guardian_t INTRO_SKIP_S
        then guardian_loop rest guardian_prob rng2 new_guardians
        else guardian_loop rest guardian_prob rng2
               (new_guardians ++
                [mkEvent guardian_t (lane pickup_ev) "guardian" None])
  end.

Definition add_guardians (events : list CourseEvent) (rng : Rng)
    (guardian_prob : Q) : list CourseEvent * Rng :=
  let pickup_events :=
    filter (fun e => String.eqb (type e) "pickup_ammo") events in
  let (new_guardians, rng') := guardian_loop pickup_events guardian_prob rng [] in
  (sort_by_t (events ++ new_guardians), rng').

(** [add_enemy_cars] rewrites car events in place; [done] holds the events
    already visited, [todo] those still to visit, and [done ++ todo] is the
    list that [has_crash_beat] scans. *)
Fixpoint enemy_loop (done todo : list CourseEvent) (bts : list Q)
    (enemy_prob : Q) (rng : Rng) : list CourseEvent * Rng :=
  match todo with
  | [] => (done, rng)
  | car_ev :: rest =>
      if String.eqb (type car_ev) "car" then
        let (u, rng1) := rng_random rng in
        if Qltb enemy_prob u
        then enemy_loop (done ++ [car_ev]) rest bts enemy_prob rng1
        else
          let has_crash_beat :=
            existsb (fun e => String.eqb (type e) "car_crash_beat"
                              && (lane e =? lane car_ev)
                              && Qltb (Qabs (t e - t car_ev)) 4)
                    (done ++ todo) in
          if has_crash_beat
          then enemy_loop (done ++ [car_ev]) rest bts enemy_prob rng1
          else
            let sweet_arrival :=
              (t car_ev - (SWEET_SPOT_X - KILL_ZONE_X) / CAR_SPEED)%Q in
            match bts with
            | [] => enemy_loop (done ++ [car_ev]) rest bts enemy_prob rng1
            | b0 :: bs =>
                let snap_t :=
                  min_by_key (fun b => Qabs (b - sweet_arrival)) b0 bs in
                if Qltb 0.5 (Qabs (snap_t - sweet_arrival))
                then enemy_loop (done ++ [car_ev]) rest bts enemy_prob rng1
                else enemy_loop
                       (done ++ [mkEvent (py_round3 snap_t) (lane car_ev)
                                         "enemy_car" (lead car_ev)])
                       rest bts enemy_prob rng1
            end
      else enemy_loop (done ++ [car_ev]) rest bts enemy_prob rng
  end.

Definition add_enemy_cars (events : list CourseEvent) (bd : BeatData)
    (rng : Rng) (enemy_prob : Q) : list CourseEvent * Rng :=
  let (events', rng') := enemy_loop [] events (beats bd) enemy_prob rng in
  (sort_by_t events', rng').

(** The three passes over the champion, sharing one generator. *)
Definition post_process (events : list CourseEvent) (bd : BeatData)
    (post_rng : Rng) : list CourseEvent :=
  let (events1, rng1) := add_car_crash_beats events bd post_rng 0.35 in
  let (events2, rng2) := add_guardians events1 rng1 0.5 in
  fst (add_enemy_cars events2 bd rng2 0.25).

(** [random.Random(seed)] *)
Variable Random : Z -> Rng.

(** One attempt: generate, validate, score. *)
Definition run_attempt (bd : BeatData) (params : DifficultyParams) (seed : Z)
    : option (list CourseEvent * ScoreBreakdown) :=
  match generate_events bd params (Random seed) with
  | None => None
  | Some (events, _) =>
      let total_generated := Z.of_nat (length events) in
      let (validated, cull_count) := validate_paths events params in
      match compute_scores validated bd cull_count total_generated with
      | None => None
      | Some scores => Some (validated, scores)
      end
  end.

(** [for attempt in range(max_attempts)], with [turns] attempts left. *)
Fixpoint search_loop (turns : nat) (attempt : Z) (bd : BeatData)
    (target_score : R) (params : DifficultyParams) (champion : Champion)
    : option Champion :=
  match turns with
  | O => Some champion
  | S turns' =>
      let seed := attempt + 1 in
      match run_attempt bd params seed with
      | None => None
      | Some (events, scores) =>
          let champion' :=
            if Rltb (total (champion_score champion)) (total scores)
            then mkChampion (Some events) scores seed (attempt + 1)
            else champion in
          if Rleb target_score (total scores) then Some champion'
          else search_loop turns' (attempt + 1) bd target_score
                 (adjust_params params scores) champion'
      end
  end.

Definition generate_course (bd : BeatData) (difficulty : string)
    (max_attempts : Z) (target_score : R) : option Course :=
  match preset_of difficulty with
  | None => None
  | Some params =>
      match search_loop (Z.to_nat max_attempts) 0 bd target_score params
              (mkChampion None (mkScores 0 0 0 0 0 0 0) 0 0) with
      | None => None
      | Some champion =>
          let events :=
            match champion_events champion with
            | None => []
            | Some [] => []
            | Some evs =>
                post_process evs bd (Random (champion_seed champion + 1000))
            end in
          Some (mkCourse
                  (match spotify_track_id bd with
                   | Some id => id
                   | None => "unknown"
                   end)
                  difficulty "Default" (py_round3 (duration_s bd)) (bpm bd) 1
                  (champion_seed champion) (to_dict (champion_score champion))
                  (champion_attempts champion) events)
      end
  end.

End SearchLoop.

(** ** Inputs used below *)

Definition obstacle (tm : Q) (l : Z) (ty : string) : CourseEvent :=
  mkEvent tm l ty None.

(** Three obstacles at one time, two of them in lane 1. *)
Definition crowded_group : list CourseEvent :=
  [obstacle 1 0 "crash"; obstacle 1 1 "crash"; obstacle 1 1 "car"].

(** A three-lane wall, then two obstacles in lane 0 within one time group,
    125 ms after the wall. *)
Definition wall_then_double_lane0 : list CourseEvent :=
  [obstacle 1 1 "crash"; obstacle 1 2 "crash"; obstacle 1 3 "car";
   obstacle 1.125 0 "crash"; obstacle 1.15625 0 "crash"].

(** A three-lane wall, then two single obstacles in lane 0, 125 ms apart. *)
Definition wall_then_lane0 : list CourseEvent :=
  [obstacle 1 1 "crash"; obstacle 1 2 "crash"; obstacle 1 3 "car";
   obstacle 1.125 0 "crash"; obstacle 1.25 0 "crash"].

(** A 22 s track sampled every second, loud only at the midpoint (5 s) of
    its first section, with one beat in the playable window. *)
Definition one_loud_section : BeatData :=
  mkBeatData 1000 22 120 [5%Q] [] [] []
    [0; 0; 0; 0; 0; 255; 0; 0; 0; 0; 0; 0; 0; 0; 0; 0; 0; 0; 0; 0; 0; 0]
    None.

(** Three obstacles at one time, in three lanes. *)
Definition triple_cluster : list CourseEvent :=
  [obstacle 6 0 "crash"; obstacle 6 1 "car"; obstacle 6 2 "slow"].

(** A two-sample signal: silence, then full level. *)
Definition step_signal : list Z := [0; 255].

(** A three-sample signal rising from silence to full level. *)
Definition ramp_signal : list Z := [0; 128; 255].

(** Two seeded sources over replayed draws.  They agree on the seeds
    [1, 2] of two attempts and [1001, 1002] of their post-processing, and
    differ elsewhere. *)
Definition seeded_draws (seed : Z) : list Q :=
  map (fun k => (inject_Z ((seed * 37 + Z.of_nat k * 11) mod 100) / 100)%Q)
      (seq 0 64).

Definition other_draws (seed : Z) : list Q :=
  if ((1 <=? seed) && (seed <=? 2)) || ((1001 <=? seed) && (seed <=? 1002))
  then seeded_draws seed
  else [].

(** Scenario C: one beat at 8 s, one car at 10 s in lane 2. *)
Definition scenario_c_beats : BeatData :=
  mkBeatData 100 20 120 [8%Q] [] [] [] [] None.
Definition scenario_c_events : list CourseEvent := [obstacle 10 2 "car"].

(** Four ascending beats, a beat map over them, and two events on beats. *)
Definition four_beats : list Q := [1; 2; 4; 8]%Q.
Definition four_beat_map : BeatData :=
  mkBeatData 100 10 120 four_beats [] [] [] [] None.
Definition on_beat_events : list CourseEvent :=
  [obstacle 2 0 "crash"; obstacle 4 1 "car"].

(** A time group holds at least one event, and each of its events is
    within 50 ms of the time of the group. *)
Definition within_window (g : TimeGroup) : Prop :=
  snd g <> [] /\ Forall (fun e => (Qabs (t e - fst g) < 0.05)%Q) (snd g).

(** Successive time groups are at least 50 ms apart. *)
Fixpoint spaced (gs : list TimeGroup) : Prop :=
  match gs with
  | g1 :: ((g2 :: _) as rest) => (fst g1 + 0.05 <= fst g2)%Q /\ spaced rest
  | _ => True
  end.

(** Two events on beats of [four_beats], a pickup between them. *)
Definition playable_events : list CourseEvent :=
  [obstacle 2 0 "crash"; obstacle 4 2 "pickup_ammo"; obstacle 4 1 "car"].

(** The set of blocked lanes agrees with a list of obstacles: it has no
    duplicate and holds exactly their lanes. *)
Definition tracks (blocked : set Z) (obs : list CourseEvent) : Prop :=
  NoDup blocked /\ forall l, In l blocked <-> In l (map lane obs).

(** The input shape the generator aims at: times are not negative, the
    events of a time group share one time stamp, and the obstacles of a
    time group sit in pairwise distinct lanes. *)
Definition clustered (events : list CourseEvent) : Prop :=
  Forall (fun e => (0 <= t e)%Q) events
  /\ Forall (fun g =>
       Forall (fun e => (t e == fst g)%Q) (snd g)
       /\ NoDup (map lane (filter is_obstacle (snd g))))
     (time_groups events).

(** Group times, each at least 50 ms after all the earlier ones. *)
Definition far_apart (times : list Q) : Prop :=
  StronglySorted (fun a b => (a + 0.05 <= b)%Q) times.

(** A single cluster of two obstacles and a pickup, then a lone obstacle. *)
Definition clustered_events : list CourseEvent :=
  [obstacle 2 0 "crash"; obstacle 2 1 "car"; mkEvent 2 1 "pickup_ammo" None;
   obstacle 4 2 "slow"].

(** Blocks of events that carry the time stamp of their block. *)
Definition tight (bs : list TimeGroup) : Prop :=
  Forall (fun b => Forall (fun e => (t e == fst b)%Q) (snd b)) bs.

(** The limits that the rules of [adjust_params] clamp to. *)
Definition within_clamps (p : DifficultyParams) : Prop :=
  (0 <= wave_noise p)%R /\ wave_period p <= 24
  /\ wave_amplitude p <= LANE_COUNT - 1
  /\ (0.02 <= curve_start p)%R
  /\ (0.08 <= pickup_ratio p <= 0.45)%R
  /\ (energy_floor p <= 0.35)%R /\ (energy_influence p <= 0.95)%R
  /\ (0.25 <= density p)%R
  /\ (0.05 <= cluster2_prob p)%R /\ (0.02 <= cluster3_prob p)%R.

(** The three obstacle weights of a parameter set. *)
Definition type_weights (p : DifficultyParams) : list R :=
  [crash_weight p; car_weight p; slow_weight p].

(** A score sheet of a mediocre attempt. *)
Definition mediocre_scores : ScoreBreakdown := mkScores 8 7 6 5 4 3 2.

(** What [add_car_crash_beats] may add for the events of a course: a
    [car_crash_beat] in the lane of a car, on a beat one to three seconds
    before the car, with a lead between 0.79 s and 1.49 s. *)
Definition crash_beat_for (events : list CourseEvent) (bd : BeatData)
    (e : CourseEvent) : Prop :=
  type e = "car_crash_beat"
  /\ exists car_ev b l,
       In car_ev events /\ type car_ev = "car" /\ lane e = lane car_ev
       /\ In b (beats bd) /\ (1 <= t car_ev - b <= 3)%Q
       /\ t e = py_round3 b
       /\ lead e = Some l /\ (0.79 <= l <= 1.49)%Q.

(** What [add_guardians] may add: a [guardian] without lead, not before
    the end of the intro, in the lane of a [pickup_ammo]. *)
Definition guardian_for (events : list CourseEvent) (e : CourseEvent) : Prop :=
  type e = "guardian" /\ lead e = None /\ (INTRO_SKIP_S <= t e)%Q
  /\ exists pickup_ev,
       In pickup_ev events /\ type pickup_ev = "pickup_ammo"
       /\ lane e = lane pickup_ev.

(** What [add_enemy_cars] may do to one event of [events]: leave it, or
    turn a car that no crash beat targets into an [enemy_car] on a beat
    within half a second of its arrival at the sweet spot. *)
Definition enemy_car_of (events : list CourseEvent) (bd : BeatData)
    (e e' : CourseEvent) : Prop :=
  e' = e
  \/ (type e = "car" /\ type e' = "enemy_car"
      /\ lane e' = lane e /\ lead e' = lead e
      /\ (exists b, In b (beats bd) /\ t e' = py_round3 b
            /\ (Qabs (b - (t e - (SWEET_SPOT_X - KILL_ZONE_X) / CAR_SPEED))
                <= 0.5)%Q)
      /\ forall c, In c events -> type c = "car_crash_beat" ->
           lane c = lane e -> (4 <= Qabs (t c - t e))%Q).

(** A beat inside the playable window of a beat map. *)
Definition playable_beat (bd : BeatData) (b : Q) : Prop :=
  In b (beats bd)
  /\ (INTRO_SKIP_S <= b)%Q /\ (b <= duration_s bd - OUTRO_SKIP_S)%Q.

(** A parameter set with a zero stride. *)
Definition zero_stride : DifficultyParams :=
  mkParams 0 2 0.35 0.30 0.15 0.25 2 0.55 0.20 0.12 0.6 3 14 0.15
           0.65 0.82 0.45 0.25.

(** The shape of an event as [generate_events] emits it: one of the four
    lanes, no lead, one of the five generated types, and the time of a
    playable beat rounded to the millisecond. *)
Definition generated_event (bd : BeatData) (e : CourseEvent) : Prop :=
  0 <= lane e <= 3
  /\ lead e = None
  /\ In (type e) ["crash"; "car"; "slow"; "pickup_ammo"; "pickup_shield"]
  /\ exists b, playable_beat bd b /\ t e = py_round3 b.

(** A beat map with one playable beat, on the one loud second of the
    track. *)
Definition single_beat_map : BeatData :=
  mkBeatData 1000 22 120 [5%Q] [] [] []
    [0; 0; 0; 0; 0; 255; 0; 0; 0; 0; 0; 0; 0; 0; 0; 0; 0; 0; 0; 0; 0; 0]
    None.

(** Two lists of one length. *)
Definition rising_pair : list R := [1%R; 2%R].
Definition doubled_pair : list R := [2%R; 4%R].

(** The inputs on which a generation attempt raises nothing: a stride other
    than 0 and obstacle weights that do not add up to 0. *)
Definition usable_params (params : DifficultyParams) : Prop :=
  beat_skip params <> 0
  /\ (crash_weight params + car_weight params + slow_weight params <> 0)%R.

(** The shape of an event of a course document: one of the four lanes,
    one of the eight types, and a lead only on a [car_crash_beat]. *)
Definition course_event (e : CourseEvent) : Prop :=
  0 <= lane e <= 3
  /\ In (type e) ["crash"; "car"; "slow"; "pickup_ammo"; "pickup_shield";
                  "car_crash_beat"; "guardian"; "enemy_car"]
  /\ (lead e <> None -> type e = "car_crash_beat").

(** The champion record while the search runs: seed and attempt number
    agree, lie between 0 and the attempts made, and are 0 only while no
    attempt has been crowned. *)
Definition champion_inv (bd : BeatData) (hi : Z) (c : Champion) : Prop :=
  champion_seed c = champion_attempts c
  /\ 0 <= champion_attempts c <= hi
  /\ (champion_attempts c = 0 -> champion_events c = None)
  /\ forall evs, champion_events c = Some evs ->
       Forall (generated_event bd) evs.

(** A random source that replays no draws: every draw is 0. *)
Definition no_draws (seed : Z) : list Q := [].

(** Eight section energies, one loud section among quiet ones. *)
Definition loud_first_section : list Q := [1; 0; 0; 0; 0; 0; 0; 0]%Q.

(** Lane counters of an even course. *)
Definition even_counts : list Z := [3; 3; 3; 3].

(** [BOUNCE[event_index % len(BOUNCE)]] *)
Definition bounce_lane (event_index : Z) : Z :=
  nth (Z.to_nat (event_index mod Z.of_nat (length BOUNCE))) BOUNCE 0.

(** A beat map with two playable beats in the last section, the second on
    the one loud second of the track. *)
Definition late_beats_map : BeatData :=
  mkBeatData 1000 22 120 [18.5; 19]%Q [] [] []
    [0; 0; 0; 0; 0; 0; 0; 0; 0; 0; 0; 0; 0; 0; 0; 0; 0; 0; 0; 255; 0; 0]
    None.

(** What [generate_events] makes of it on the hard preset when every draw
    is 0: a pickup on the first beat, a wall of three on the second. *)
Definition late_beats_events : list CourseEvent :=
  [mkEvent (py_round3 18.5) 0 "pickup_shield" None;
   mkEvent (py_round3 19) 0 "crash" None;
   mkEvent (py_round3 19) 1 "crash" None;
   mkEvent (py_round3 19) 2 "crash" None].

(** ** The validator, with the lane-change count left open

    [max_lane_change = int(time_gap / LANE_CROSS_TIME_S)] is the one
    expression of [validate_paths] whose value depends on how the floats
    round: for groups at 4.2 s and 4.5 s the doubles give
    [int(0.9999999999999994) = 0], the exact quotient is 1.  The definitions
    below are [validate_group], [validate_groups] and [validate_paths] again,
    with [crossings prev_time group_time] in the place of that expression,
    so that a statement can hold for every way of rounding it. *)
Definition validate_group_with (crossings : Q -> Q -> Z)
    (params : DifficultyParams) (prev : option TimeGroup)
    (g : TimeGroup) (cull : Z) : list CourseEvent * Z :=
  let '(group_time, group_events) := g in
  let pickup_events := filter is_pickup group_events in
  let obstacle_events := filter is_obstacle group_events in
  let blocked_lanes := blocked_lanes_of obstacle_events in
  let '(robs1, blocked1, cull1) :=
    enforce_min_safe (min_safe_lanes params) (rev obstacle_events)
                     blocked_lanes cull in
  let '(robs2, cull2) :=
    match prev with
    | None => (robs1, cull1)
    | Some (prev_time, prev_events) =>
        let max_lane_change := crossings prev_time group_time in
        let prev_blocked := blocked_lanes_of (filter is_obstacle prev_events) in
        let prev_safe := safe_lanes_of prev_blocked in
        if reachable prev_safe (safe_lanes_of blocked1) max_lane_change
        then (robs1, cull1)
        else let '(r, _, c) :=
               restore_reachability prev_safe max_lane_change robs1 blocked1 cull1
             in (r, c)
    end in
  (rev robs2 ++ pickup_events, cull2).

Fixpoint validate_groups_with (crossings : Q -> Q -> Z)
    (params : DifficultyParams) (prev : option TimeGroup)
    (gs : list TimeGroup) (validated : list CourseEvent) (cull : Z)
    : list CourseEvent * Z :=
  match gs with
  | [] => (validated, cull)
  | g :: rest =>
      let '(kept, cull') := validate_group_with crossings params prev g cull in
      validate_groups_with crossings params (Some g) rest (validated ++ kept) cull'
  end.

Definition validate_paths_with (crossings : Q -> Q -> Z)
    (events : list CourseEvent) (params : DifficultyParams)
    : list CourseEvent * Z :=
  match events with
  | [] => (events, 0)
  | _ =>
      let '(validated, cull_count) :=
        validate_groups_with crossings params None (time_groups events) [] 0 in
      (sort_by_t validated, cull_count)
  end.

(** The count in exact arithmetic, the one of [validate_group]. *)
Definition exact_crossings (prev_time group_time : Q) : Z :=
  py_int ((group_time - prev_time) / LANE_CROSS_TIME_S).

(** A count that depends on the two times only, not on how the rationals
    are written. *)
Definition respects_times (crossings : Q -> Q -> Z) : Prop :=
  forall a a' b b', (a == a')%Q -> (b == b')%Q -> crossings a b = crossings a' b'.

(** Reachability of consecutive time groups within the lane changes that
    [crossings] counts between them. *)
Definition pair_reachable_with (crossings : Q -> Q -> Z) (g1 g2 : TimeGroup)
    : bool :=
  reachable (safe_lanes_of (group_blocked g1)) (safe_lanes_of (group_blocked g2))
            (crossings (fst g1) (fst g2)).

Fixpoint consecutive_reachable_with (crossings : Q -> Q -> Z)
    (gs : list TimeGroup) : bool :=
  match gs with
  | g1 :: ((g2 :: _) as rest) =>
      pair_reachable_with crossings g1 g2
      && consecutive_reachable_with crossings rest
  | _ => true
  end.

Definition reachability_invariant_with (crossings : Q -> Q -> Z)
    (events : list CourseEvent) : bool :=
  consecutive_reachable_with crossings (time_groups events).

(** Successive time groups at least one lane change apart, as [crossings]
    counts. *)
Fixpoint lane_change_apart (crossings : Q -> Q -> Z) (gs : list TimeGroup)
    : Prop :=
  match gs with
  | g1 :: ((g2 :: _) as rest) =>
      1 <= crossings (fst g1) (fst g2) /\ lane_change_apart crossings rest
  | _ => True
  end.

(** Clustered input whose time groups each leave some lane free and lie
    at least one lane change apart. *)
Definition paced (crossings : Q -> Q -> Z) (events : list CourseEvent) : Prop :=
  clustered events
  /\ Forall (fun g => safe_lanes_of (group_blocked g) <> []) (time_groups events)
  /\ lane_change_apart crossings (time_groups events).

(** What the validator keeps of each group, each group checked against
    the group before it as the grouping made it. *)
Fixpoint kept_chain (crossings : Q -> Q -> Z) (params : DifficultyParams)
    (prev : option TimeGroup) (gs : list TimeGroup)
    (ks : list (list CourseEvent)) : Prop :=
  match gs, ks with
  | [], [] => True
  | g :: gs', k :: ks' =>
      (exists c0, k = fst (validate_group_with crossings params prev g c0))
      /\ kept_chain crossings params (Some g) gs' ks'
  | _, _ => False
  end.

(** A wall in lanes 1, 2, 3 at 4.2 s and a crash in lane 0 at 4.5 s. *)
Definition wall_then_crash : list CourseEvent :=
  [obstacle 4.2 1 "crash"; obstacle 4.2 2 "crash"; obstacle 4.2 3 "crash";
   obstacle 4.5 0 "crash"].

(** Every time group of the input is still there in the output, with some
    of its events and at its time. *)
Definition groups_survive (before after : list TimeGroup) : Prop :=
  Forall2 (fun g g' => snd g' <> [] /\ incl (snd g') (snd g)
                       /\ (fst g' == fst g)%Q) before after.

(** The time of the first event of a list. *)
Definition first_time (l : list CourseEvent) : Q :=
  match l with
  | [] => 0%Q
  | e :: _ => t e
  end.

(** Two walls that share only blocked lanes: lanes 1, 2, 3, then
    lanes 0, 1, 2 half a second later. *)
Definition facing_walls : list CourseEvent :=
  [obstacle 2 1 "crash"; obstacle 2 2 "crash"; obstacle 2 3 "crash";
   obstacle 2.5 0 "crash"; obstacle 2.5 1 "crash"; obstacle 2.5 2 "crash"].

(** A group of paced input: some events, one time stamp, obstacles in
    distinct lanes, a lane left free. *)
Definition paced_group (g : TimeGroup) : Prop :=
  snd g <> []
  /\ Forall (fun e => (t e == fst g)%Q) (snd g)
  /\ NoDup (map lane (filter is_obstacle (snd g)))
  /\ safe_lanes_of (group_blocked g) <> [].

(** ** Predicates of the statements *)

(** Nondecreasing time order. *)
Definition le_t (a b : CourseEvent) : Prop := (t a <= t b)%Q.

(** The events of a list of time groups, in order. *)
Definition flatten (gs : list TimeGroup) : list CourseEvent :=
  concat (map snd gs).

Definition in_score_range (x : R) : Prop := (0 <= x <= 10)%R.

Definition scores_in_range (s : ScoreBreakdown) : Prop :=
  in_score_range (beat_sync s) /\ in_score_range (flow s)
  /\ in_score_range (difficulty_curve s) /\ in_score_range (type_variety s)
  /\ in_score_range (lane_coverage s) /\ in_score_range (energy_match s)
  /\ in_score_range (cull_rate s) /\ in_score_range (total s).

(** The sum of the values of the [type_counts] dict. *)
Definition count_sum (counts : list (string * nat)) : nat :=
  fold_right (fun kc acc => (snd kc + acc)%nat) 0%nat counts.

(** The champion's seed is the seed of one of the attempts made. *)
Definition seed_in_range (hi : Z) (champion : Champion) : Prop :=
  champion_events champion = None \/ 1 <= champion_seed champion <= hi.

(** [r] is [x] rounded to two decimals: within half a hundredth of it, and
    a score between 0 and 10 if [x] is one. *)
Definition rounds_to (r x : R) : Prop :=
  (Rabs (r - x) <= 0.005)%R /\ (in_score_range x -> in_score_range r).

(** A score report whose eight numbers are scores between 0 and 10. *)
Definition report_in_range (r : ScoreReport) : Prop :=
  in_score_range (report_total r) /\ in_score_range (report_beat_sync r)
  /\ in_score_range (report_flow r)
  /\ in_score_range (report_difficulty_curve r)
  /\ in_score_range (report_type_variety r)
  /\ in_score_range (report_lane_coverage r)
  /\ in_score_range (report_energy_match r)
  /\ in_score_range (report_cull_rate r).

(** * Properties *)

(** ** Sorting *)

Lemma insert_by_t_perm e l : Permutation (e :: l) (insert_by_t e l).
Proof.
  induction l as [|y l IH]; simpl.
  - apply Permutation_refl.
  - destruct (Qle_bool (t e) (t y)).
    + apply Permutation_refl.
    + eapply perm_trans; [apply perm_swap|]. now apply perm_skip.
Qed.

Lemma sort_by_t_perm l : Permutation l (sort_by_t l).
Proof.
  induction l as [|e l IH]; simpl.
  - constructor.
  - eapply perm_trans; [apply perm_skip, IH|]. apply insert_by_t_perm.
Qed.

Lemma insert_by_t_hdrel a e l :
  le_t a e -> HdRel le_t a l -> HdRel le_t a (insert_by_t e l).
Proof.
  intros Hae Hal. destruct l as [|y l]; simpl.
  - now constructor.
  - destruct (Qle_bool (t e) (t y)); constructor; trivial.
    now inversion Hal.
Qed.

Lemma insert_by_t_sorted e l : Sorted le_t l -> Sorted le_t (insert_by_t e l).
Proof.
  induction 1 as [|y l Hs IH Hhd]; simpl.
  - repeat constructor.
  - destruct (Qle_bool (t e) (t y)) eqn:Hle.
    + constructor; [now constructor|]. constructor.
      now apply Qle_bool_iff.
    + constructor; trivial. apply insert_by_t_hdrel; trivial.
      unfold le_t. apply Qlt_le_weak, Qnot_le_lt. intro H.
      apply Qle_bool_iff in H. congruence.
Qed.

Lemma sort_by_t_sorted l : Sorted le_t (sort_by_t l).
Proof.
  induction l; simpl; [constructor | now apply insert_by_t_sorted].
Qed.

Lemma filter_perm {A} (f : A -> bool) l l' :
  Permutation l l' -> Permutation (filter f l) (filter f l').
Proof.
  induction 1; simpl.
  - constructor.
  - destruct (f x); [now constructor | trivial].
  - destruct (f x), (f y); try apply Permutation_refl. apply perm_swap.
  - eapply perm_trans; eassumption.
Qed.

(** ** Grouping keeps every event, in order *)

Lemma flatten_app gs gs' : flatten (gs ++ gs') = flatten gs ++ flatten gs'.
Proof. unfold flatten. now rewrite map_app, concat_app. Qed.

Lemma flatten_flush ct cur acc :
  flatten (flush_group ct cur acc) = flatten acc ++ cur.
Proof.
  destruct cur; simpl.
  - now rewrite app_nil_r.
  - rewrite flatten_app. unfold flatten at 2. simpl. now rewrite app_nil_r.
Qed.

Lemma flatten_group_loop es : forall ct cur acc,
  flatten (group_loop es ct cur acc) = flatten acc ++ cur ++ es.
Proof.
  induction es as [|e es IH]; intros ct cur acc; simpl.
  - now rewrite flatten_flush, app_nil_r.
  - destruct (Qltb _ _); rewrite IH.
    + now rewrite <- app_assoc.
    + rewrite flatten_flush. now rewrite <- app_assoc.
Qed.

Lemma flatten_time_groups events : flatten (time_groups events) = sort_by_t events.
Proof. unfold time_groups. now rewrite flatten_group_loop. Qed.

(** ** The culling loops pop from the tail and count what they pop *)

Lemma enforce_min_safe_pops m robs : forall blocked cull r b c,
  enforce_min_safe m robs blocked cull = (r, b, c) ->
  exists k, r = skipn k robs /\ c = cull + Z.of_nat k /\ (k <= length robs)%nat.
Proof.
  induction robs as [|e robs IH]; simpl; intros blocked cull r b c H.
  - inversion H; subst. exists 0%nat. simpl. repeat split; lia.
  - destruct (safe_count blocked <? m).
    + apply IH in H. destruct H as (k & -> & -> & Hk).
      exists (S k). simpl. repeat split; lia.
    + inversion H; subst. exists 0%nat. simpl. repeat split; lia.
Qed.

Lemma restore_reachability_pops ps mlc robs : forall blocked cull r b c,
  restore_reachability ps mlc robs blocked cull = (r, b, c) ->
  exists k, r = skipn k robs /\ c = cull + Z.of_nat k /\ (k <= length robs)%nat.
Proof.
  induction robs as [|e robs IH]; simpl; intros blocked cull r b c H.
  - inversion H; subst. exists 0%nat. simpl. repeat split; lia.
  - destruct (reachable _ _ _).
    + inversion H; subst. exists 1%nat. simpl. repeat split; lia.
    + apply IH in H. destruct H as (k & -> & -> & Hk).
      exists (S k). simpl. repeat split; lia.
Qed.

(** What one group keeps: its pickups, and its obstacles but the last [k],
    which are the culls it adds. *)
Lemma validate_group_keeps params prev g cull kept cull' :
  validate_group params prev g cull = (kept, cull') ->
  exists k,
    kept = rev (skipn k (rev (filter is_obstacle (snd g))))
             ++ filter is_pickup (snd g)
    /\ cull' = cull + Z.of_nat k
    /\ (k <= length (filter is_obstacle (snd g)))%nat.
Proof.
  destruct g as [gt ge]. unfold validate_group. simpl snd.
  destruct (enforce_min_safe _ _ _ _) as [[r1 b1] c1] eqn:E1.
  apply enforce_min_safe_pops in E1. destruct E1 as (k1 & -> & -> & Hk1).
  rewrite length_rev in Hk1.
  destruct prev as [[pt pe]|].
  - destruct (reachable _ _ _).
    + intros H; inversion H; subst. now exists k1.
    + destruct (restore_reachability _ _ _ _ _) as [[r2 b2] c2] eqn:E2.
      apply restore_reachability_pops in E2. destruct E2 as (k2 & -> & -> & Hk2).
      intros H; inversion H; subst.
      rewrite length_skipn, length_rev in Hk2.
      exists (k1 + k2)%nat. rewrite skipn_skipn, (Nat.add_comm k2 k1).
      repeat split; lia.
  - intros H; inversion H; subst. now exists k1.
Qed.

Lemma filter_partition_length {A} (f : A -> bool) l :
  (length (filter f l) + length (filter (fun x => negb (f x)) l) = length l)%nat.
Proof.
  induction l as [|x l IH]; simpl; trivial.
  destruct (f x); simpl; lia.
Qed.

Lemma filter_pickup_obstacles l :
  Forall (fun e => is_obstacle e = true) l -> filter is_pickup l = [].
Proof.
  induction 1 as [|e l He _ IH]; simpl; trivial.
  unfold is_obstacle in He. destruct (is_pickup e); [discriminate | exact IH].
Qed.

Lemma Forall_skipn {A} (P : A -> Prop) k l : Forall P l -> Forall P (skipn k l).
Proof.
  revert l. induction k as [|k IH]; intros l H; simpl; trivial.
  destruct l; [constructor | apply IH; now inversion H].
Qed.

Lemma incl_skipn {A} k (l : list A) : incl (skipn k l) l.
Proof.
  revert l. induction k as [|k IH]; intros l; simpl.
  - apply incl_refl.
  - destruct l; [apply incl_refl | apply incl_tl, IH].
Qed.

Lemma obstacles_of_group l :
  Forall (fun e => is_obstacle e = true) (filter is_obstacle l).
Proof. apply Forall_forall. intros e He. now apply filter_In in He. Qed.

Lemma validate_group_facts params prev g cull kept cull' :
  validate_group params prev g cull = (kept, cull') ->
  Z.of_nat (length kept) + cull' = cull + Z.of_nat (length (snd g))
  /\ filter is_pickup kept = filter is_pickup (snd g)
  /\ incl kept (snd g).
Proof.
  assert (Hidem : forall l, filter is_pickup (filter is_pickup l) = filter is_pickup l).
  { induction l as [|e l IH]; simpl; trivial.
    destruct (is_pickup e) eqn:He; simpl; [rewrite He, IH|]; trivial. }
  intros H. apply validate_group_keeps in H.
  destruct H as (k & -> & -> & Hk). repeat split.
  - rewrite length_app, length_rev, length_skipn, length_rev.
    pose proof (filter_partition_length is_pickup (snd g)) as Hp.
    fold is_obstacle in Hp. change (fun x => negb (is_pickup x)) with is_obstacle in Hp.
    lia.
  - rewrite filter_app, filter_pickup_obstacles.
    + apply Hidem.
    + apply Forall_rev, Forall_skipn, Forall_rev, obstacles_of_group.
  - apply incl_app.
    + intros e He. apply in_rev in He. apply incl_skipn in He.
      apply in_rev in He. now apply filter_In in He.
    + intros e He. now apply filter_In in He.
Qed.

Lemma validate_groups_facts params gs : forall prev validated cull v' c',
  validate_groups params prev gs validated cull = (v', c') ->
  Z.of_nat (length v') + c'
    = Z.of_nat (length validated) + cull + Z.of_nat (length (flatten gs))
  /\ filter is_pickup v' = filter is_pickup validated ++ filter is_pickup (flatten gs)
  /\ incl v' (validated ++ flatten gs).
Proof.
  induction gs as [|g gs IH]; simpl; intros prev validated cull v' c' H.
  - inversion H; subst. unfold flatten; simpl.
    rewrite !app_nil_r. repeat split; [lia | apply incl_refl].
  - destruct (validate_group params prev g cull) as [kept cull1] eqn:Eg.
    apply validate_group_facts in Eg. destruct Eg as (Hlen & Hpk & Hin).
    apply IH in H. destruct H as (Hlen' & Hpk' & Hin').
    unfold flatten in *. simpl. repeat split.
    + rewrite Hlen'. rewrite !length_app. lia.
    + rewrite Hpk', !filter_app, Hpk. now rewrite app_assoc.
    + intros e He. apply Hin' in He. rewrite app_assoc.
      apply in_app_or in He. apply in_or_app. destruct He as [He|He]; [left | now right].
      apply in_app_or in He. apply in_or_app. destruct He as [He|He]; [now left | right].
      now apply Hin.
Qed.

(** ** C10 *)

(** C10.  [validate_paths] returns a list and a cull count that together
    account for every input event; the pickups of the output are those of
    the input (as multisets), every output event is an input event, and the
    output is in nondecreasing time order. *)
Theorem validate_paths_accounting (events : list CourseEvent)
    (params : DifficultyParams) :
  let validated := fst (validate_paths events params) in
  let cull_count := snd (validate_paths events params) in
  Z.of_nat (length validated) + cull_count = Z.of_nat (length events)
  /\ Permutation (filter is_pickup events) (filter is_pickup validated)
  /\ (forall e, In e events -> is_pickup e = true -> In e validated)
  /\ incl validated events
  /\ Sorted le_t validated.
Proof.
  assert (Hmain :
    Z.of_nat (length (fst (validate_paths events params)))
      + snd (validate_paths events params) = Z.of_nat (length events)
    /\ Permutation (filter is_pickup events)
                   (filter is_pickup (fst (validate_paths events params)))
    /\ incl (fst (validate_paths events params)) events
    /\ Sorted le_t (fst (validate_paths events params))).
  { unfold validate_paths. destruct events as [|e0 es] eqn:Eev.
    - simpl. repeat split; try constructor. apply incl_refl.
    - rewrite <- Eev. clear Eev e0 es.
      destruct (validate_groups params None (time_groups events) [] 0)
        as [validated cull] eqn:E.
      apply validate_groups_facts in E. destruct E as (Hlen & Hpk & Hin).
      rewrite flatten_time_groups in Hlen, Hpk, Hin. simpl in *.
      repeat split.
      + rewrite <- (Permutation_length (sort_by_t_perm validated)), Hlen.
        now rewrite <- (Permutation_length (sort_by_t_perm events)).
      + eapply perm_trans; [apply filter_perm, sort_by_t_perm|].
        rewrite <- Hpk. apply filter_perm, sort_by_t_perm.
      + intros e He.
        apply (Permutation_in _ (Permutation_sym (sort_by_t_perm validated))) in He.
        apply Hin in He.
        now apply (Permutation_in _ (Permutation_sym (sort_by_t_perm events))) in He.
      + apply sort_by_t_sorted. }
  destruct Hmain as (Hlen & Hpk & Hin & Hs). cbv zeta.
  repeat split; trivial.
  intros e He Hp.
  assert (Hf : In e (filter is_pickup events)) by (apply filter_In; now split).
  apply (Permutation_in _ Hpk) in Hf. now apply filter_In in Hf.
Qed.


(** ** C1, C2: the validator on groups it does not repair *)

(** C1.  On three simultaneous obstacles in lanes 0, 1 and 1 and the easy
    preset ([min_safe_lanes = 3]), [validate_paths] culls one obstacle and
    returns a single time group that still blocks lanes 0 and 1: it leaves
    two safe lanes, fewer than [min_safe_lanes]. *)
Theorem validate_paths_leaves_unsafe_group :
  validate_paths crowded_group preset_easy
    = ([obstacle 1 0 "crash"; obstacle 1 1 "crash"], 1)
  /\ time_groups (fst (validate_paths crowded_group preset_easy))
    = [(1%Q, [obstacle 1 0 "crash"; obstacle 1 1 "crash"])]
  /\ group_blocked (1%Q, [obstacle 1 0 "crash"; obstacle 1 1 "crash"]) = [0; 1]
  /\ safety_invariant (min_safe_lanes preset_easy)
       (fst (validate_paths crowded_group preset_easy)) = false.
Proof. repeat split; reflexivity. Qed.


(** C2.  Two event lists on which [validate_paths], with the hard preset
    ([min_safe_lanes = 1]), returns consecutive time groups of which the
    later is not reachable from the earlier.  Both start with a wall in
    lanes 1, 2, 3 at 1 s, whose only safe lane is 0.

    In the first, two obstacles in lane 0 follow in one group at 1.125 s.
    The validator pops one, discards lane 0 from its set of blocked lanes,
    finds the group reachable and keeps the other obstacle: the returned
    groups, 0.125 s apart (no lane change is possible), have the safe lanes
    [{0}] and [{1, 2, 3}].

    In the second, single obstacles in lane 0 follow at 1.125 s and at
    1.25 s.  The validator culls the first and checks the second against
    it: the returned groups, 0.25 s apart (no lane change either), have the
    safe lanes [{0}] and [{1, 2, 3}]. *)
Theorem validate_paths_leaves_unreachable_group :
  (validate_paths wall_then_double_lane0 preset_hard
     = ([obstacle 1 1 "crash"; obstacle 1 2 "crash"; obstacle 1 3 "car";
         obstacle 1.125 0 "crash"], 1)
   /\ map fst (time_groups (fst (validate_paths wall_then_double_lane0
                                                preset_hard)))
     = [1%Q; 1.125%Q]
   /\ map (fun g => safe_lanes_of (group_blocked g))
          (time_groups (fst (validate_paths wall_then_double_lane0
                                            preset_hard)))
     = [[0]; [3; 2; 1]]
   /\ Qfloor ((1.125 - 1) / LANE_CROSS_TIME_S) = 0
   /\ reachability_invariant
        (fst (validate_paths wall_then_double_lane0 preset_hard)) = false)
  /\
  (validate_paths wall_then_lane0 preset_hard
     = ([obstacle 1 1 "crash"; obstacle 1 2 "crash"; obstacle 1 3 "car";
         obstacle 1.25 0 "crash"], 1)
   /\ map fst (time_groups (fst (validate_paths wall_then_lane0 preset_hard)))
     = [1%Q; 1.25%Q]
   /\ map (fun g => safe_lanes_of (group_blocked g))
          (time_groups (fst (validate_paths wall_then_lane0 preset_hard)))
     = [[0]; [3; 2; 1]]
   /\ Qfloor ((1.25 - 1) / LANE_CROSS_TIME_S) = 0
   /\ reachability_invariant (fst (validate_paths wall_then_lane0 preset_hard))
     = false).
Proof. repeat split; reflexivity. Qed.

(** ** [sample_at] by position of the index *)

Lemma py_int_nonneg x : (0 <= x)%Q -> py_int x = Qfloor x.
Proof.
  intros Hx. unfold py_int. apply Qle_bool_iff in Hx. now rewrite Hx.
Qed.

Lemma py_int_neg x : (x < 0)%Q -> py_int x = Qceiling x.
Proof.
  intros Hx. unfold py_int.
  destruct (Qle_bool 0 x) eqn:H0; trivial.
  apply Qle_bool_iff in H0. exfalso. eapply Qlt_irrefl, Qle_lt_trans; eassumption.
Qed.

(** Between -1 and 0 the index truncates to 0. *)
Lemma py_int_small_negative x : (-1 < x)%Q -> (x < 0)%Q -> py_int x = 0.
Proof.
  intros Hlo Hhi. rewrite py_int_neg by trivial.
  pose proof (Qle_ceiling x) as Hc. pose proof (Qceiling_lt x) as Hc'.
  assert (H1 : (inject_Z (-1) < inject_Z (Qceiling x))%Q)
    by (eapply Qlt_le_trans; eassumption).
  assert (H2 : (inject_Z (Qceiling x - 1) < inject_Z 0)%Q)
    by (eapply Qlt_trans; eassumption).
  rewrite <- Zlt_Qlt in H1, H2. lia.
Qed.

(** What [sample_at] returns on a non-empty signal, by the index
    [idx = time_s * 1000 / resolution_ms]: the first sample up to -1, the
    last sample from [len - 1] on, the interpolation in between from 0 on,
    and, for an index strictly between -1 and 0, the line through the first
    two samples continued to the left. *)
Lemma sample_at_by_index (arr : list Z) (time_s : Q) (res_ms : Z) :
  arr <> [] -> res_ms <> 0 ->
  let idx := (time_s * 1000 / inject_Z res_ms)%Q in
  let n := Z.of_nat (length arr) in
  ((idx <= -1)%Q -> sample_at arr time_s res_ms = Some (sample arr 0 / 255)%Q)
  /\ ((inject_Z (n - 1) <= idx)%Q ->
      sample_at arr time_s res_ms = Some (last_sample arr / 255)%Q)
  /\ ((0 <= idx)%Q -> (idx < inject_Z (n - 1))%Q ->
      sample_at arr time_s res_ms
        = Some ((sample arr (Qfloor idx) * (1 - (idx - inject_Z (Qfloor idx)))
                 + sample arr (Qfloor idx + 1) * (idx - inject_Z (Qfloor idx)))
                / 255)%Q)
  /\ ((-1 < idx)%Q -> (idx < 0)%Q -> 1 < n ->
      sample_at arr time_s res_ms
        = Some ((sample arr 0 * (1 - (idx - inject_Z 0))
                 + sample arr (0 + 1) * (idx - inject_Z 0)) / 255)%Q).
Proof.
  intros Hne Hres idx n.
  assert (Hn : 1 <= n) by (subst n; destruct arr; [congruence | simpl; lia]).
  assert (Hunf : sample_at arr time_s res_ms =
    (let i0 := py_int idx in
     if i0 <? 0 then Some (sample arr 0 / 255)%Q
     else if n - 1 <=? i0 then Some (last_sample arr / 255)%Q
     else Some ((sample arr i0 * (1 - (idx - inject_Z i0))
                 + sample arr (i0 + 1) * (idx - inject_Z i0)) / 255)%Q)).
  { unfold sample_at. destruct arr; [congruence|].
    apply Z.eqb_neq in Hres. now rewrite Hres. }
  rewrite Hunf. cbv zeta. repeat split.
  - intros Hidx.
    assert (Hneg : (idx < 0)%Q) by (eapply Qle_lt_trans; [eassumption | reflexivity]).
    rewrite py_int_neg by trivial.
    pose proof (Qceiling_resp_le _ _ Hidx) as Hc.
    change (-1)%Q with (inject_Z (-1)) in Hc. rewrite Qceiling_Z in Hc.
    destruct (Qceiling idx <? 0) eqn:E; trivial. apply Z.ltb_ge in E. lia.
  - intros Hidx.
    assert (Hpos : (0 <= idx)%Q).
    { eapply Qle_trans; [|eassumption].
      change 0%Q with (inject_Z 0). rewrite <- Zle_Qle. lia. }
    rewrite py_int_nonneg by trivial.
    pose proof (Qfloor_resp_le _ _ Hidx) as Hf. rewrite Qfloor_Z in Hf.
    destruct (Qfloor idx <? 0) eqn:E; [apply Z.ltb_lt in E; lia|].
    destruct (n - 1 <=? Qfloor idx) eqn:E'; trivial. apply Z.leb_gt in E'. lia.
  - intros Hpos Hidx.
    rewrite py_int_nonneg by trivial.
    pose proof (Qfloor_resp_le _ _ Hpos) as Hf.
    change 0%Q with (inject_Z 0) in Hf. rewrite Qfloor_Z in Hf.
    pose proof (Qfloor_le idx) as Hfl.
    assert (Hlt : (inject_Z (Qfloor idx) < inject_Z (n - 1))%Q)
      by (eapply Qle_lt_trans; eassumption).
    rewrite <- Zlt_Qlt in Hlt.
    destruct (Qfloor idx <? 0) eqn:E; [apply Z.ltb_lt in E; lia|].
    destruct (n - 1 <=? Qfloor idx) eqn:E'; trivial. apply Z.leb_le in E'. lia.
  - intros Hlo Hhi Hn2.
    rewrite py_int_small_negative by trivial.
    destruct (n - 1 <=? 0) eqn:E'; trivial. apply Z.leb_le in E'. lia.
Qed.

(** ** C9: [sample_at] just before the first sample *)

(** C9.  On the signal [step_signal = [0, 255]] sampled every second, [sample_at] at
    [t = -0.5] returns [-0.5]: [int] truncates the index [-0.5] to [0], the
    test [i0 < 0] fails, and the interpolation runs with a negative
    fraction.  The value is neither the first sample ([0]) nor in [0, 1]. *)
Theorem sample_at_extrapolates_before_first_sample :
  exists v,
    sample_at step_signal (-0.5) 1000 = Some v
    /\ (v == -0.5)%Q
    /\ ~ (v == sample step_signal 0 / 255)%Q
    /\ (v < 0)%Q.
Proof.
  eexists. split; [reflexivity|].
  split; [reflexivity|]. split; [|reflexivity].
  intro Heq. discriminate Heq.
Qed.

(** ** C8: the energy factor of a section quota *)

(** C8.  On a track with a candidate beat whose energy is full at the
    midpoint of the first section and zero at the seven other midpoints,
    the mean section energy is 1/8 and the first section gets
    [energy_scale = 0.7 + 0.6 * (1 / 0.25) = 3.1], outside [0.7, 1.3]. *)
Theorem energy_scale_exceeds_bound :
  exists se,
    candidate_beats one_loud_section preset_normal = Some [5%Q]
    /\ section_energies one_loud_section = Some se
    /\ (avg_section_energy se == 1 # 8)%Q
    /\ (energy_scale se 0 == 3.1)%Q
    /\ (1.3 < energy_scale se 0)%Q.
Proof.
  eexists. split; [reflexivity|]. split; [reflexivity|].
  split; [reflexivity|]. split; reflexivity.
Qed.

(** ** C7: scenario C of the car-crash post-processing *)

(** C7.  With one beat at 8 s and one car at 10 s in lane 2, whenever the
    draw does not exceed [car_crash_prob], [add_car_crash_beats] adds one
    [car_crash_beat] event at [t = 8.0] in lane 2 whose lead is
    [(2040 - (200 + 350 * 2)) / 1000 = 1.14]. *)
Theorem car_crash_beat_scenario_c {Rng : Type} `{RandomSource Rng}
    (rng : Rng) (bd : BeatData) :
  beats bd = [8%Q] ->
  (fst (rng_random rng) <= 0.35)%Q ->
  fst (add_car_crash_beats scenario_c_events bd rng 0.35)
    = [mkEvent 8.000 2 "car_crash_beat" (Some 1.140%Q); obstacle 10 2 "car"]
  /\ (1.140 == (2040 - (200 + 350 * 2)) / 1000)%Q.
Proof.
  intros Hb Hu. split; [|reflexivity].
  unfold add_car_crash_beats. rewrite Hb.
  change (filter (fun e => String.eqb (type e) "car") scenario_c_events)
    with scenario_c_events.
  unfold scenario_c_events at 1. unfold car_crash_loop.
  destruct (rng_random rng) as [u rng1]. simpl in Hu.
  assert (Hno : Qltb 0.35 u = false).
  { unfold Qltb. apply negb_false_iff. now apply Qle_bool_iff. }
  rewrite Hno. reflexivity.
Qed.

Lemma car_crash_beat_scenario_c_witness :
  fst (add_car_crash_beats scenario_c_events scenario_c_beats [0.2%Q] 0.35)
    = [mkEvent 8.000 2 "car_crash_beat" (Some 1.140%Q); obstacle 10 2 "car"]
  /\ (1.140 == (2040 - (200 + 350 * 2)) / 1000)%Q.
Proof.
  apply (car_crash_beat_scenario_c (H := replay_source) [0.2%Q] scenario_c_beats).
  - reflexivity.
  - simpl. discriminate.
Defined.

(** The lead of the emitted event is not 1.29. *)
Lemma scenario_c_lead_differs :
  exists e l,
    In e (fst (add_car_crash_beats scenario_c_events scenario_c_beats
                                   [0.2%Q] 0.35))
    /\ type e = "car_crash_beat"
    /\ (t e == 8)%Q /\ lane e = 2
    /\ lead e = Some l /\ ~ (l == 1.29)%Q.
Proof.
  exists (mkEvent 8.000 2 "car_crash_beat" (Some 1.140%Q)), 1.140%Q.
  split; [left; reflexivity|].
  repeat split. intro Heq. discriminate Heq.
Qed.

(** ** The bisection of [find_nearest_beat] ends within [hi - lo] turns *)

Lemma bisect_loop_fuel bts tm : forall fuel fuel' lo hi,
  (hi - lo <= fuel)%nat -> (hi - lo <= fuel')%nat ->
  bisect_loop fuel bts tm lo hi = bisect_loop fuel' bts tm lo hi.
Proof.
  induction fuel as [|fuel IH]; intros fuel' lo hi Hf Hf'.
  - destruct fuel'; cbn [bisect_loop]; trivial.
    destruct (lo <? hi)%nat eqn:Hlt; trivial.
    apply Nat.ltb_lt in Hlt. lia.
  - destruct fuel' as [|fuel']; cbn [bisect_loop].
    + destruct (lo <? hi)%nat eqn:Hlt; trivial.
      apply Nat.ltb_lt in Hlt. lia.
    + destruct (lo <? hi)%nat eqn:Hlt; trivial.
      apply Nat.ltb_lt in Hlt.
      assert (Hmid : (lo <= (lo + hi) / 2 < hi)%nat).
      { split.
        - apply Nat.div_le_lower_bound; lia.
        - apply Nat.Div0.div_lt_upper_bound; lia. }
      destruct (Qltb _ _); apply IH; lia.
Qed.

(** Past the loop, [lo] is a valid index: the search returns there. *)
Lemma bisect_loop_bounds bts tm : forall fuel lo hi,
  (lo <= hi)%nat ->
  (lo <= bisect_loop fuel bts tm lo hi <= hi)%nat.
Proof.
  induction fuel as [|fuel IH]; intros lo hi Hle; cbn [bisect_loop]; [lia|].
  destruct (lo <? hi)%nat eqn:Hlt; [|lia].
  apply Nat.ltb_lt in Hlt.
  assert (Hmid : (lo <= (lo + hi) / 2 < hi)%nat).
  { split.
    - apply Nat.div_le_lower_bound; lia.
    - apply Nat.Div0.div_lt_upper_bound; lia. }
  destruct (Qltb _ _).
  - specialize (IH (S ((lo + hi) / 2)) hi)%nat. lia.
  - specialize (IH lo ((lo + hi) / 2))%nat. lia.
Qed.

(** ** Score bounds *)

Lemma clamp_in_range x : in_score_range (Rmin 10 (Rmax 0 x)).
Proof.
  split.
  - apply Rbasic_fun.Rmin_glb; [lra | apply Rbasic_fun.Rmax_l].
  - apply Rbasic_fun.Rmin_l.
Qed.

Lemma cap_in_range x : (0 <= x)%R -> in_score_range (Rmin 10 x).
Proof.
  intros Hx. split.
  - apply Rbasic_fun.Rmin_glb; [lra | exact Hx].
  - apply Rbasic_fun.Rmin_l.
Qed.


Lemma beat_sync_in_range events bts :
  events <> [] -> in_score_range (beat_sync_score events bts).
Proof.
  intros Hne. unfold beat_sync_score. apply cap_in_range.
  assert (Hlen : (0 < INR (length events))%R).
  { apply lt_0_INR. destruct events; [congruence | simpl; lia]. }
  apply Rmult_le_pos; [|lra].
  apply Rmult_le_pos; [apply pos_INR|].
  now apply Rlt_le, Rinv_0_lt_compat.
Qed.

Lemma flow_in_range obs : in_score_range (flow_score obs).
Proof.
  unfold flow_score.
  destruct (3 <=? length obs)%nat.
  - destruct (3 <=? length (flow_groups obs))%nat.
    + apply clamp_in_range.
    + red; lra.
  - destruct (length obs <=? 2)%nat; red; lra.
Qed.

Lemma correlation_score_in_range c : in_score_range (correlation_score c).
Proof. apply clamp_in_range. Qed.

Lemma difficulty_curve_in_range obs d :
  in_score_range (difficulty_curve_score obs d).
Proof.
  unfold difficulty_curve_score.
  destruct obs; [red; lra|].
  destruct (Qltb 0 d); [|red; lra].
  destruct (0 <? _)%nat; [apply correlation_score_in_range | red; lra].
Qed.

Lemma lane_coverage_in_range counts : in_score_range (lane_coverage_score counts).
Proof.
  unfold lane_coverage_score.
  destruct (0 <? Zsum counts); [apply clamp_in_range | red; lra].
Qed.

Lemma energy_match_in_range events bd :
  in_score_range (energy_match_score events bd).
Proof.
  unfold energy_match_score.
  destruct (Qltb 0 (duration_s bd)); [|red; lra].
  destruct (2 <=? _)%nat; [apply correlation_score_in_range | red; lra].
Qed.

Lemma cull_rate_in_range c g : in_score_range (cull_rate_score c g).
Proof.
  unfold cull_rate_score.
  destruct (0 <? g); [apply clamp_in_range | red; lra].
Qed.

(** The counts of [type_counts]: each is at least one, and they add up to
    the number of events. *)

Lemma bump_inv k counts :
  Forall (fun kc => (1 <= snd kc)%nat) counts ->
  Forall (fun kc => (1 <= snd kc)%nat) (bump k counts)
  /\ count_sum (bump k counts) = S (count_sum counts).
Proof.
  induction 1 as [|[k' c] counts Hc Hall IH]; simpl.
  - split; [repeat constructor | reflexivity].
  - destruct (String.eqb k k'); simpl.
    + split; [constructor; simpl in *; trivial; lia | reflexivity].
    + destruct IH as [IH1 IH2]. split; [now constructor | rewrite IH2; lia].
Qed.

Lemma type_counts_inv events : forall init,
  Forall (fun kc => (1 <= snd kc)%nat) init ->
  let counts := fold_left (fun counts e => bump (variety_key e) counts) events init in
  Forall (fun kc => (1 <= snd kc)%nat) counts
  /\ count_sum counts = (count_sum init + length events)%nat.
Proof.
  induction events as [|e events IH]; simpl; intros init Hinit.
  - split; [trivial | lia].
  - destruct (bump_inv (variety_key e) init Hinit) as [H1 H2].
    destruct (IH _ H1) as [H3 H4]. split; [exact H3|]. rewrite H4, H2. lia.
Qed.

Lemma count_le_sum counts :
  Forall (fun kc => (snd kc <= count_sum counts)%nat) counts.
Proof.
  induction counts as [|kc counts IH]; simpl; constructor.
  - lia.
  - eapply Forall_impl; [|exact IH]. simpl. intros; lia.
Qed.

Lemma ln_2_pos : (0 < ln 2)%R.
Proof. rewrite <- ln_1. apply ln_increasing; lra. Qed.

Lemma log2_nonpos p : (0 < p <= 1)%R -> (log2 p <= 0)%R.
Proof.
  intros [Hp0 Hp1]. unfold log2.
  assert (Hln : (ln p <= 0)%R).
  { destruct Hp1 as [Hlt | ->]; [|rewrite ln_1; lra].
    rewrite <- ln_1. now apply Rlt_le, ln_increasing. }
  pose proof ln_2_pos as H2.
  apply Rmult_le_reg_r with (ln 2); trivial.
  unfold Rdiv. rewrite Rmult_assoc, Rinv_l by lra. lra.
Qed.

Lemma log2_ge_1 x : (2 <= x)%R -> (1 <= log2 x)%R.
Proof.
  intros Hx. unfold log2. pose proof ln_2_pos as H2.
  assert (Hln : (ln 2 <= ln x)%R).
  { destruct Hx as [Hlt | <-]; [|lra]. apply Rlt_le, ln_increasing; lra. }
  apply Rmult_le_reg_r with (ln 2); trivial.
  unfold Rdiv. rewrite Rmult_assoc, Rinv_l by lra. lra.
Qed.

Lemma Rsum_nonpos {A} (f : A -> R) l :
  Forall (fun x => (f x <= 0)%R) l -> (Rsum (map f l) <= 0)%R.
Proof.
  induction 1 as [|x l Hx _ IH]; simpl; lra.
Qed.

Lemma type_variety_in_range events :
  events <> [] -> in_score_range (type_variety_score events).
Proof.
  intros Hne. unfold type_variety_score.
  destruct (1 <? length (type_counts events))%nat eqn:Hnum; [|red; lra].
  apply Nat.ltb_lt in Hnum.
  apply cap_in_range.
  destruct (type_counts_inv events [] (Forall_nil _)) as [Hpos Hsum].
  fold (type_counts events) in Hpos, Hsum. simpl in Hsum.
  pose proof (count_le_sum (type_counts events)) as Hle. rewrite Hsum in Hle.
  set (n := length events) in *.
  assert (Hn : (0 < INR n)%R).
  { apply lt_0_INR. subst n. destruct events; [congruence | simpl; lia]. }
  assert (Hent : (Rsum (map (fun kc : string * nat =>
            (INR (snd kc) / INR n * log2 (INR (snd kc) / INR n))%R)
            (type_counts events)) <= 0)%R).
  { apply Rsum_nonpos. apply Forall_forall. intros kc Hin.
    rewrite Forall_forall in Hpos, Hle.
    specialize (Hpos kc Hin). specialize (Hle kc Hin). simpl in Hpos, Hle.
    assert (Hc0 : (0 < INR (snd kc))%R) by (apply lt_0_INR; lia).
    assert (Hcn : (INR (snd kc) <= INR n)%R) by (apply le_INR; lia).
    assert (Hp : (0 < INR (snd kc) / INR n <= 1)%R).
    { split.
      - apply Rdiv_lt_0_compat; trivial.
      - apply Rmult_le_reg_r with (INR n); trivial.
        unfold Rdiv. rewrite Rmult_assoc, Rinv_l by lra. lra. }
    pose proof (log2_nonpos _ Hp) as Hl.
    destruct Hp as [Hp0 _].
    assert (0 <= INR (snd kc) / INR n * - log2 (INR (snd kc) / INR n))%R
      by (apply Rmult_le_pos; lra).
    lra. }
  assert (Hmax : (1 <= log2 (INR (Nat.min (length (type_counts events)) 4)))%R).
  { apply log2_ge_1. change 2%R with (INR 2). apply le_INR. lia. }
  apply Rmult_le_pos; [|lra].
  apply Rmult_le_pos; [lra|].
  apply Rlt_le, Rinv_0_lt_compat. lra.
Qed.

Lemma weights_sum_to_one :
  (weight 0 + weight 1 + weight 2 + weight 3 + weight 4 + weight 5 + weight 6
   = 1)%R.
Proof. unfold weight, SCORE_WEIGHTS; simpl. lra. Qed.

Lemma total_in_range s :
  in_score_range (beat_sync s) -> in_score_range (flow s) ->
  in_score_range (difficulty_curve s) -> in_score_range (type_variety s) ->
  in_score_range (lane_coverage s) -> in_score_range (energy_match s) ->
  in_score_range (cull_rate s) -> in_score_range (total s).
Proof.
  unfold in_score_range, total, weight, SCORE_WEIGHTS; simpl. intros. lra.
Qed.

(** The lane counters: in range, [lane_counts[e.lane] += 1] succeeds. *)
Lemma incr_at_some i : forall counts,
  (i < length counts)%nat ->
  exists counts', incr_at i counts = Some counts'
                  /\ length counts' = length counts.
Proof.
  induction i as [|i IH]; intros [|c counts] Hi; simpl in *; try lia.
  - eexists; split; reflexivity.
  - destruct (IH counts) as (c' & -> & Hlen); [lia|].
    simpl. eexists; split; [reflexivity | simpl; lia].
Qed.

Lemma incr_lane_some counts l :
  - Z.of_nat (length counts) <= l < Z.of_nat (length counts) ->
  exists counts', incr_lane counts l = Some counts'
                  /\ length counts' = length counts.
Proof.
  intros Hl. unfold incr_lane.
  destruct (0 <=? l) eqn:H0.
  - apply incr_at_some. lia.
  - destruct (0 <=? Z.of_nat (length counts) + l) eqn:H1; [|lia].
    apply incr_at_some. lia.
Qed.

Lemma lane_counts_some events : forall counts,
  Forall (fun e => - Z.of_nat (length counts) <= lane e < Z.of_nat (length counts))
         events ->
  exists counts', lane_counts events counts = Some counts'.
Proof.
  induction events as [|e events IH]; simpl; intros counts Hall.
  - now eexists.
  - inversion Hall as [|? ? He Hrest]; subst.
    destruct (incr_lane_some counts (lane e) He) as (c' & -> & Hlen).
    apply IH. now rewrite Hlen.
Qed.

(** ** C4 *)

(** C4.  Whatever the event list, the beat map, the cull count and the
    generation count, every sub-score that [compute_scores] returns lies in
    [0, 10], and so does [total], whose weights add up to 1.  It returns
    (raises nothing) as soon as the lanes index the four lane counters and
    [resolution_ms] is not zero. *)
Theorem compute_scores_in_range (events : list CourseEvent) (bd : BeatData)
    (cull_count total_generated : Z) :
  (forall s, compute_scores events bd cull_count total_generated = Some s ->
             scores_in_range s)
  /\ (weight 0 + weight 1 + weight 2 + weight 3 + weight 4 + weight 5
      + weight 6 = 1)%R
  /\ (Forall (fun e => -4 <= lane e < 4) events -> resolution_ms bd <> 0 ->
      exists s, compute_scores events bd cull_count total_generated = Some s).
Proof.
  split; [|split; [apply weights_sum_to_one|]].
  - intros s Hs. unfold compute_scores in Hs.
    destruct events as [|e0 es] eqn:Eev.
    + inversion Hs; subst. unfold scores_in_range, total, weight, SCORE_WEIGHTS.
      simpl. unfold in_score_range. repeat split; lra.
    + rewrite <- Eev in *.
      assert (Hne : events <> []) by (rewrite Eev; discriminate).
      destruct (lane_counts events [0; 0; 0; 0]) as [counts|]; [|discriminate].
      destruct (Qltb 0 (duration_s bd) && (resolution_ms bd =? 0));
        [discriminate|].
      inversion Hs; subst s; clear Hs.
      pose proof (beat_sync_in_range events (beats bd) Hne) as H1.
      pose proof (flow_in_range (filter is_obstacle events)) as H2.
      pose proof (difficulty_curve_in_range (filter is_obstacle events)
                    (duration_s bd)) as H3.
      pose proof (type_variety_in_range events Hne) as H4.
      pose proof (lane_coverage_in_range counts) as H5.
      pose proof (energy_match_in_range events bd) as H6.
      pose proof (cull_rate_in_range cull_count total_generated) as H7.
      unfold scores_in_range; simpl.
      repeat (split; [assumption|]).
      now apply total_in_range.
  - intros Hl Hr. unfold compute_scores.
    destruct events as [|e0 es] eqn:Eev; [now eexists|].
    rewrite <- Eev in *.
    destruct (lane_counts_some events [0; 0; 0; 0] Hl) as [counts ->].
    apply Z.eqb_neq in Hr. rewrite Hr, andb_false_r. now eexists.
Qed.

Lemma compute_scores_in_range_witness :
  exists s, compute_scores wall_then_lane0 scenario_c_beats 1 5 = Some s
            /\ scores_in_range s.
Proof.
  destruct (compute_scores_in_range wall_then_lane0 scenario_c_beats 1 5)
    as (Hbounds & _ & Hreturns).
  destruct Hreturns as [s Hs].
  - repeat constructor; simpl; lia.
  - discriminate.
  - exists s. split; [exact Hs | exact (Hbounds s Hs)].
Defined.

(** ** C5: the flow score of collapsed groups *)

Lemma compute_scores_flow events bd c g s :
  compute_scores events bd c g = Some s ->
  flow s = match events with
           | [] => 0%R
           | _ => flow_score (filter is_obstacle events)
           end.
Proof.
  unfold compute_scores. destruct events as [|e0 es].
  - intros H; now inversion H.
  - destruct (lane_counts _ _); [|discriminate].
    destruct (_ && _); [discriminate|].
    intros H; now inversion H.
Qed.

(** The last branch of the flow score, [flow = 8.0], is never taken: a
    list with fewer than three obstacles has at most two. *)
Lemma flow_score_few_obstacles obs :
  (length obs < 3)%nat -> flow_score obs = 10%R.
Proof.
  intros Hlen. unfold flow_score.
  assert (H3 : (3 <=? length obs)%nat = false) by (apply Nat.leb_gt; lia).
  assert (H2 : (length obs <=? 2)%nat = true) by (apply Nat.leb_le; lia).
  now rewrite H3, H2.
Qed.

(** C5.  If an event list has three or more obstacle events that collapse
    to fewer than three time groups, [compute_scores] assigns [flow = 10]. *)
Theorem flow_of_collapsed_groups (events : list CourseEvent) (bd : BeatData)
    (cull_count total_generated : Z) (s : ScoreBreakdown) :
  compute_scores events bd cull_count total_generated = Some s ->
  (3 <= length (filter is_obstacle events))%nat ->
  (length (flow_groups (filter is_obstacle events)) < 3)%nat ->
  flow s = 10%R.
Proof.
  intros Hs Hobs Hgroups. rewrite (compute_scores_flow _ _ _ _ _ Hs).
  destruct events as [|e0 es]; [simpl in Hobs; lia|].
  unfold flow_score.
  apply Nat.leb_le in Hobs. rewrite Hobs.
  apply Nat.leb_gt in Hgroups. now rewrite Hgroups.
Qed.

Lemma flow_of_collapsed_groups_witness :
  exists s, compute_scores triple_cluster scenario_c_beats 0 3 = Some s
            /\ flow s = 10%R.
Proof.
  eexists. split; [reflexivity|].
  eapply (flow_of_collapsed_groups triple_cluster scenario_c_beats 0 3).
  - reflexivity.
  - simpl; lia.
  - simpl; lia.
Defined.

(** Three simultaneous obstacles collapse to one group and score 10, not 8. *)
Lemma collapsed_flow_is_not_8 :
  exists s, compute_scores triple_cluster scenario_c_beats 0 3 = Some s
            /\ (3 <= length (filter is_obstacle triple_cluster))%nat
            /\ (length (flow_groups (filter is_obstacle triple_cluster)) < 3)%nat
            /\ flow s <> 8%R.
Proof.
  eexists. split; [reflexivity|].
  split; [simpl; lia|]. split; [simpl; lia|].
  change (flow_score (filter is_obstacle triple_cluster) <> 8%R).
  unfold flow_score. simpl. lra.
Qed.

(** ** C6: the cull rate when nothing was generated *)

(** C6.  With [total_generated = 0], [compute_scores] assigns
    [cull_rate = 10] when the event list is not empty; on the empty list it
    returns the default breakdown, whose [cull_rate] is 0. *)
Theorem cull_rate_when_nothing_generated (events : list CourseEvent)
    (bd : BeatData) (cull_count : Z) (s : ScoreBreakdown) :
  compute_scores events bd cull_count 0 = Some s ->
  (events <> [] -> cull_rate s = 10%R) /\ (events = [] -> cull_rate s = 0%R).
Proof.
  unfold compute_scores. intros Hs. split.
  - intros Hne. destruct events as [|e0 es]; [congruence|].
    destruct (lane_counts _ _); [|discriminate].
    destruct (_ && _); [discriminate|].
    inversion Hs; subst s. reflexivity.
  - intros ->. now inversion Hs.
Qed.

Lemma cull_rate_when_nothing_generated_witness :
  exists s, compute_scores scenario_c_events scenario_c_beats 0 0 = Some s
            /\ cull_rate s = 10%R.
Proof.
  eexists. split; [reflexivity|].
  eapply (cull_rate_when_nothing_generated scenario_c_events scenario_c_beats 0).
  - reflexivity.
  - discriminate.
Defined.

(** On the empty list with nothing generated, [cull_rate] is 0, not 10. *)
Lemma empty_course_cull_rate_is_not_10 :
  exists s, compute_scores [] scenario_c_beats 0 0 = Some s
            /\ cull_rate s = 0%R /\ cull_rate s <> 10%R.
Proof.
  eexists. split; [reflexivity|]. simpl. split; [reflexivity | lra].
Qed.

(** ** C3: the course depends on the generator through the attempt seeds *)

Section Determinism.
Context {Rng : Type} `{RandomSource Rng}.
Variables Random1 Random2 : Z -> Rng.

Lemma run_attempt_agree bd params seed :
  Random1 seed = Random2 seed ->
  run_attempt Random1 bd params seed = run_attempt Random2 bd params seed.
Proof. unfold run_attempt. now intros ->. Qed.

Lemma search_loop_agree bd target_score turns : forall attempt params champion,
  (forall seed, attempt + 1 <= seed <= attempt + Z.of_nat turns ->
                Random1 seed = Random2 seed) ->
  search_loop Random1 turns attempt bd target_score params champion
    = search_loop Random2 turns attempt bd target_score params champion.
Proof.
  induction turns as [|turns IH]; intros attempt params champion Hseeds.
  - reflexivity.
  - cbn [search_loop].
    rewrite (run_attempt_agree bd params (attempt + 1)) by (apply Hseeds; lia).
    destruct (run_attempt Random2 bd params (attempt + 1)) as [[events scores]|];
      [|reflexivity].
    destruct (Rleb target_score (total scores)); [reflexivity|].
    apply IH. intros seed Hseed. apply Hseeds. lia.
Qed.

Lemma search_loop_seed bd target_score turns :
  forall attempt params champion result,
  0 <= attempt ->
  seed_in_range attempt champion ->
  search_loop Random1 turns attempt bd target_score params champion
    = Some result ->
  seed_in_range (attempt + Z.of_nat turns) result.
Proof.
  induction turns as [|turns IH];
    intros attempt params champion result Hpos Hinv Hrun.
  - cbn in Hrun. inversion Hrun; subst.
    destruct Hinv as [Hn | Hr]; [now left | right; lia].
  - cbn [search_loop] in Hrun.
    destruct (run_attempt Random1 bd params (attempt + 1))
      as [[events scores]|]; [|discriminate].
    set (champion' :=
           if Rltb (total (champion_score champion)) (total scores)
           then mkChampion (Some events) scores (attempt + 1) (attempt + 1)
           else champion) in *.
    assert (Hinv' : seed_in_range (attempt + 1) champion').
    { subst champion'. destruct (Rltb _ _).
      - right. simpl. lia.
      - destruct Hinv as [Hn | Hr]; [now left | right; lia]. }
    destruct (Rleb target_score (total scores)).
    + inversion Hrun; subst.
      destruct Hinv' as [Hn | Hr]; [now left | right; lia].
    + apply IH in Hrun; trivial; [|lia].
      destruct Hrun as [Hn | Hr]; [now left | right; lia].
Qed.

(** C3.  Two runs of [generate_course] on one beat map, preset,
    [max_attempts] and [target_score] return the same course document (or
    both raise) as soon as [random.Random] hands them the same generator
    for the attempt seeds [1 .. max_attempts] and the post-processing seeds
    [1001 .. max_attempts + 1000]: nothing else of the random source is
    read. *)
Theorem generate_course_deterministic (bd : BeatData) (difficulty : string)
    (max_attempts : Z) (target_score : R) :
  (forall seed,
      1 <= seed <= max_attempts \/ 1001 <= seed <= max_attempts + 1000 ->
      Random1 seed = Random2 seed) ->
  generate_course Random1 bd difficulty max_attempts target_score
    = generate_course Random2 bd difficulty max_attempts target_score.
Proof.
  intros Hseeds. unfold generate_course.
  destruct (preset_of difficulty) as [params|]; [|reflexivity].
  assert (Hloop :
    search_loop Random1 (Z.to_nat max_attempts) 0 bd target_score params
      (mkChampion None (mkScores 0 0 0 0 0 0 0) 0 0)
    = search_loop Random2 (Z.to_nat max_attempts) 0 bd target_score params
      (mkChampion None (mkScores 0 0 0 0 0 0 0) 0 0)).
  { apply search_loop_agree. intros seed Hseed. apply Hseeds. left. lia. }
  destruct (search_loop Random1 (Z.to_nat max_attempts) 0 bd target_score
              params (mkChampion None (mkScores 0 0 0 0 0 0 0) 0 0))
    as [champion|] eqn:Hrun; rewrite <- Hloop; [|reflexivity].
  apply search_loop_seed in Hrun; [|lia|now left].
  destruct (champion_events champion) as [[|e evs]|] eqn:Hev; try reflexivity.
  destruct Hrun as [Hn | Hr]; [congruence|].
  rewrite (Hseeds (champion_seed champion + 1000)) by (right; lia).
  reflexivity.
Qed.

End Determinism.

(** * Further properties of the generator *)

(** ** [sample_at] on a well-formed signal *)

Lemma sample_in_byte_range arr i :
  Forall (fun v => 0 <= v <= 255) arr ->
  (0 <= sample arr i)%Q /\ (sample arr i <= 255)%Q.
Proof.
  intros Hall. unfold sample.
  assert (H : 0 <= nth (Z.to_nat i) arr 0 <= 255).
  { destruct (Nat.lt_ge_cases (Z.to_nat i) (length arr)) as [Hlt | Hge].
    - rewrite Forall_forall in Hall. apply Hall. now apply nth_In.
    - rewrite nth_overflow by trivial. lia. }
  split.
  - change 0%Q with (inject_Z 0). rewrite <- Zle_Qle. lia.
  - change 255%Q with (inject_Z 255). rewrite <- Zle_Qle. lia.
Qed.

Lemma last_sample_in_byte_range arr :
  Forall (fun v => 0 <= v <= 255) arr ->
  (0 <= last_sample arr)%Q /\ (last_sample arr <= 255)%Q.
Proof.
  intros Hall. unfold last_sample.
  assert (H : 0 <= last arr 0 <= 255).
  { destruct arr as [|a arr]; [simpl; lia|].
    rewrite Forall_forall in Hall. apply Hall.
    destruct (exists_last (l := a :: arr)) as (l' & x & E); [discriminate|].
    rewrite E, last_last. apply in_or_app. right. now left. }
  split.
  - change 0%Q with (inject_Z 0). rewrite <- Zle_Qle. lia.
  - change 255%Q with (inject_Z 255). rewrite <- Zle_Qle. lia.
Qed.

Lemma byte_over_255 x : (0 <= x)%Q -> (x <= 255)%Q -> (0 <= x / 255 <= 1)%Q.
Proof.
  intros H0 H1. split.
  - apply Qle_shift_div_l; [reflexivity|]. now rewrite Qmult_0_l.
  - apply Qle_shift_div_r; [reflexivity|]. now rewrite Qmult_1_l.
Qed.

(** X1.  On a signal of bytes sampled at a positive resolution,
    [sample_at] at a time that is not negative returns a value between 0
    and 1. *)
Theorem sample_at_unit_range (arr : list Z) (time_s : Q) (res_ms : Z) :
  0 < res_ms -> (0 <= time_s)%Q ->
  Forall (fun v => 0 <= v <= 255) arr ->
  exists v, sample_at arr time_s res_ms = Some v /\ (0 <= v <= 1)%Q.
Proof.
  intros Hres Ht Hall.
  destruct arr as [|a0 arr'] eqn:Earr.
  { exists 0%Q. split; [reflexivity|]. split; discriminate. }
  rewrite <- Earr in *.
  assert (Hne : arr <> []) by (rewrite Earr; discriminate).
  assert (Hres' : res_ms <> 0) by lia.
  destruct (sample_at_by_index arr time_s res_ms Hne Hres')
    as (_ & Hlast & Hmid & _).
  set (idx := (time_s * 1000 / inject_Z res_ms)%Q) in *.
  assert (Hidx : (0 <= idx)%Q).
  { subst idx. apply Qle_shift_div_l.
    - change 0%Q with (inject_Z 0). rewrite <- Zlt_Qlt. lia.
    - rewrite Qmult_0_l.
      change 0%Q with (0 * 1000)%Q. apply Qmult_le_compat_r; [trivial | discriminate]. }
  clearbody idx.
  destruct (Qlt_le_dec idx (inject_Z (Z.of_nat (length arr) - 1))) as [Hin | Hout].
  - rewrite (Hmid Hidx Hin). eexists. split; [reflexivity|].
    destruct (sample_in_byte_range arr (Qfloor idx) Hall) as [Ha0 Ha1].
    destruct (sample_in_byte_range arr (Qfloor idx + 1) Hall) as [Hb0 Hb1].
    pose proof (Qfloor_le idx) as Hf0. pose proof (Qlt_floor idx) as Hf1.
    rewrite inject_Z_plus in Hf1. change (inject_Z 1) with 1%Q in Hf1.
    remember (sample arr (Qfloor idx)) as a eqn:Ea.
    remember (sample arr (Qfloor idx + 1)) as b eqn:Eb.
    remember (inject_Z (Qfloor idx)) as f eqn:Ef.
    clear - Ha0 Ha1 Hb0 Hb1 Hf0 Hf1.
    assert (H1 : (0 <= a * (1 - (idx - f)))%Q) by (apply Qmult_le_0_compat; Lqa.lra).
    assert (H2 : (0 <= b * (idx - f))%Q) by (apply Qmult_le_0_compat; Lqa.lra).
    assert (H3 : (0 <= (255 - a) * (1 - (idx - f)))%Q)
      by (apply Qmult_le_0_compat; Lqa.lra).
    assert (H4 : (0 <= (255 - b) * (idx - f))%Q)
      by (apply Qmult_le_0_compat; Lqa.lra).
    apply byte_over_255; Lqa.lra.
  - rewrite (Hlast Hout). eexists. split; [reflexivity|].
    destruct (last_sample_in_byte_range arr Hall). now apply byte_over_255.
Qed.

Lemma sample_at_unit_range_witness :
  exists v, sample_at ramp_signal 0.75 500 = Some v /\ (0 <= v <= 1)%Q.
Proof.
  apply sample_at_unit_range.
  - lia.
  - discriminate.
  - repeat constructor; lia.
Defined.

Lemma last_is_nth {A} (l : list A) d : last l d = nth (length l - 1) l d.
Proof.
  induction l as [|a l IH]; trivial.
  destruct l as [|b l]; trivial.
  change (last (a :: b :: l) d) with (last (b :: l) d). rewrite IH.
  simpl. now rewrite Nat.sub_0_r.
Qed.

(** X2.  At the time of its [i]-th sample, [sample_at] returns that sample
    (over 255): the interpolation passes through the samples. *)
Theorem sample_at_on_grid (arr : list Z) (i res_ms : Z) :
  0 < res_ms -> 0 <= i < Z.of_nat (length arr) ->
  exists v,
    sample_at arr (inject_Z (i * res_ms) / 1000) res_ms = Some v
    /\ (v == sample arr i / 255)%Q.
Proof.
  intros Hres Hi.
  assert (Hne : arr <> []) by (destruct arr; [simpl in Hi; lia | discriminate]).
  assert (Hres' : res_ms <> 0) by lia.
  destruct (sample_at_by_index arr (inject_Z (i * res_ms) / 1000) res_ms Hne Hres')
    as (_ & Hlast & Hmid & _).
  set (idx := (inject_Z (i * res_ms) / 1000 * 1000 / inject_Z res_ms)%Q) in *.
  assert (Hidx : (idx == inject_Z i)%Q).
  { subst idx. rewrite inject_Z_mult. field.
    intro H0. change 0%Q with (inject_Z 0) in H0.
    rewrite inject_Z_injective in H0. lia. }
  clearbody idx.
  destruct (Z.eq_dec i (Z.of_nat (length arr) - 1)) as [Ei | Ei].
  - rewrite Hlast by (rewrite Hidx, <- Zle_Qle; lia).
    eexists. split; [reflexivity|].
    unfold last_sample, sample. rewrite last_is_nth.
    replace (Z.to_nat i) with (length arr - 1)%nat by lia. reflexivity.
  - assert (Hfl : Qfloor idx = i) by (rewrite Hidx; apply Qfloor_Z).
    rewrite Hmid.
    + eexists. split; [reflexivity|].
      rewrite Hfl. setoid_replace (idx - inject_Z i)%Q with 0%Q by (rewrite Hidx; ring).
      field.
    + rewrite Hidx. change 0%Q with (inject_Z 0). rewrite <- Zle_Qle. lia.
    + rewrite Hidx, <- Zlt_Qlt. lia.
Qed.

Lemma sample_at_on_grid_witness :
  exists v,
    sample_at ramp_signal (inject_Z (1 * 500) / 1000) 500 = Some v
    /\ (v == sample ramp_signal 1 / 255)%Q.
Proof.
  apply sample_at_on_grid.
  - lia.
  - simpl. lia.
Defined.

(** ** [find_nearest_beat] on ascending beats *)

Lemma Qltb_lt x y : Qltb x y = true <-> (x < y)%Q.
Proof.
  unfold Qltb. rewrite negb_true_iff. split.
  - intros H. apply Qnot_le_lt. intro Hle. apply Qle_bool_iff in Hle. congruence.
  - intros H. destruct (Qle_bool y x) eqn:E; trivial.
    apply Qle_bool_iff in E. exfalso. eapply Qlt_irrefl, Qlt_le_trans; eassumption.
Qed.

Lemma Qltb_ge x y : Qltb x y = false <-> (y <= x)%Q.
Proof.
  unfold Qltb. rewrite negb_false_iff. apply Qle_bool_iff.
Qed.

Lemma ascending_nth (l : list Q) :
  StronglySorted Qle l ->
  forall i j, (i <= j < length l)%nat -> (nth i l 0 <= nth j l 0)%Q.
Proof.
  induction 1 as [|a l Hs IH Hall]; intros i j Hij; simpl in Hij; [lia|].
  destruct i as [|i], j as [|j]; simpl; try lia.
  - apply Qle_refl.
  - rewrite Forall_forall in Hall. apply Hall, nth_In. lia.
  - apply IH. lia.
Qed.

Lemma bisect_loop_spec (bts : list Q) (tm : Q) :
  StronglySorted Qle bts ->
  forall fuel lo hi,
    (hi - lo <= fuel)%nat -> (lo <= hi)%nat -> (hi < length bts)%nat ->
    (forall i, (i < lo)%nat -> (nth i bts 0 < tm)%Q) ->
    (hi = (length bts - 1)%nat \/ (tm <= nth hi bts 0)%Q) ->
    let k := bisect_loop fuel bts tm lo hi in
    (lo <= k <= hi)%nat
    /\ (forall i, (i < k)%nat -> (nth i bts 0 < tm)%Q)
    /\ (k = (length bts - 1)%nat \/ (tm <= nth k bts 0)%Q).
Proof.
  intros Hs. induction fuel as [|fuel IH]; intros lo hi Hf Hle Hhi Hlow Hup.
  - cbn [bisect_loop]. assert (lo = hi) by lia. subst hi.
    repeat split; trivial; lia.
  - cbn [bisect_loop]. destruct (lo <? hi)%nat eqn:Hlt.
    + apply Nat.ltb_lt in Hlt.
      assert (Hmid : (lo <= (lo + hi) / 2 < hi)%nat).
      { split.
        - apply Nat.div_le_lower_bound; lia.
        - apply Nat.Div0.div_lt_upper_bound; lia. }
      destruct (Qltb (nth ((lo + hi) / 2) bts 0%Q) tm) eqn:Hcmp.
      * apply Qltb_lt in Hcmp.
        destruct (IH (S ((lo + hi) / 2)) hi) as (Hk & Hl & Hu); try lia; trivial.
        { intros i Hi. eapply Qle_lt_trans; [|exact Hcmp].
          apply ascending_nth; trivial. lia. }
        repeat split; trivial; lia.
      * apply Qltb_ge in Hcmp.
        destruct (IH lo ((lo + hi) / 2)%nat) as (Hk & Hl & Hu); try lia; trivial.
        { now right. }
        repeat split; trivial; lia.
    + apply Nat.ltb_ge in Hlt. assert (lo = hi) by lia. subst hi.
      repeat split; trivial; lia.
Qed.

(** The distance found is at most the distance to any beat. *)
Lemma find_nearest_beat_le (bts : list Q) (tm b : Q) :
  StronglySorted Qle bts -> In b bts ->
  (find_nearest_beat bts tm <= Qabs (b - tm))%Q.
Proof.
  intros Hs Hin.
  destruct (In_nth _ _ 0%Q Hin) as (j & Hj & Hb). subst b.
  unfold find_nearest_beat. destruct bts as [|b0 bts'] eqn:E; [simpl in Hj; lia|].
  rewrite <- E in *. clear E b0 bts' Hin.
  destruct (bisect_loop_spec bts tm Hs (length bts) 0 (length bts - 1))
    as (Hk & Hl & Hu); try lia.
  set (k := bisect_loop (length bts) bts tm 0 (length bts - 1)) in *.
  clearbody k.
  set (best := Qabs (nth k bts 0 - tm)%Q).
  assert (Hres : forall r,
    (r <= best)%Q ->
    ((0 < k)%nat -> (r <= Qabs (nth (k - 1) bts 0 - tm))%Q) ->
    (r <= Qabs (nth j bts 0 - tm))%Q).
  { intros r Hr1 Hr2.
    destruct (Nat.lt_trichotomy j k) as [Hjk | [Hjk | Hjk]].
    - assert (H1 : (nth j bts 0 <= nth (k - 1) bts 0)%Q)
        by (apply ascending_nth; trivial; lia).
      assert (H2 : (nth (k - 1) bts 0 < tm)%Q) by (apply Hl; lia).
      eapply Qle_trans; [apply Hr2; lia|].
      rewrite (Qabs_neg (nth (k - 1) bts 0 - tm)%Q) by Lqa.lra.
      rewrite (Qabs_neg (nth j bts 0 - tm)%Q) by Lqa.lra. Lqa.lra.
    - subst j. exact Hr1.
    - destruct Hu as [Hu | Hu]; [lia|].
      assert (H1 : (nth k bts 0 <= nth j bts 0)%Q)
        by (apply ascending_nth; trivial; lia).
      eapply Qle_trans; [exact Hr1|]. subst best.
      rewrite (Qabs_pos (nth k bts 0 - tm)%Q) by Lqa.lra.
      rewrite (Qabs_pos (nth j bts 0 - tm)%Q) by Lqa.lra. Lqa.lra. }
  destruct (0 <? k)%nat eqn:Hk0.
  - apply Hres; [apply Q.le_min_l | intros _; apply Q.le_min_r].
  - apply Nat.ltb_ge in Hk0. apply Hres; [apply Qle_refl | lia].
Qed.

(** The distance found is the distance to one of the beats. *)
Lemma find_nearest_beat_attained (bts : list Q) (tm : Q) :
  bts <> [] ->
  exists b, In b bts /\ (find_nearest_beat bts tm == Qabs (b - tm))%Q.
Proof.
  intros Hne. unfold find_nearest_beat.
  destruct bts as [|b0 bts'] eqn:E; [congruence|].
  rewrite <- E in *. clear E b0 bts'.
  pose proof (bisect_loop_bounds bts tm (length bts) 0 (length bts - 1)) as Hk.
  set (k := bisect_loop (length bts) bts tm 0 (length bts - 1)) in *.
  assert (Hlen : (0 < length bts)%nat) by (destruct bts; [congruence | simpl; lia]).
  assert (Hkl : (k < length bts)%nat) by lia.
  destruct (0 <? k)%nat.
  - destruct (Q.min_spec (Qabs (nth k bts 0 - tm)%Q) (Qabs (nth (k - 1) bts 0 - tm)%Q))
      as [[_ Hm] | [_ Hm]].
    + exists (nth k bts 0%Q). split; [now apply nth_In | exact Hm].
    + exists (nth (k - 1) bts 0%Q). split; [apply nth_In; lia | exact Hm].
  - exists (nth k bts 0%Q). split; [now apply nth_In | reflexivity].
Qed.

(** X3.  On beats in ascending order, [find_nearest_beat] returns the
    least distance from [t] to a beat: it is the distance to one of the
    beats and exceeds the distance to none.  On no beats it returns 999. *)
Theorem find_nearest_beat_is_least (bts : list Q) (tm : Q) :
  StronglySorted Qle bts ->
  (bts = [] -> find_nearest_beat bts tm = 999%Q)
  /\ (bts <> [] ->
      (exists b, In b bts /\ (find_nearest_beat bts tm == Qabs (b - tm))%Q)
      /\ (forall b, In b bts -> (find_nearest_beat bts tm <= Qabs (b - tm))%Q)).
Proof.
  intros Hs. split.
  - now intros ->.
  - intros Hne. split.
    + now apply find_nearest_beat_attained.
    + intros b Hb. now apply find_nearest_beat_le.
Qed.

Lemma find_nearest_beat_is_least_witness :
  (four_beats = [] -> find_nearest_beat four_beats 2.9 = 999%Q)
  /\ (four_beats <> [] ->
      (exists b, In b four_beats
                 /\ (find_nearest_beat four_beats 2.9 == Qabs (b - 2.9))%Q)
      /\ (forall b, In b four_beats ->
                    (find_nearest_beat four_beats 2.9 <= Qabs (b - 2.9))%Q)).
Proof.
  apply find_nearest_beat_is_least.
  repeat constructor; discriminate.
Defined.

(** ** Beat sync of events that sit on beats *)

Lemma filter_all {A} (f : A -> bool) l :
  (forall x, In x l -> f x = true) -> filter f l = l.
Proof.
  induction l as [|a l IH]; intros H; simpl; trivial.
  rewrite (H a) by now left. f_equal. apply IH. intros x Hx. apply H. now right.
Qed.

Lemma compute_scores_beat_sync events bd c g s :
  compute_scores events bd c g = Some s -> events <> [] ->
  beat_sync s = beat_sync_score events (beats bd).
Proof.
  unfold compute_scores. destruct events as [|e0 es]; [congruence|].
  destruct (lane_counts _ _); [|discriminate].
  destruct (_ && _); [discriminate|].
  intros H _. now inversion H.
Qed.

(** X4.  When the beats are ascending and every event lies within
    [BEAT_SNAP_WINDOW_S] (0.1 s) of some beat, in particular when every
    event sits on a beat, [compute_scores] assigns [beat_sync = 10]. *)
Theorem beat_sync_of_events_on_beats (events : list CourseEvent)
    (bd : BeatData) (cull_count total_generated : Z) (s : ScoreBreakdown) :
  StronglySorted Qle (beats bd) ->
  (forall e, In e events ->
     exists b, In b (beats bd) /\ (Qabs (b - t e) <= BEAT_SNAP_WINDOW_S)%Q) ->
  events <> [] ->
  compute_scores events bd cull_count total_generated = Some s ->
  beat_sync s = 10%R.
Proof.
  intros Hs Hnear Hne Hc.
  rewrite (compute_scores_beat_sync _ _ _ _ _ Hc Hne).
  unfold beat_sync_score. rewrite filter_all.
  - assert (Hlen : (0 < INR (length events))%R).
    { apply lt_0_INR. destruct events; [congruence | simpl; lia]. }
    replace (INR (length events) / INR (length events) * 10)%R with 10%R
      by (field; lra).
    apply Rmin_left. lra.
  - intros e He. destruct (Hnear e He) as (b & Hb & Hd).
    apply Qle_bool_iff. eapply Qle_trans; [|exact Hd].
    now apply find_nearest_beat_le.
Qed.

Lemma beat_sync_of_events_on_beats_witness :
  exists s, compute_scores on_beat_events four_beat_map 0 2 = Some s
            /\ beat_sync s = 10%R.
Proof.
  eexists. split; [reflexivity|].
  eapply (beat_sync_of_events_on_beats on_beat_events four_beat_map 0 2).
  - repeat constructor; discriminate.
  - intros e [<- | [<- | []]].
    + exists 2%Q. split; [simpl; tauto | discriminate].
    + exists 4%Q. split; [simpl; tauto | discriminate].
  - discriminate.
  - reflexivity.
Defined.

(** ** The correlation coefficient *)

Lemma Rsum_quadratic (a b : nat -> R) (lam : R) (l : list nat) :
  Rsum (map (fun i => ((lam * a i + b i) ^ 2)%R) l)
  = (lam ^ 2 * Rsum (map (fun i => (a i ^ 2)%R) l)
     + 2 * lam * Rsum (map (fun i => (a i * b i)%R) l)
     + Rsum (map (fun i => (b i ^ 2)%R) l))%R.
Proof.
  unfold Rsum. induction l as [|i l IH]; cbn [map fold_right].
  - ring.
  - rewrite IH. ring.
Qed.

Lemma Rsum_squares_nonneg (f : nat -> R) (l : list nat) :
  (0 <= Rsum (map (fun i => (f i ^ 2)%R) l))%R.
Proof.
  unfold Rsum. induction l as [|i l IH]; cbn [map fold_right]; [lra|].
  pose proof (pow2_ge_0 (f i)). lra.
Qed.

(** Cauchy-Schwarz, for a vector [a] that is not null. *)
Lemma Rsum_cauchy_schwarz (a b : nat -> R) (l : list nat) :
  (0 < Rsum (map (fun i => (a i ^ 2)%R) l))%R ->
  (Rsum (map (fun i => (a i * b i)%R) l) ^ 2
   <= Rsum (map (fun i => (a i ^ 2)%R) l)
      * Rsum (map (fun i => (b i ^ 2)%R) l))%R.
Proof.
  set (A := Rsum (map (fun i => (a i ^ 2)%R) l)).
  set (B := Rsum (map (fun i => (b i ^ 2)%R) l)).
  set (C := Rsum (map (fun i => (a i * b i)%R) l)).
  intros HA.
  pose proof (Rsum_squares_nonneg (fun i => (- C / A * a i + b i)%R) l) as Hq.
  cbv beta in Hq. rewrite Rsum_quadratic in Hq. fold A B C in Hq.
  replace ((- C / A) ^ 2 * A + 2 * (- C / A) * C + B)%R
    with (B - C ^ 2 / A)%R in Hq by (field; lra).
  assert (H : (C ^ 2 / A <= B)%R) by lra.
  apply (Rmult_le_compat_l A) in H; [|lra].
  replace (A * (C ^ 2 / A))%R with (C ^ 2)%R in H by (field; lra).
  exact H.
Qed.

(** X5.  On two lists of one length, the case in which the code indexes
    both in range, [pearson_correlation] returns a value between -1 and
    1. *)
Theorem pearson_correlation_range (x y : list R) :
  length x = length y ->
  (-1 <= pearson_correlation x y <= 1)%R.
Proof.
  intros _. unfold pearson_correlation.
  destruct (length x <? 2)%nat; [lra|].
  set (n := length x).
  set (a := fun i => (nth i x 0 - Rsum x / INR n)%R).
  set (b := fun i => (nth i y 0 - Rsum y / INR n)%R).
  change (map (fun i => ((nth i x 0 - Rsum x / INR n)
                         * (nth i y 0 - Rsum y / INR n))%R) (seq 0 n))
    with (map (fun i => (a i * b i)%R) (seq 0 n)).
  change (map (fun i => ((nth i x 0 - Rsum x / INR n) ^ 2)%R) (seq 0 n))
    with (map (fun i => (a i ^ 2)%R) (seq 0 n)).
  change (map (fun i => ((nth i y 0 - Rsum y / INR n) ^ 2)%R) (seq 0 n))
    with (map (fun i => (b i ^ 2)%R) (seq 0 n)).
  pose proof (Rsum_squares_nonneg a (seq 0 n)) as HA.
  pose proof (Rsum_squares_nonneg b (seq 0 n)) as HB.
  pose proof (Rsum_cauchy_schwarz a b (seq 0 n)) as Hcs.
  set (A := Rsum (map (fun i => (a i ^ 2)%R) (seq 0 n))) in *.
  set (B := Rsum (map (fun i => (b i ^ 2)%R) (seq 0 n))) in *.
  set (C := Rsum (map (fun i => (a i * b i)%R) (seq 0 n))) in *.
  destruct (Req_dec_T (sqrt A) 0) as [|HsA]; [lra|].
  destruct (Req_dec_T (sqrt B) 0) as [|HsB]; [lra|].
  assert (HA' : (0 < A)%R).
  { destruct HA as [HA | HA]; trivial. rewrite <- HA, sqrt_0 in HsA. congruence. }
  assert (HB' : (0 < B)%R).
  { destruct HB as [HB | HB]; trivial. rewrite <- HB, sqrt_0 in HsB. congruence. }
  specialize (Hcs HA').
  pose proof (sqrt_lt_R0 A HA') as HsA'. pose proof (sqrt_lt_R0 B HB') as HsB'.
  set (D := (sqrt A * sqrt B)%R).
  assert (HD : (0 < D)%R) by (apply Rmult_lt_0_compat; trivial).
  assert (HD2 : (D ^ 2 = A * B)%R).
  { subst D. replace ((sqrt A * sqrt B) ^ 2)%R
      with ((sqrt A * sqrt A) * (sqrt B * sqrt B))%R by ring.
    rewrite !sqrt_sqrt; lra. }
  assert (Hbound : (- D <= C <= D)%R) by (split; nra).
  split.
  - apply Rmult_le_reg_r with D; trivial.
    unfold Rdiv. rewrite Rmult_assoc, Rinv_l by lra. lra.
  - apply Rmult_le_reg_r with D; trivial.
    unfold Rdiv. rewrite Rmult_assoc, Rinv_l by lra. lra.
Qed.

Lemma pearson_correlation_range_witness :
  (-1 <= pearson_correlation rising_pair doubled_pair <= 1)%R.
Proof.
  apply pearson_correlation_range. reflexivity.
Defined.

(** ** The cull penalty *)

Lemma cull_rate_score_decreasing c1 c2 g :
  c1 <= c2 -> (cull_rate_score c2 g <= cull_rate_score c1 g)%R.
Proof.
  intros Hc. unfold cull_rate_score.
  destruct (0 <? g) eqn:Hg; [|lra].
  apply Z.ltb_lt in Hg.
  assert (Hg' : (0 < IZR g)%R) by (now apply IZR_lt).
  assert (Hr : (IZR c1 / IZR g <= IZR c2 / IZR g)%R).
  { apply Rmult_le_compat_r; [apply Rlt_le, Rinv_0_lt_compat; trivial|].
    now apply IZR_le. }
  apply Rle_min_compat_l. apply Rle_max_compat_l. lra.
Qed.

Lemma compute_scores_cull_rate events bd c g s :
  compute_scores events bd c g = Some s -> events <> [] ->
  cull_rate s = cull_rate_score c g.
Proof.
  unfold compute_scores. destruct events as [|e0 es]; [congruence|].
  destruct (lane_counts _ _); [|discriminate].
  destruct (_ && _); [discriminate|].
  intros H _. now inversion H.
Qed.

(** X6.  With the events and [total_generated] fixed, a larger
    [cull_count] never gives a larger [cull_rate]; with no cull and at
    least one generated event the [cull_rate] of a non-empty course is 10. *)
Theorem cull_rate_monotone (events : list CourseEvent) (bd : BeatData)
    (c1 c2 total_generated : Z) (s1 s2 : ScoreBreakdown) :
  c1 <= c2 ->
  compute_scores events bd c1 total_generated = Some s1 ->
  compute_scores events bd c2 total_generated = Some s2 ->
  (cull_rate s2 <= cull_rate s1)%R
  /\ (events <> [] -> c1 = 0 -> 0 < total_generated -> cull_rate s1 = 10%R).
Proof.
  intros Hc H1 H2. destruct events as [|e0 es] eqn:E.
  - cbn in H1, H2. inversion H1; inversion H2; subst. simpl. split; [lra|].
    congruence.
  - rewrite <- E in *. assert (Hne : events <> []) by (rewrite E; discriminate).
    rewrite (compute_scores_cull_rate _ _ _ _ _ H1 Hne).
    rewrite (compute_scores_cull_rate _ _ _ _ _ H2 Hne).
    split; [now apply cull_rate_score_decreasing|].
    intros _ -> Hg. unfold cull_rate_score.
    apply Z.ltb_lt in Hg. rewrite Hg.
    replace (10 - 0 / IZR total_generated * 33.3)%R with 10%R
      by (unfold Rdiv; ring).
    rewrite Rmax_right by lra. apply Rmin_left. lra.
Qed.

Lemma cull_rate_monotone_witness :
  exists s1 s2,
    compute_scores on_beat_events four_beat_map 0 4 = Some s1
    /\ compute_scores on_beat_events four_beat_map 2 4 = Some s2
    /\ (cull_rate s2 <= cull_rate s1)%R
    /\ cull_rate s1 = 10%R.
Proof.
  do 2 eexists. split; [reflexivity|]. split; [reflexivity|].
  destruct (cull_rate_monotone on_beat_events four_beat_map 0 2 4 _ _
              ltac:(lia) eq_refl eq_refl) as [Hle H10].
  split; [exact Hle|]. apply H10; [discriminate | reflexivity | lia].
Defined.

(** ** The shape of the time groups *)

Lemma flush_group_acc ct cur acc :
  flush_group ct cur acc = acc ++ flush_group ct cur [].
Proof. destruct cur; simpl; [now rewrite app_nil_r | reflexivity]. Qed.

Lemma group_loop_acc es : forall ct cur acc,
  group_loop es ct cur acc = acc ++ group_loop es ct cur [].
Proof.
  induction es as [|e es IH]; intros ct cur acc; simpl.
  - apply flush_group_acc.
  - destruct (Qltb _ _).
    + apply IH.
    + rewrite IH, (IH (t e) [e] (flush_group ct cur [])).
      now rewrite flush_group_acc, app_assoc.
Qed.

Lemma le_t_trans a b c : le_t a b -> le_t b c -> le_t a c.
Proof. unfold le_t. apply Qle_trans. Qed.

Lemma sort_by_t_strongly_sorted l : StronglySorted le_t (sort_by_t l).
Proof.
  apply Sorted_StronglySorted.
  - intros a b c. apply le_t_trans.
  - apply sort_by_t_sorted.
Qed.

Lemma strongly_sorted_app {A} (R : A -> A -> Prop) l l' :
  StronglySorted R (l ++ l') ->
  StronglySorted R l' /\ (forall x y, In x l -> In y l' -> R x y).
Proof.
  induction l as [|a l IH]; simpl; intros Hs.
  - split; [exact Hs | intros x y []].
  - apply StronglySorted_inv in Hs. destruct Hs as [Hs Hall].
    destruct (IH Hs) as [Hs' Hrel]. split; trivial.
    intros x y [<- | Hx] Hy.
    + rewrite Forall_forall in Hall. apply Hall, in_or_app. now right.
    + now apply Hrel.
Qed.

Lemma Qabs_self_window x : (Qabs (x - x) < 0.05)%Q.
Proof.
  setoid_replace (x - x)%Q with 0%Q by ring. reflexivity.
Qed.

Lemma group_loop_shape es : forall ct cur,
  cur <> [] ->
  Forall (fun e => (Qabs (t e - ct) < 0.05)%Q) cur ->
  StronglySorted le_t (cur ++ es) ->
  exists members rest,
    group_loop es ct cur [] = (ct, members) :: rest
    /\ spaced ((ct, members) :: rest)
    /\ Forall within_window ((ct, members) :: rest).
Proof.
  induction es as [|e es IH]; intros ct cur Hne Hwin Hs.
  - exists cur, []. cbn [group_loop]. destruct cur as [|c cur]; [congruence|].
    repeat split; trivial. constructor; [|constructor]. now split.
  - cbn [group_loop]. destruct (Qltb (Qabs (t e - ct)) 0.05) eqn:Hcmp.
    + apply IH.
      * destruct cur; discriminate.
      * apply Forall_app. split; trivial. constructor; [|constructor].
        now apply Qltb_lt.
      * now rewrite <- app_assoc.
    + apply Qltb_ge in Hcmp.
      destruct (IH (t e) [e]) as (members & rest & Hrun & Hsp & Hww).
      * discriminate.
      * constructor; [apply Qabs_self_window | constructor].
      * apply (strongly_sorted_app le_t cur (e :: es) Hs).
      * rewrite group_loop_acc, Hrun.
        destruct cur as [|c cur']; [congruence|]. cbn [flush_group app].
        exists (c :: cur'), ((t e, members) :: rest).
        split; [reflexivity|]. split.
        -- split; [|exact Hsp]. cbn [fst].
           (* the event that opens the group is later than [c] *)
           assert (Hce : (t c <= t e)%Q).
           { apply (strongly_sorted_app le_t (c :: cur') (e :: es) Hs);
               now left. }
           inversion Hwin as [|? ? Hc _]; subst.
           apply Qabs_Qlt_condition in Hc.
           destruct (Qlt_le_dec (t e - ct) 0) as [Hneg | Hpos].
           ++ rewrite Qabs_neg in Hcmp by Lqa.lra. Lqa.lra.
           ++ rewrite Qabs_pos in Hcmp by Lqa.lra. Lqa.lra.
        -- constructor; [|exact Hww]. split; [discriminate | exact Hwin].
Qed.

Lemma time_groups_windows (events : list CourseEvent) :
  Forall within_window (time_groups events) /\ spaced (time_groups events).
Proof.
  unfold time_groups.
  pose proof (sort_by_t_strongly_sorted events) as Hs.
  destruct (sort_by_t events) as [|e es]; [cbn; split; [constructor | trivial]|].
  cbn [group_loop app].
  destruct (Qltb (Qabs (t e - -999)) 0.05) eqn:Hcmp.
  - destruct (group_loop_shape es (-999) [e]) as (m & r & -> & Hsp & Hw);
      [discriminate | | exact Hs | now split].
    constructor; [now apply Qltb_lt | constructor].
  - cbn [flush_group].
    destruct (group_loop_shape es (t e) [e]) as (m & r & -> & Hsp & Hw);
      [discriminate | | exact Hs | now split].
    constructor; [apply Qabs_self_window | constructor].
Qed.

(** X7.  [time_groups] cuts the time-sorted events, none lost and none
    added, into groups that each hold at least one event, whose events are
    all within 50 ms of the time of their group, and whose times are at
    least 50 ms apart. *)
Theorem time_groups_shape (events : list CourseEvent) :
  flatten (time_groups events) = sort_by_t events
  /\ Forall within_window (time_groups events)
  /\ spaced (time_groups events).
Proof.
  split; [apply flatten_time_groups | apply time_groups_windows].
Qed.

(** ** The validator for every rounding of the lane-change count *)

Lemma enforce_min_safe_noop m robs blocked cull :
  (safe_count blocked <? m) = false ->
  enforce_min_safe m robs blocked cull = (robs, blocked, cull).
Proof. intros H. destruct robs; simpl; [reflexivity | now rewrite H]. Qed.

(** With the exact count, the open validator is [validate_paths]. *)
Lemma validate_group_with_exact params prev g cull :
  validate_group_with exact_crossings params prev g cull
  = validate_group params prev g cull.
Proof. destruct g as [gt ge]. destruct prev as [[pt pe]|]; reflexivity. Qed.

Lemma validate_groups_with_exact params gs : forall prev validated cull,
  validate_groups_with exact_crossings params prev gs validated cull
  = validate_groups params prev gs validated cull.
Proof.
  induction gs as [|g gs IH]; intros prev validated cull;
    cbn [validate_groups_with validate_groups]; [reflexivity|].
  rewrite validate_group_with_exact.
  destruct (validate_group params prev g cull) as [kept cull']. apply IH.
Qed.

Lemma validate_paths_with_exact events params :
  validate_paths_with exact_crossings events params
  = validate_paths events params.
Proof.
  unfold validate_paths_with, validate_paths.
  destruct events; [reflexivity|]. now rewrite validate_groups_with_exact.
Qed.

Lemma exact_crossings_respects_times : respects_times exact_crossings.
Proof.
  intros a a' b b' Ha Hb. unfold exact_crossings, py_int.
  assert (Hx : ((b - a) / LANE_CROSS_TIME_S == (b' - a') / LANE_CROSS_TIME_S)%Q)
    by (rewrite Ha, Hb; reflexivity).
  rewrite (Qfloor_comp _ _ Hx), (Qceiling_comp _ _ Hx).
  destruct (Qle_bool 0 ((b - a) / LANE_CROSS_TIME_S)) eqn:E1;
    destruct (Qle_bool 0 ((b' - a') / LANE_CROSS_TIME_S)) eqn:E2; trivial.
  - apply Qle_bool_iff in E1. rewrite Hx in E1. apply Qle_bool_iff in E1.
    congruence.
  - apply Qle_bool_iff in E2. rewrite <- Hx in E2. apply Qle_bool_iff in E2.
    congruence.
Qed.

Lemma validate_group_with_keeps crossings params prev g cull kept cull' :
  validate_group_with crossings params prev g cull = (kept, cull') ->
  exists k,
    kept = rev (skipn k (rev (filter is_obstacle (snd g))))
             ++ filter is_pickup (snd g)
    /\ cull' = cull + Z.of_nat k
    /\ (k <= length (filter is_obstacle (snd g)))%nat.
Proof.
  destruct g as [gt ge]. unfold validate_group_with. simpl snd.
  destruct (enforce_min_safe _ _ _ _) as [[r1 b1] c1] eqn:E1.
  apply enforce_min_safe_pops in E1. destruct E1 as (k1 & -> & -> & Hk1).
  rewrite length_rev in Hk1.
  destruct prev as [[pt pe]|].
  - destruct (reachable _ _ _).
    + intros H; inversion H; subst. now exists k1.
    + destruct (restore_reachability _ _ _ _ _) as [[r2 b2] c2] eqn:E2.
      apply restore_reachability_pops in E2. destruct E2 as (k2 & -> & -> & Hk2).
      intros H; inversion H; subst.
      rewrite length_skipn, length_rev in Hk2.
      exists (k1 + k2)%nat. rewrite skipn_skipn, (Nat.add_comm k2 k1).
      repeat split; lia.
  - intros H; inversion H; subst. now exists k1.
Qed.

Lemma validate_group_with_incl crossings params prev g cull :
  incl (fst (validate_group_with crossings params prev g cull)) (snd g).
Proof.
  destruct (validate_group_with crossings params prev g cull) as [kept c] eqn:E.
  apply validate_group_with_keeps in E. destruct E as (k & -> & _).
  cbn [fst]. intros e He. apply in_app_or in He. destruct He as [He | He].
  - apply in_rev in He.
    assert (Hin : In e (rev (filter is_obstacle (snd g)))).
    { rewrite <- (firstn_skipn k (rev (filter is_obstacle (snd g)))).
      apply in_or_app. now right. }
    apply in_rev in Hin. apply filter_In in Hin. apply Hin.
  - apply filter_In in He. apply He.
Qed.

(** ** A playable course goes through the validator untouched *)

Lemma validate_group_with_playable crossings params prev g cull :
  group_safe (min_safe_lanes params) g = true ->
  match prev with
  | None => True
  | Some pg => pair_reachable_with crossings pg g = true
  end ->
  validate_group_with crossings params prev g cull
    = (filter is_obstacle (snd g) ++ filter is_pickup (snd g), cull).
Proof.
  destruct g as [gt ge]. unfold group_safe, group_blocked, validate_group_with.
  cbn [fst snd]. intros Hsafe Hreach.
  rewrite enforce_min_safe_noop.
  2:{ unfold safe_count. apply Z.leb_le in Hsafe. apply Z.ltb_ge. lia. }
  destruct prev as [[pt pe]|].
  - unfold pair_reachable_with, group_blocked in Hreach.
    cbn [fst snd] in Hreach. rewrite Hreach.
    now rewrite rev_involutive.
  - now rewrite rev_involutive.
Qed.

Lemma validate_groups_with_playable crossings params gs :
  forall prev validated cull,
  forallb (group_safe (min_safe_lanes params)) gs = true ->
  match prev, gs with
  | Some pg, g :: _ => pair_reachable_with crossings pg g = true
  | _, _ => True
  end ->
  consecutive_reachable_with crossings gs = true ->
  validate_groups_with crossings params prev gs validated cull
    = (validated
         ++ concat (map (fun g => filter is_obstacle (snd g)
                                  ++ filter is_pickup (snd g)) gs),
       cull).
Proof.
  induction gs as [|g gs IH]; intros prev validated cull Hsafe Hprev Hchain.
  - simpl. now rewrite app_nil_r.
  - cbn [forallb] in Hsafe. apply andb_true_iff in Hsafe.
    destruct Hsafe as [Hg Hrest].
    cbn [validate_groups_with].
    rewrite validate_group_with_playable;
      [|exact Hg | destruct prev; [exact Hprev | exact I]].
    rewrite IH; trivial.
    + cbn [map concat]. now rewrite <- app_assoc.
    + destruct gs as [|g' gs']; trivial.
      cbn [consecutive_reachable_with] in Hchain.
      now apply andb_true_iff in Hchain.
    + destruct gs as [|g' gs']; trivial.
      cbn [consecutive_reachable_with] in Hchain.
      now apply andb_true_iff in Hchain.
Qed.

Lemma regroup_perm l :
  Permutation (filter is_obstacle l ++ filter is_pickup l) l.
Proof.
  induction l as [|e l IH]; simpl; [constructor|].
  unfold is_obstacle at 1. destruct (is_pickup e); simpl.
  - apply Permutation_sym, Permutation_cons_app, Permutation_sym, IH.
  - now constructor.
Qed.

Lemma concat_regroup_perm (gs : list TimeGroup) :
  Permutation
    (concat (map (fun g => filter is_obstacle (snd g)
                           ++ filter is_pickup (snd g)) gs))
    (flatten gs).
Proof.
  unfold flatten. induction gs as [|g gs IH]; simpl; [constructor|].
  apply Permutation_app; [apply regroup_perm | exact IH].
Qed.

(** X8.  Whatever the rounding of [int(time_gap / LANE_CROSS_TIME_S)]
    (the count [crossings] is left open), an event list that satisfies the
    safety invariant and whose consecutive time groups are reachable within
    the lane changes the validator counts between them goes through
    [validate_paths] with no cull: the result is a reordering of the
    input. *)
Theorem validate_paths_keeps_playable (crossings : Q -> Q -> Z)
    (events : list CourseEvent) (params : DifficultyParams) :
  safety_invariant (min_safe_lanes params) events = true ->
  reachability_invariant_with crossings events = true ->
  snd (validate_paths_with crossings events params) = 0
  /\ Permutation events (fst (validate_paths_with crossings events params)).
Proof.
  unfold safety_invariant, reachability_invariant_with, validate_paths_with.
  intros Hsafe Hreach. destruct events as [|e0 es] eqn:E.
  - split; [reflexivity | constructor].
  - rewrite <- E in *. clear E e0 es.
    rewrite validate_groups_with_playable; trivial.
    cbn [fst snd app]. split; [reflexivity|].
    eapply perm_trans; [|apply sort_by_t_perm].
    eapply perm_trans; [|apply Permutation_sym, concat_regroup_perm].
    rewrite flatten_time_groups. apply sort_by_t_perm.
Qed.

(** Groups at 2 s and 4 s: six lane changes, in doubles as in exact
    arithmetic. *)
Lemma validate_paths_keeps_playable_witness :
  snd (validate_paths_with exact_crossings playable_events preset_normal) = 0
  /\ Permutation playable_events
       (fst (validate_paths_with exact_crossings playable_events preset_normal)).
Proof.
  apply validate_paths_keeps_playable; reflexivity.
Defined.

(** The count decides: groups at 4.2 s and 4.5 s are one lane change apart
    in exact arithmetic and the crash in lane 0 stays; the doubles of the
    code count [int(0.9999999999999994) = 0] and the crash is culled. *)
Lemma validate_paths_on_a_tight_gap :
  validate_paths wall_then_crash preset_hard = (wall_then_crash, 0)
  /\ forall crossings, crossings 4.2%Q 4.5%Q = 0 ->
       validate_paths_with crossings wall_then_crash preset_hard
       = ([obstacle 4.2 1 "crash"; obstacle 4.2 2 "crash";
           obstacle 4.2 3 "crash"], 1).
Proof.
  split; [reflexivity|].
  intros crossings Hzero.
  vm_compute. rewrite Hzero. reflexivity.
Qed.

(** ** The cull count *)

Lemma validate_groups_cull_nonneg params gs : forall prev validated cull v' c',
  validate_groups params prev gs validated cull = (v', c') -> cull <= c'.
Proof.
  induction gs as [|g gs IH]; simpl; intros prev validated cull v' c' H.
  - inversion H; lia.
  - destruct (validate_group params prev g cull) as [kept cull1] eqn:Eg.
    apply validate_group_keeps in Eg. destruct Eg as (k & _ & -> & _).
    apply IH in H. lia.
Qed.

(** X9.  The cull count of [validate_paths] is the number of obstacle
    events that the output lacks: it is not negative, it is at most the
    number of obstacles of the input, and the output holds that many
    obstacles fewer. *)
Theorem validate_paths_cull_count (events : list CourseEvent)
    (params : DifficultyParams) :
  let validated := fst (validate_paths events params) in
  let cull_count := snd (validate_paths events params) in
  0 <= cull_count <= Z.of_nat (length (filter is_obstacle events))
  /\ Z.of_nat (length (filter is_obstacle validated)) + cull_count
     = Z.of_nat (length (filter is_obstacle events)).
Proof.
  cbv zeta. unfold validate_paths. destruct events as [|e0 es] eqn:E.
  - simpl. lia.
  - rewrite <- E. clear E e0 es.
    destruct (validate_groups params None (time_groups events) [] 0)
      as [validated cull] eqn:Ev.
    pose proof (validate_groups_cull_nonneg _ _ _ _ _ _ _ Ev) as Hnn.
    apply validate_groups_facts in Ev. destruct Ev as (Hlen & Hpk & _).
    rewrite flatten_time_groups in Hlen, Hpk.
    cbn [fst snd app length filter] in *.
    assert (Hp1 : length (filter is_pickup (sort_by_t validated))
                  = length (filter is_pickup validated))
      by (apply Permutation_length, filter_perm, Permutation_sym, sort_by_t_perm).
    assert (Hp2 : length (filter is_pickup (sort_by_t events))
                  = length (filter is_pickup events))
      by (apply Permutation_length, filter_perm, Permutation_sym, sort_by_t_perm).
    assert (Hl1 : length (sort_by_t validated) = length validated)
      by (apply Permutation_length, Permutation_sym, sort_by_t_perm).
    assert (Hl2 : length (sort_by_t events) = length events)
      by (apply Permutation_length, Permutation_sym, sort_by_t_perm).
    pose proof (filter_partition_length is_pickup (sort_by_t validated)) as Hq1.
    pose proof (filter_partition_length is_pickup events) as Hq2.
    change (fun x => negb (is_pickup x)) with is_obstacle in Hq1, Hq2.
    rewrite Hpk in Hp1. lia.
Qed.

(** ** The validator on groups with one obstacle per lane *)

Lemma blocked_fold_tracks obs : forall acc,
  NoDup acc ->
  NoDup (fold_left (fun bl e => set_add Z.eq_dec (lane e) bl) obs acc)
  /\ forall l,
       In l (fold_left (fun bl e => set_add Z.eq_dec (lane e) bl) obs acc)
       <-> In l acc \/ In l (map lane obs).
Proof.
  induction obs as [|e obs IH]; intros acc Hnd; simpl.
  - split; trivial. intros l. tauto.
  - destruct (IH (set_add Z.eq_dec (lane e) acc)) as [H1 H2].
    { now apply set_add_nodup. }
    split; trivial. intros l. rewrite H2, set_add_iff. split.
    + intros [[-> | H] | H]; auto.
    + intros [H | [<- | H]]; auto.
Qed.

Lemma blocked_lanes_of_tracks obs : tracks (blocked_lanes_of obs) obs.
Proof.
  destruct (blocked_fold_tracks obs (empty_set Z)) as [H1 H2]; [constructor|].
  split; trivial. intros l. rewrite H2. simpl. tauto.
Qed.

Lemma tracks_rev blocked obs : tracks blocked obs -> tracks blocked (rev obs).
Proof.
  intros [H1 H2]. split; trivial. intros l. rewrite H2, map_rev.
  split; intros H; [now apply in_rev in H | now apply in_rev].
Qed.

Lemma tracks_length blocked obs :
  NoDup (map lane obs) -> tracks blocked obs -> length blocked = length obs.
Proof.
  intros Hnd [H1 H2]. rewrite <- (length_map lane obs).
  apply Permutation_length. now apply NoDup_Permutation.
Qed.

Lemma tracks_pop blocked e robs :
  NoDup (map lane (e :: robs)) -> tracks blocked (e :: robs) ->
  tracks (set_remove Z.eq_dec (lane e) blocked) robs.
Proof.
  intros Hnd [H1 H2]. split; [now apply set_remove_nodup|].
  intros l. rewrite set_remove_iff by trivial. rewrite H2.
  simpl in Hnd |- *. apply NoDup_cons_iff in Hnd. destruct Hnd as [Hnotin _].
  split.
  - intros [[<- | H] Hne]; [congruence | trivial].
  - intros H. split; [now right|]. intros ->. contradiction.
Qed.

Lemma tracks_nil blocked : tracks blocked [] -> blocked = [].
Proof.
  intros [_ H]. destruct blocked as [|l b]; trivial.
  exfalso. apply (H l). now left.
Qed.

Lemma enforce_min_safe_tracks m robs : forall blocked cull r b c,
  NoDup (map lane robs) -> tracks blocked robs ->
  enforce_min_safe m robs blocked cull = (r, b, c) ->
  NoDup (map lane r) /\ tracks b r /\ (r = [] \/ m <= safe_count b).
Proof.
  induction robs as [|e robs IH]; simpl; intros blocked cull r b c Hnd Htr H.
  - inversion H; subst. repeat split; trivial; try apply Htr. now left.
  - destruct (safe_count blocked <? m) eqn:Hlt.
    + apply IH in H; trivial.
      * now apply NoDup_cons_iff in Hnd.
      * now apply tracks_pop.
    + inversion H; subst. repeat split; trivial; try apply Htr.
      right. now apply Z.ltb_ge in Hlt.
Qed.

Lemma set_remove_length_le a (l : set Z) :
  (length (set_remove Z.eq_dec a l) <= length l)%nat.
Proof.
  induction l as [|x l IH]; simpl; trivial.
  destruct (Z.eq_dec a x); simpl; lia.
Qed.

Lemma restore_reachability_tracks ps mlc robs : forall blocked cull r b c,
  NoDup (map lane robs) -> tracks blocked robs ->
  restore_reachability ps mlc robs blocked cull = (r, b, c) ->
  NoDup (map lane r) /\ tracks b r /\ (length b <= length blocked)%nat.
Proof.
  induction robs as [|e robs IH]; simpl; intros blocked cull r b c Hnd Htr H.
  - inversion H; subst. repeat split; trivial; apply Htr.
  - pose proof (tracks_pop _ _ _ Hnd Htr) as Hpop.
    pose proof (set_remove_length_le (lane e) blocked) as Hlen.
    assert (Hnd' : NoDup (map lane robs)) by now apply NoDup_cons_iff in Hnd.
    destruct (reachable _ _ _).
    + inversion H; subst. repeat split; trivial; apply Hpop.
    + apply IH in H; trivial. destruct H as (H1 & H2 & H3).
      repeat split; trivial; try apply H2. lia.
Qed.

Lemma filter_obstacle_id l :
  Forall (fun e => is_obstacle e = true) l -> filter is_obstacle l = l.
Proof.
  intros H. apply filter_all. now apply Forall_forall.
Qed.

Lemma filter_obstacle_pickups l : filter is_obstacle (filter is_pickup l) = [].
Proof.
  induction l as [|e l IH]; simpl; trivial.
  destruct (is_pickup e) eqn:E; simpl; trivial.
  unfold is_obstacle. now rewrite E.
Qed.

(** What one group keeps when its obstacles sit in distinct lanes: the
    kept obstacles block at most [4 - min_safe_lanes] lanes, and at least
    as many lanes are safe as the validator counted after its first loop. *)
Lemma validate_group_safe params prev g cull :
  min_safe_lanes params <= LANE_COUNT ->
  NoDup (map lane (filter is_obstacle (snd g))) ->
  group_safe (min_safe_lanes params)
             (fst g, fst (validate_group params prev g cull)) = true.
Proof.
  intros Hm Hnd. destruct g as [gt ge]. cbn [fst snd] in *.
  unfold validate_group.
  destruct (enforce_min_safe _ _ _ _) as [[r1 b1] c1] eqn:E1.
  assert (Hobs1 : Forall (fun e => is_obstacle e = true) r1).
  { apply enforce_min_safe_pops in E1. destruct E1 as (k & -> & _).
    apply Forall_skipn, Forall_rev, obstacles_of_group. }
  apply enforce_min_safe_tracks in E1.
  2:{ rewrite map_rev. now apply NoDup_rev. }
  2:{ apply tracks_rev, blocked_lanes_of_tracks. }
  destruct E1 as (Hnd1 & Htr1 & Hsafe1).
  assert (Hs1 : min_safe_lanes params <= safe_count b1).
  { destruct Hsafe1 as [-> | H]; trivial.
    apply tracks_nil in Htr1. subst b1. unfold safe_count. simpl. lia. }
  assert (Hfinal : forall r2 b2,
    NoDup (map lane r2) -> tracks b2 r2 -> (length b2 <= length b1)%nat ->
    Forall (fun e => is_obstacle e = true) r2 ->
    group_safe (min_safe_lanes params)
               (gt, rev r2 ++ filter is_pickup ge) = true).
  { intros r2 b2 Hnd2 Htr2 Hlen Hobs.
    unfold group_safe, group_blocked. cbn [snd].
    rewrite filter_app, filter_obstacle_pickups, app_nil_r.
    rewrite filter_obstacle_id by now apply Forall_rev.
    rewrite (tracks_length (blocked_lanes_of (rev r2)) (rev r2)).
    - rewrite length_rev, <- (tracks_length b2 r2) by trivial.
      apply Z.leb_le. unfold safe_count in Hs1. lia.
    - rewrite map_rev. now apply NoDup_rev.
    - apply blocked_lanes_of_tracks. }
  destruct prev as [[pt pe]|].
  - destruct (reachable _ _ _).
    + cbn [fst]. apply (Hfinal r1 b1); trivial.
    + destruct (restore_reachability _ _ _ _ _) as [[r2 b2] c2] eqn:E2.
      pose proof E2 as E2'. apply restore_reachability_tracks in E2; trivial.
      destruct E2 as (Hnd2 & Htr2 & Hlen).
      apply restore_reachability_pops in E2'. destruct E2' as (k & -> & _).
      cbn [fst]. apply (Hfinal _ b2); trivial. now apply Forall_skipn.
  - cbn [fst]. apply (Hfinal r1 b1); trivial.
Qed.

(** ** From the validator's groups to the groups of its output *)

Lemma sort_by_t_sorted_id l : StronglySorted le_t l -> sort_by_t l = l.
Proof.
  induction 1 as [|a l Hs IH Hall]; simpl; trivial.
  rewrite IH. destruct l as [|y l']; trivial. simpl.
  inversion Hall as [|? ? Hay _]; subst.
  apply Qle_bool_iff in Hay. now rewrite Hay.
Qed.

Lemma strongly_sorted_app_intro {A} (R : A -> A -> Prop) l l' :
  StronglySorted R l -> StronglySorted R l' ->
  (forall x y, In x l -> In y l' -> R x y) ->
  StronglySorted R (l ++ l').
Proof.
  induction 1 as [|a l Hs IH Hall]; intros Hs' Hrel; simpl; trivial.
  constructor.
  - apply IH; trivial. intros x y Hx Hy. apply Hrel; [now right | trivial].
  - apply Forall_app. split; trivial.
    apply Forall_forall. intros y Hy. apply Hrel; [now left | trivial].
Qed.

Lemma same_time_sorted (T : Q) (K : list CourseEvent) :
  Forall (fun e => (t e == T)%Q) K -> StronglySorted le_t K.
Proof.
  induction 1 as [|e K He Hall IH]; constructor; trivial.
  apply Forall_forall. intros y Hy. rewrite Forall_forall in Hall.
  unfold le_t. rewrite He, (Hall y Hy). apply Qle_refl.
Qed.

Lemma blocks_sorted (bs : list TimeGroup) :
  tight bs -> far_apart (map fst bs) ->
  StronglySorted le_t (concat (map snd bs)).
Proof.
  induction bs as [|b bs IH]; intros Ht Hf; simpl; [constructor|].
  inversion Ht as [|? ? Hb Ht']; subst.
  inversion Hf as [|? ? Hf' Hall]; subst.
  apply strongly_sorted_app_intro.
  - eapply same_time_sorted; eassumption.
  - now apply IH.
  - intros x y Hx Hy. apply in_concat in Hy. destruct Hy as (K & HK & Hy).
    apply in_map_iff in HK. destruct HK as (b' & <- & Hb').
    rewrite Forall_forall in Hb, Ht', Hall.
    specialize (Hb x Hx). specialize (Ht' b' Hb').
    rewrite Forall_forall in Ht'. specialize (Ht' y Hy).
    assert (Hfar : (fst b + 0.05 <= fst b')%Q) by (apply Hall; now apply in_map).
    unfold le_t. rewrite Hb, Ht'. Lqa.lra.
Qed.

Lemma join_all (K : list CourseEvent) : forall rest ct cur acc,
  Forall (fun e => (Qabs (t e - ct) < 0.05)%Q) K ->
  group_loop (K ++ rest) ct cur acc = group_loop rest ct (cur ++ K) acc.
Proof.
  induction K as [|e K IH]; intros rest ct cur acc Hall; cbn [app group_loop].
  - now rewrite app_nil_r.
  - inversion Hall as [|? ? He Hall']; subst.
    apply Qltb_lt in He. rewrite He, IH by trivial.
    now rewrite <- app_assoc.
Qed.

Lemma same_time_window (e : CourseEvent) (T : Q) (K : list CourseEvent) :
  (t e == T)%Q -> Forall (fun x => (t x == T)%Q) K ->
  Forall (fun x => (Qabs (t x - t e) < 0.05)%Q) K.
Proof.
  intros He Hall. eapply Forall_impl; [|exact Hall].
  intros x Hx. cbv beta in Hx.
  setoid_replace (t x - t e)%Q with 0%Q by (rewrite Hx, He; ring).
  reflexivity.
Qed.

Lemma later_opens (e : CourseEvent) (ct T : Q) :
  (t e == T)%Q -> (ct + 0.05 <= T)%Q -> Qltb (Qabs (t e - ct)) 0.05 = false.
Proof.
  intros He Hfar. apply Qltb_ge. rewrite Qabs_pos; Lqa.lra.
Qed.

(** Blocks that share a time stamp and are far apart come out of the
    grouping loop as they are, the empty ones apart. *)
Lemma blocks_groups (bs : list TimeGroup) : forall ct cur acc,
  tight bs -> far_apart (map fst bs) ->
  Forall (fun b => (ct + 0.05 <= fst b)%Q) bs ->
  cur <> [] ->
  exists gs',
    group_loop (concat (map snd bs)) ct cur acc = acc ++ (ct, cur) :: gs'
    /\ Forall (fun g' => exists b, In b bs /\ snd g' = snd b) gs'.
Proof.
  induction bs as [|b bs IH]; intros ct cur acc Ht Hf Hlater Hne.
  - exists []. simpl. destruct cur; [congruence|]. split; [reflexivity | constructor].
  - inversion Ht as [|? ? Hb Ht']; subst.
    inversion Hf as [|? ? Hf' Hall]; subst.
    inversion Hlater as [|? ? Hb0 Hlater']; subst.
    destruct b as [T K]. cbn [fst snd map concat] in *.
    destruct K as [|e K].
    + destruct (IH ct cur acc Ht' Hf' Hlater' Hne) as (gs' & Hrun & Hgs).
      exists gs'. split; [exact Hrun|].
      eapply Forall_impl; [|exact Hgs]. intros g' (b' & Hb' & Hs).
      exists b'. split; [now right | exact Hs].
    + inversion Hb as [|? ? He HK]; subst.
      cbn [app group_loop]. rewrite (later_opens e ct T He Hb0).
      rewrite join_all by (eapply same_time_window; eassumption).
      destruct (IH (t e) ([e] ++ K) (flush_group ct cur acc)) as (gs' & Hrun & Hgs);
        trivial.
      * rewrite Forall_forall in Hall |- *. intros b' Hb'.
        assert (H : (T + 0.05 <= fst b')%Q) by (apply Hall; now apply in_map).
        rewrite He. exact H.
      * discriminate.
      * exists ((t e, e :: K) :: gs'). split.
        -- rewrite Hrun. destruct cur; [congruence|]. cbn [flush_group app].
           now rewrite <- app_assoc.
        -- constructor.
           ++ exists (T, e :: K). split; [now left | reflexivity].
           ++ eapply Forall_impl; [|exact Hgs]. intros g' (b' & Hb' & Hs).
              exists b'. split; [now right | exact Hs].
Qed.

Lemma blocks_time_groups (bs : list TimeGroup) :
  tight bs -> far_apart (map fst bs) ->
  Forall (fun b => Forall (fun e => (0 <= t e)%Q) (snd b)) bs ->
  Forall (fun g' => exists b, In b bs /\ snd g' = snd b)
         (group_loop (concat (map snd bs)) (-999) [] []).
Proof.
  induction bs as [|b bs IH]; intros Ht Hf Hpos; [constructor|].
  inversion Ht as [|? ? Hb Ht']; subst.
  inversion Hf as [|? ? Hf' Hall]; subst.
  inversion Hpos as [|? ? Hb0 Hpos']; subst.
  destruct b as [T K]. cbn [fst snd map concat] in *.
  destruct K as [|e K].
  - eapply Forall_impl; [|apply IH; trivial]. intros g' (b' & Hb' & Hs).
    exists b'. split; [now right | exact Hs].
  - inversion Hb as [|? ? He HK]; subst.
    inversion Hb0 as [|? ? He0 _]; subst.
    cbn [app group_loop].
    assert (Hopen : Qltb (Qabs (t e - -999)) 0.05 = false).
    { apply Qltb_ge. rewrite Qabs_pos; Lqa.lra. }
    rewrite Hopen. cbn [flush_group].
    rewrite join_all by (eapply same_time_window; eassumption).
    destruct (blocks_groups bs (t e) ([e] ++ K) []) as (gs' & Hrun & Hgs);
      trivial.
    + rewrite Forall_forall in Hall |- *. intros b' Hb'.
      assert (H : (T + 0.05 <= fst b')%Q) by (apply Hall; now apply in_map).
      rewrite He. exact H.
    + discriminate.
    + rewrite Hrun. cbn [app]. constructor.
      * exists (T, e :: K). split; [now left | reflexivity].
      * eapply Forall_impl; [|exact Hgs]. intros g' (b' & Hb' & Hs).
        exists b'. split; [now right | exact Hs].
Qed.

Lemma spaced_far_apart (gs : list TimeGroup) :
  spaced gs -> far_apart (map fst gs).
Proof.
  unfold far_apart. induction gs as [|g gs IH]; intros Hsp; [constructor|].
  destruct gs as [|g' gs'].
  - repeat constructor.
  - destruct Hsp as [Hgg' Hsp]. specialize (IH Hsp).
    cbn [map] in *. constructor; trivial.
    inversion IH as [|? ? _ Hall]; subst. constructor; trivial.
    eapply Forall_impl; [|exact Hall]. intros c Hc. cbv beta in Hc. Lqa.lra.
Qed.

(** The validated list, before its final sort, is what each group keeps,
    group after group. *)
Lemma validate_groups_blocks params gs : forall prev validated cull v' c',
  validate_groups params prev gs validated cull = (v', c') ->
  exists bs,
    v' = validated ++ concat (map snd bs)
    /\ Forall2 (fun g b =>
         fst b = fst g
         /\ exists prev' c0, snd b = fst (validate_group params prev' g c0))
       gs bs.
Proof.
  induction gs as [|g gs IH]; simpl; intros prev validated cull v' c' H.
  - inversion H; subst. exists []. simpl. now rewrite app_nil_r.
  - destruct (validate_group params prev g cull) as [kept cull1] eqn:Eg.
    apply IH in H. destruct H as (bs & -> & Hall).
    exists ((fst g, kept) :: bs). split.
    + simpl. now rewrite <- app_assoc.
    + constructor; trivial. split; [reflexivity|].
      exists prev, cull. cbn [snd]. now rewrite Eg.
Qed.

Lemma group_safe_snd m g g' :
  snd g = snd g' -> group_safe m g = group_safe m g'.
Proof. unfold group_safe, group_blocked. now intros ->. Qed.

(** X10.  On clustered input (times not negative, one time stamp per time
    group, the obstacles of a group in pairwise distinct lanes) and with
    [min_safe_lanes] at most 4, the list that [validate_paths] returns
    satisfies the safety invariant: each of its time groups leaves at
    least [min_safe_lanes] safe lanes. *)
Theorem validate_paths_safe_on_clusters (events : list CourseEvent)
    (params : DifficultyParams) :
  min_safe_lanes params <= LANE_COUNT ->
  clustered events ->
  safety_invariant (min_safe_lanes params) (fst (validate_paths events params))
    = true.
Proof.
  intros Hm [Hpos Hcl]. unfold validate_paths.
  destruct events as [|e0 es] eqn:E; [reflexivity|].
  rewrite <- E in *. clear E e0 es.
  destruct (validate_groups params None (time_groups events) [] 0)
    as [validated cull] eqn:Ev.
  apply validate_groups_blocks in Ev. destruct Ev as (bs & -> & Hbs).
  cbn [fst app].
  destruct (time_groups_windows events) as [_ Hsp].
  pose proof (flatten_time_groups events) as Hflat.
  (* the blocks inherit the shape of the groups *)
  assert (Htimes : map fst bs = map fst (time_groups events)).
  { clear - Hbs. induction Hbs as [|g b gs bs' [Hfst _] _ IH]; simpl; congruence. }
  assert (Hprops : Forall (fun b =>
            Forall (fun e => (t e == fst b)%Q) (snd b)
            /\ Forall (fun e => (0 <= t e)%Q) (snd b)
            /\ group_safe (min_safe_lanes params) b = true) bs).
  { assert (Hin : forall g, In g (time_groups events) ->
              Forall (fun e => (0 <= t e)%Q) (snd g)).
    { intros g Hg. apply Forall_forall. intros e He.
      rewrite Forall_forall in Hpos. apply Hpos.
      apply (Permutation_in _ (Permutation_sym (sort_by_t_perm events))).
      rewrite <- Hflat. unfold flatten. apply in_concat.
      exists (snd g). split; [now apply in_map | exact He]. }
    clear - Hbs Hcl Hm Hin.
    induction Hbs as [|g b gs bs' [Hfst (prev' & c0 & Hsnd)] _ IH];
      [constructor|].
    inversion Hcl as [|? ? [Htight Hnd] Hcl']; subst.
    constructor.
    - assert (Hincl : incl (snd b) (snd g)).
      { rewrite Hsnd.
        destruct (validate_group params prev' g c0) as [kept c1] eqn:Eg.
        apply validate_group_facts in Eg. apply Eg. }
      repeat split.
      + apply Forall_forall. intros e He. rewrite Forall_forall in Htight.
        rewrite Hfst. apply Htight, Hincl, He.
      + apply Forall_forall. intros e He.
        specialize (Hin g (or_introl eq_refl)).
        rewrite Forall_forall in Hin. apply Hin, Hincl, He.
      + rewrite (group_safe_snd _ b
                   (fst g, fst (validate_group params prev' g c0)))
          by exact Hsnd.
        now apply validate_group_safe.
    - apply IH; trivial. intros g' Hg'. apply Hin. now right. }
  assert (Htight : tight bs).
  { eapply Forall_impl; [|exact Hprops]. now intros b [H _]. }
  assert (Hfar : far_apart (map fst bs)).
  { rewrite Htimes. now apply spaced_far_apart. }
  assert (Hnonneg : Forall (fun b => Forall (fun e => (0 <= t e)%Q) (snd b)) bs).
  { eapply Forall_impl; [|exact Hprops]. now intros b (_ & H & _). }
  pose proof (blocks_sorted bs Htight Hfar) as Hsorted.
  unfold safety_invariant, time_groups.
  rewrite !(sort_by_t_sorted_id _ Hsorted).
  apply forallb_forall. intros g' Hg'.
  pose proof (blocks_time_groups bs Htight Hfar Hnonneg) as Hgroups.
  rewrite Forall_forall in Hgroups.
  destruct (Hgroups g' Hg') as (b & Hb & Hs).
  rewrite (group_safe_snd _ g' b Hs).
  rewrite Forall_forall in Hprops. now apply Hprops.
Qed.

Lemma validate_paths_safe_on_clusters_witness :
  safety_invariant (min_safe_lanes preset_easy)
    (fst (validate_paths clustered_events preset_easy)) = true.
Proof.
  apply validate_paths_safe_on_clusters.
  - unfold LANE_COUNT. simpl. lia.
  - split.
    + repeat constructor; discriminate.
    + repeat constructor; simpl; try reflexivity; intuition discriminate.
Defined.

(** ** The adaptive adjustment *)

Ltac rule_case rule :=
  unfold rule;
  match goal with
  | |- context [Rltb ?x ?y] => destruct (Rltb x y)
  end;
  cbn.

Ltac each_rule tac :=
  first [ rule_case adjust_flow | rule_case adjust_curve
        | rule_case adjust_variety | rule_case adjust_coverage
        | rule_case adjust_energy | rule_case adjust_cull ];
  tac.

(** What no rule touches. *)
Lemma adjust_rules_fixed
    (rule : ScoreBreakdown -> DifficultyParams -> DifficultyParams)
    (scores : ScoreBreakdown) (p : DifficultyParams) :
  In rule [adjust_flow; adjust_curve; adjust_variety; adjust_coverage;
           adjust_energy; adjust_cull] ->
  beat_skip (rule scores p) = beat_skip p
  /\ max_per_cluster (rule scores p) = max_per_cluster p
  /\ min_safe_lanes (rule scores p) = min_safe_lanes p
  /\ cluster2_energy (rule scores p) = cluster2_energy p
  /\ cluster3_energy (rule scores p) = cluster3_energy p.
Proof.
  intros Hin. cbn [In] in Hin.
  repeat (destruct Hin as [<- | Hin];
          [each_rule ltac:(repeat split; reflexivity)|]).
  contradiction.
Qed.

(** X11.  [adjust_params] never changes [beat_skip], [max_per_cluster],
    [min_safe_lanes], [cluster2_energy] or [cluster3_energy], whatever
    the scores are. *)
Theorem adjust_params_fixed_fields (params : DifficultyParams)
    (scores : ScoreBreakdown) :
  let p := adjust_params params scores in
  beat_skip p = beat_skip params
  /\ max_per_cluster p = max_per_cluster params
  /\ min_safe_lanes p = min_safe_lanes params
  /\ cluster2_energy p = cluster2_energy params
  /\ cluster3_energy p = cluster3_energy params.
Proof.
  unfold adjust_params. cbv zeta.
  pose proof (fun rule p => adjust_rules_fixed rule scores p) as Hfix.
  destruct (Hfix adjust_flow params) as (A1 & B1 & C1 & D1 & E1);
    [cbn; tauto|].
  destruct (Hfix adjust_curve (adjust_flow scores params))
    as (A2 & B2 & C2 & D2 & E2); [cbn; tauto|].
  destruct (Hfix adjust_variety
              (adjust_curve scores (adjust_flow scores params)))
    as (A3 & B3 & C3 & D3 & E3); [cbn; tauto|].
  destruct (Hfix adjust_coverage
              (adjust_variety scores
                 (adjust_curve scores (adjust_flow scores params))))
    as (A4 & B4 & C4 & D4 & E4); [cbn; tauto|].
  destruct (Hfix adjust_energy
              (adjust_coverage scores
                 (adjust_variety scores
                    (adjust_curve scores (adjust_flow scores params)))))
    as (A5 & B5 & C5 & D5 & E5); [cbn; tauto|].
  destruct (Hfix adjust_cull
              (adjust_energy scores
                 (adjust_coverage scores
                    (adjust_variety scores
                       (adjust_curve scores (adjust_flow scores params))))))
    as (A6 & B6 & C6 & D6 & E6); [cbn; tauto|].
  clear Hfix.
  repeat split; congruence.
Qed.

Lemma Rmax_ge_l a b : (a <= Rmax a b)%R.
Proof. apply Rbasic_fun.Rmax_l. Qed.

Lemma Rmin_le_l a b : (Rmin a b <= a)%R.
Proof. apply Rbasic_fun.Rmin_l. Qed.

Lemma clamp_pickup a : (0.08 <= Rmax 0.08 (Rmin 0.45 a) <= 0.45)%R.
Proof.
  split; [apply Rmax_ge_l|].
  apply Rmax_lub; [lra | apply Rmin_le_l].
Qed.

(** Each rule keeps the limits of all of them. *)
Lemma adjust_rules_within_clamps
    (rule : ScoreBreakdown -> DifficultyParams -> DifficultyParams)
    (scores : ScoreBreakdown) (p : DifficultyParams) :
  In rule [adjust_flow; adjust_curve; adjust_variety; adjust_coverage;
           adjust_energy; adjust_cull] ->
  within_clamps p -> within_clamps (rule scores p).
Proof.
  intros Hin. unfold within_clamps.
  intros (Hn & Hp & Ha & Hc & Hpk & Hf & Hi & Hd & H2 & H3).
  unfold LANE_COUNT in *. cbn [In] in Hin.
  repeat (destruct Hin as [<- | Hin];
          [each_rule ltac:(repeat match goal with
                                  | |- _ /\ _ => split
                                  end;
                           try assumption;
                           try apply Rmax_ge_l; try apply Rmin_le_l;
                           try apply clamp_pickup; try lia; try lra)|]).
  contradiction.
Qed.

(** X12.  The limits of the rules are an invariant of [adjust_params]:
    parameters within them stay within them, whatever the scores are. *)
Theorem adjust_params_within_clamps (params : DifficultyParams)
    (scores : ScoreBreakdown) :
  within_clamps params -> within_clamps (adjust_params params scores).
Proof.
  intros Hw. unfold adjust_params.
  repeat (apply adjust_rules_within_clamps; [cbn; tauto|]).
  exact Hw.
Qed.

Lemma adjust_params_within_clamps_witness :
  within_clamps (adjust_params preset_normal mediocre_scores).
Proof.
  apply adjust_params_within_clamps.
  unfold within_clamps, preset_normal, LANE_COUNT. cbn.
  repeat match goal with
         | |- _ /\ _ => split
         end; try lia; lra.
Defined.

(** Only the variety rule moves the obstacle weights. *)
Lemma adjust_rules_weights
    (rule : ScoreBreakdown -> DifficultyParams -> DifficultyParams)
    (scores : ScoreBreakdown) (p : DifficultyParams) :
  In rule [adjust_flow; adjust_curve; adjust_coverage; adjust_energy;
           adjust_cull] ->
  type_weights (rule scores p) = type_weights p.
Proof.
  intros Hin. cbn [In] in Hin.
  repeat (destruct Hin as [<- | Hin]; [each_rule ltac:(reflexivity)|]).
  contradiction.
Qed.

Lemma adjust_params_weights (params : DifficultyParams)
    (scores : ScoreBreakdown) :
  type_weights (adjust_params params scores) = type_weights params
  \/ (type_variety scores < 9)%R
     /\ type_weights (adjust_params params scores)
        = map (fun w =>
                 let avg_w := (Rsum (type_weights params) / 3)%R in
                 (w + (avg_w - w) * 0.08 * (10 - type_variety scores))%R)
              (type_weights params).
Proof.
  unfold adjust_params.
  rewrite 3!adjust_rules_weights by (cbn; tauto).
  pose proof (adjust_rules_weights adjust_flow scores params) as Hf.
  pose proof (adjust_rules_weights adjust_curve scores
                (adjust_flow scores params)) as Hc.
  rewrite Hf in Hc by (cbn; tauto).
  specialize (Hc ltac:(cbn; tauto)).
  set (p := adjust_curve scores (adjust_flow scores params)) in *.
  rewrite <- Hc.
  unfold adjust_variety.
  destruct (Rltb (type_variety scores) 9) eqn:Ev.
  - right. split.
    + unfold Rltb in Ev. destruct (Rlt_dec (type_variety scores) 9);
        [assumption | discriminate].
    + unfold type_weights, Rsum; cbn;
        (f_equal; [lra | f_equal; [lra | f_equal; lra]]).
  - now left.
Qed.

(** X13.  With a type-variety score between 0 and 10 and three positive
    obstacle weights, [adjust_params] leaves the three weights positive
    and their sum as it was (over the reals, the model of the floats). *)
Theorem adjust_params_type_mix (params : DifficultyParams)
    (scores : ScoreBreakdown) :
  (0 <= type_variety scores <= 10)%R ->
  Forall (fun w => (0 < w)%R) (type_weights params) ->
  Forall (fun w => (0 < w)%R) (type_weights (adjust_params params scores))
  /\ Rsum (type_weights (adjust_params params scores))
     = Rsum (type_weights params).
Proof.
  intros Hs Hpos.
  destruct (adjust_params_weights params scores) as [-> | [Hlt ->]];
    [split; trivial|].
  unfold type_weights in *.
  inversion Hpos as [|? ? H1 Hpos1]; subst.
  inversion Hpos1 as [|? ? H2 Hpos2]; subst.
  inversion Hpos2 as [|? ? H3 _]; subst.
  unfold Rsum. cbn [map fold_right].
  set (a := crash_weight params) in *.
  set (b := car_weight params) in *.
  set (c := slow_weight params) in *.
  set (d := (10 - type_variety scores)%R).
  assert (Hd : (1 < d <= 10)%R) by (unfold d; lra).
  clearbody a b c d.
  split; [|lra].
  repeat constructor; nra.
Qed.

Lemma adjust_params_type_mix_witness :
  Forall (fun w => (0 < w)%R)
         (type_weights (adjust_params preset_hard mediocre_scores))
  /\ Rsum (type_weights (adjust_params preset_hard mediocre_scores))
     = Rsum (type_weights preset_hard).
Proof.
  apply adjust_params_type_mix.
  - cbn. lra.
  - unfold type_weights, preset_hard. cbn. repeat constructor; lra.
Defined.

(** ** Rhythm-zone post-processing *)

Lemma py_round_between (n m : Z) (x : Q) :
  (inject_Z n <= x <= inject_Z m)%Q -> n <= py_round x <= m.
Proof.
  intros [Hn Hm]. unfold py_round.
  assert (Hf1 : n <= Qfloor x).
  { rewrite <- (Qfloor_Z n). now apply Qfloor_resp_le. }
  assert (Hf2 : Qfloor x <= m).
  { rewrite <- (Qfloor_Z m). now apply Qfloor_resp_le. }
  pose proof (Qfloor_le x) as Hfl.
  assert (Hup : (1 # 2 <= x - inject_Z (Qfloor x))%Q -> Qfloor x + 1 <= m).
  { intros Hd.
    assert (Hlt : (inject_Z (Qfloor x) < inject_Z m)%Q) by Lqa.lra.
    rewrite <- Zlt_Qlt in Hlt. lia. }
  destruct (Qltb (x - inject_Z (Qfloor x)) (1 # 2)) eqn:E1; [lia|].
  apply Qltb_ge in E1. specialize (Hup E1).
  destruct (Qltb (1 # 2) (x - inject_Z (Qfloor x))); [lia|].
  destruct (Z.even (Qfloor x)); lia.
Qed.

Lemma inv_1000 : (/ 1000 == 1 # 1000)%Q.
Proof. reflexivity. Qed.

Lemma py_round3_between (n m : Z) (x : Q) :
  (inject_Z n / 1000 <= x <= inject_Z m / 1000)%Q ->
  (inject_Z n / 1000 <= py_round3 x <= inject_Z m / 1000)%Q.
Proof.
  intros [Hn Hm]. unfold py_round3.
  unfold Qdiv in *. rewrite inv_1000 in *.
  destruct (py_round_between n m (x * 1000)) as [H1 H2].
  { split; Lqa.lra. }
  rewrite Zle_Qle in H1, H2. split; Lqa.lra.
Qed.

Lemma min_by_key_in {A} (key : A -> Q) (l : list A) : forall best,
  In (min_by_key key best l) (best :: l).
Proof.
  induction l as [|x l IH]; intros best; simpl; [now left|].
  destruct (IH (if Qltb (key x) (key best) then x else best)) as [Hb | Hl].
  - destruct (Qltb (key x) (key best)); rewrite <- Hb; [right; now left | now left].
  - right. now right.
Qed.

Section PostProcessingFacts.
Context {Rng : Type} `{RandomSource Rng}.

Lemma car_crash_loop_adds (bts : list Q) (prob : Q) :
  forall car_events rng new_events new' rng',
  car_crash_loop car_events bts prob rng new_events = (new', rng') ->
  exists added,
    new' = new_events ++ added
    /\ (length added <= length car_events)%nat
    /\ Forall (fun e =>
         type e = "car_crash_beat"
         /\ exists car_ev b l,
              In car_ev car_events /\ lane e = lane car_ev
              /\ In b bts /\ (1 <= t car_ev - b <= 3)%Q
              /\ t e = py_round3 b
              /\ lead e = Some l /\ (0.79 <= l <= 1.49)%Q) added.
Proof.
  induction car_events as [|car_ev rest IH]; intros rng new_events new' rng' Hrun.
  - cbn [car_crash_loop] in Hrun. inversion Hrun; subst.
    exists []. rewrite app_nil_r. repeat split; [apply Nat.le_refl | constructor].
  - cbn [car_crash_loop] in Hrun.
    destruct (rng_random rng) as [u rng1].
    assert (Hskip : forall new0,
              car_crash_loop rest bts prob rng1 new0 = (new', rng') ->
              forall pre, new0 = new_events ++ pre -> (length pre <= 1)%nat ->
              Forall (fun e =>
                type e = "car_crash_beat"
                /\ exists car_ev0 b l,
                     In car_ev0 (car_ev :: rest) /\ lane e = lane car_ev0
                     /\ In b bts /\ (1 <= t car_ev0 - b <= 3)%Q
                     /\ t e = py_round3 b
                     /\ lead e = Some l /\ (0.79 <= l <= 1.49)%Q) pre ->
              exists added,
                new' = new_events ++ added
                /\ (length added <= length (car_ev :: rest))%nat
                /\ Forall (fun e =>
                     type e = "car_crash_beat"
                     /\ exists car_ev0 b l,
                          In car_ev0 (car_ev :: rest) /\ lane e = lane car_ev0
                          /\ In b bts /\ (1 <= t car_ev0 - b <= 3)%Q
                          /\ t e = py_round3 b
                          /\ lead e = Some l /\ (0.79 <= l <= 1.49)%Q) added).
    { intros new0 Hrest pre -> Hlen Hpre.
      destruct (IH _ _ _ _ Hrest) as (added & -> & Hla & Hadded).
      exists (pre ++ added). rewrite app_assoc. split; [reflexivity|]. split.
      - rewrite length_app. cbn [length]. lia.
      - apply Forall_app. split; trivial.
        eapply Forall_impl; [|exact Hadded].
        intros e (Hty & c & b & l & Hc & Hrest').
        split; trivial. exists c, b, l. split; [now right | exact Hrest']. }
    destruct (Qltb prob u).
    { apply (Hskip _ Hrun []); [now rewrite app_nil_r | cbn; lia | constructor]. }
    destruct (filter (fun b => Qle_bool 1 (t car_ev - b) && Qle_bool (t car_ev - b) 3) bts)
      as [|b0 bs] eqn:Ecand.
    { apply (Hskip _ Hrun []); [now rewrite app_nil_r | cbn; lia | constructor]. }
    set (collision_t := min_by_key (fun b => Qabs (t car_ev - b - 2)) b0 bs) in *.
    assert (Hin : In collision_t
                    (filter (fun b => Qle_bool 1 (t car_ev - b)
                                      && Qle_bool (t car_ev - b) 3) bts)).
    { rewrite Ecand. apply min_by_key_in. }
    apply filter_In in Hin. destruct Hin as [Hbeat Hwin].
    apply andb_true_iff in Hwin. destruct Hwin as [Hlo Hhi].
    apply Qle_bool_iff in Hlo, Hhi.
    destruct (Qle_bool (SPAWN_X - (KILL_ZONE_X + CAR_SPEED * (t car_ev - collision_t))) 0).
    { apply (Hskip _ Hrun []); [now rewrite app_nil_r | cbn; lia | constructor]. }
    apply (Hskip _ Hrun
             [mkEvent (py_round3 collision_t) (lane car_ev) "car_crash_beat"
                (Some (py_round3 ((SPAWN_X - (KILL_ZONE_X + CAR_SPEED
                                     * (t car_ev - collision_t))) / ROAD_BASE_SPEED)))]);
      [reflexivity | cbn; lia |].
    constructor; [|constructor]. split; [reflexivity|].
    exists car_ev, collision_t,
      (py_round3 ((SPAWN_X - (KILL_ZONE_X + CAR_SPEED * (t car_ev - collision_t)))
                  / ROAD_BASE_SPEED)).
    repeat (split; [first [now left | reflexivity | assumption | now split]|]).
    assert (Hb : (inject_Z 790 / 1000 <=
                  (SPAWN_X - (KILL_ZONE_X + CAR_SPEED * (t car_ev - collision_t)))
                  / ROAD_BASE_SPEED <= inject_Z 1490 / 1000)%Q).
    { unfold SPAWN_X, KILL_ZONE_X, CAR_SPEED, ROAD_BASE_SPEED, CAR_SPEED_FACTOR,
             GAME_WIDTH, OBSTACLE_SPAWN_MARGIN.
      set (d := (t car_ev - collision_t)%Q) in *. clearbody d.
      clear - Hlo Hhi.
      change (inject_Z 790 / 1000)%Q with (790 # 1000)%Q.
      change (inject_Z 1490 / 1000)%Q with (1490 # 1000)%Q.
      unfold Qdiv. change (/ 1000)%Q with (1 # 1000)%Q. split; Lqa.lra. }
    apply py_round3_between in Hb. destruct Hb as [Hb1 Hb2].
    split.
    { apply (Qle_trans _ (inject_Z 790 / 1000)); [discriminate | exact Hb1]. }
    apply (Qle_trans _ (inject_Z 1490 / 1000)); [exact Hb2 | discriminate].
Qed.

Lemma add_car_crash_beats_facts (events : list CourseEvent) (bd : BeatData)
    (rng : Rng) (car_crash_prob : Q) :
  let out := fst (add_car_crash_beats events bd rng car_crash_prob) in
  StronglySorted le_t out
  /\ exists new_events,
       Permutation out (events ++ new_events)
       /\ Forall (crash_beat_for events bd) new_events
       /\ (length new_events
           <= length (filter (fun e => String.eqb (type e) "car") events))%nat.
Proof.
  unfold add_car_crash_beats.
  destruct (car_crash_loop (filter (fun e => String.eqb (type e) "car") events)
              (beats bd) car_crash_prob rng []) as [new_events rng'] eqn:Erun.
  cbn [fst]. split; [apply sort_by_t_strongly_sorted|].
  destruct (car_crash_loop_adds _ _ _ _ _ _ _ Erun) as (added & -> & Hlen & Hall).
  exists added. cbn [app]. split; [|split; trivial].
  - apply Permutation_sym, sort_by_t_perm.
  - eapply Forall_impl; [|exact Hall].
    intros e (Hty & c & b & l & Hc & Hrest). split; trivial.
    apply filter_In in Hc. destruct Hc as [Hc Hcar].
    apply String.eqb_eq in Hcar.
    exists c, b, l. repeat (split; [assumption|]). exact Hrest.
Qed.

(** X14.  [add_car_crash_beats] keeps every event it is given and returns
    the list sorted by time.  What it adds are [car_crash_beat] events, at
    most one per car: each in the lane of a car of the input, timed on a
    beat that lies one to three seconds before that car, with a lead
    between 0.79 s and 1.49 s. *)
Theorem add_car_crash_beats_adds (events : list CourseEvent) (bd : BeatData)
    (rng : Rng) (car_crash_prob : Q) :
  let out := fst (add_car_crash_beats events bd rng car_crash_prob) in
  StronglySorted le_t out
  /\ exists new_events,
       Permutation out (events ++ new_events)
       /\ Forall (crash_beat_for events bd) new_events
       /\ (length new_events
           <= length (filter (fun e => String.eqb (type e) "car") events))%nat.
Proof. apply add_car_crash_beats_facts. Qed.

End PostProcessingFacts.

Section RhythmZoneFacts.
Context {Rng : Type} `{RandomSource Rng}.

Lemma guardian_loop_adds (prob : Q) :
  forall pickup_events rng new_guardians new' rng',
  guardian_loop pickup_events prob rng new_guardians = (new', rng') ->
  exists added,
    new' = new_guardians ++ added
    /\ (length added <= length pickup_events)%nat
    /\ Forall (fun e =>
         type e = "guardian" /\ lead e = None /\ (INTRO_SKIP_S <= t e)%Q
         /\ exists pickup_ev,
              In pickup_ev pickup_events /\ lane e = lane pickup_ev) added.
Proof.
  induction pickup_events as [|pickup_ev rest IH];
    intros rng new_guardians new' rng' Hrun.
  - cbn [guardian_loop] in Hrun. inversion Hrun; subst.
    exists []. rewrite app_nil_r. repeat split; [apply Nat.le_refl | constructor].
  - cbn [guardian_loop] in Hrun.
    assert (Hskip : forall rng0,
              guardian_loop rest prob rng0 new_guardians = (new', rng') ->
              exists added,
                new' = new_guardians ++ added
                /\ (length added <= length (pickup_ev :: rest))%nat
                /\ Forall (fun e =>
                     type e = "guardian" /\ lead e = None
                     /\ (INTRO_SKIP_S <= t e)%Q
                     /\ exists p,
                          In p (pickup_ev :: rest) /\ lane e = lane p) added).
    { intros rng0 Hrest.
      destruct (IH _ _ _ _ Hrest) as (added & -> & Hla & Hadded).
      exists added. split; [reflexivity|]. split; [cbn [length]; lia|].
      eapply Forall_impl; [|exact Hadded].
      intros e (Hty & Hld & Ht & p & Hp & Hl).
      repeat (split; [assumption|]). exists p. split; [now right | exact Hl]. }
    destruct (rng_random rng) as [u rng1].
    destruct (Qltb prob u); [now apply (Hskip rng1)|].
    destruct (rng_random rng1) as [v rng2].
    destruct (Qltb (py_round3 (t pickup_ev - (0.3 + v * 0.5))) INTRO_SKIP_S) eqn:Eearly;
      [now apply (Hskip rng2)|].
    apply Qltb_ge in Eearly.
    destruct (IH _ _ _ _ Hrun) as (added & -> & Hla & Hadded).
    exists (mkEvent (py_round3 (t pickup_ev - (0.3 + v * 0.5))) (lane pickup_ev)
              "guardian" None :: added).
    split; [now rewrite <- app_assoc|]. split; [cbn [length]; lia|].
    constructor.
    + repeat (split; [first [reflexivity | assumption]|]).
      exists pickup_ev. split; [now left | reflexivity].
    + eapply Forall_impl; [|exact Hadded].
      intros e (Hty & Hld & Ht & p & Hp & Hl).
      repeat (split; [assumption|]). exists p. split; [now right | exact Hl].
Qed.

Lemma add_guardians_facts (events : list CourseEvent) (rng : Rng)
    (guardian_prob : Q) :
  let out := fst (add_guardians events rng guardian_prob) in
  StronglySorted le_t out
  /\ exists new_guardians,
       Permutation out (events ++ new_guardians)
       /\ Forall (guardian_for events) new_guardians
       /\ (length new_guardians
           <= length (filter (fun e => String.eqb (type e) "pickup_ammo")
                             events))%nat.
Proof.
  unfold add_guardians.
  destruct (guardian_loop
              (filter (fun e => String.eqb (type e) "pickup_ammo") events)
              guardian_prob rng []) as [new_guardians rng'] eqn:Erun.
  cbn [fst]. split; [apply sort_by_t_strongly_sorted|].
  destruct (guardian_loop_adds _ _ _ _ _ _ Erun) as (added & -> & Hlen & Hall).
  exists added. cbn [app]. split; [|split; trivial].
  - apply Permutation_sym, sort_by_t_perm.
  - eapply Forall_impl; [|exact Hall].
    intros e (Hty & Hld & Ht & p & Hp & Hl).
    apply filter_In in Hp. destruct Hp as [Hp Hammo].
    apply String.eqb_eq in Hammo.
    repeat (split; [assumption|]). exists p. now repeat split.
Qed.

(** X15.  [add_guardians] keeps every event it is given and returns the
    list sorted by time.  What it adds are [guardian] events without a
    lead, at most one per [pickup_ammo]: each in the lane of a
    [pickup_ammo] of the input and never before the end of the intro
    (4 s). *)
Theorem add_guardians_adds (events : list CourseEvent) (rng : Rng)
    (guardian_prob : Q) :
  let out := fst (add_guardians events rng guardian_prob) in
  StronglySorted le_t out
  /\ exists new_guardians,
       Permutation out (events ++ new_guardians)
       /\ Forall (guardian_for events) new_guardians
       /\ (length new_guardians
           <= length (filter (fun e => String.eqb (type e) "pickup_ammo")
                             events))%nat.
Proof. apply add_guardians_facts. Qed.

(** An event that is not a car is handed on as it is. *)
Lemma enemy_car_of_kept_in events bd (pre done : list CourseEvent) :
  Forall2 (enemy_car_of events bd) pre done ->
  forall c, In c pre -> type c = "car_crash_beat" -> In c done.
Proof.
  induction 1 as [|e e' pre done Hrel _ IH]; intros c Hc Hty; [contradiction|].
  destruct Hc as [<- | Hc].
  - left. destruct Hrel as [-> | (Hcar & _)]; [reflexivity|].
    rewrite Hty in Hcar. discriminate.
  - right. now apply IH.
Qed.

Lemma enemy_loop_converts (events : list CourseEvent) (bd : BeatData)
    (prob : Q) (bts : list Q) :
  bts = beats bd ->
  forall todo pre done rng out rng',
  events = pre ++ todo ->
  Forall2 (enemy_car_of events bd) pre done ->
  enemy_loop done todo bts prob rng = (out, rng') ->
  Forall2 (enemy_car_of events bd) events out.
Proof.
  intros Ebts.
  induction todo as [|car_ev rest IH]; intros pre done rng out rng' Hev Hrel Hrun.
  - cbn [enemy_loop] in Hrun. rewrite app_nil_r in Hev.
    inversion Hrun; subst. exact Hrel.
  - assert (Hkeep : forall rng0,
              enemy_loop (done ++ [car_ev]) rest bts prob rng0 = (out, rng') ->
              Forall2 (enemy_car_of events bd) events out).
    { intros rng0 Hrest.
      apply (IH (pre ++ [car_ev]) (done ++ [car_ev]) rng0 out rng');
        [now rewrite <- app_assoc | | exact Hrest].
      apply Forall2_app; [exact Hrel|]. constructor; [now left | constructor]. }
    cbn [enemy_loop] in Hrun.
    destruct (String.eqb (type car_ev) "car") eqn:Ecar; [|now apply (Hkeep rng)].
    apply String.eqb_eq in Ecar.
    destruct (rng_random rng) as [u rng1].
    destruct (Qltb prob u); [now apply (Hkeep rng1)|].
    destruct (existsb _ (done ++ car_ev :: rest)) eqn:Ecrash;
      [now apply (Hkeep rng1)|].
    assert (Hsnap : forall b0 bs, bts = b0 :: bs ->
              In (min_by_key
                    (fun b => Qabs (b - (t car_ev
                                         - (SWEET_SPOT_X - KILL_ZONE_X) / CAR_SPEED)))
                    b0 bs) (beats bd)).
    { intros b0 bs E. rewrite <- Ebts, E. apply min_by_key_in. }
    destruct bts as [|b0 bs]; [now apply (Hkeep rng1)|].
    specialize (Hsnap b0 bs eq_refl).
    set (sweet := (t car_ev - (SWEET_SPOT_X - KILL_ZONE_X) / CAR_SPEED)%Q) in *.
    set (snap_t := min_by_key (fun b => Qabs (b - sweet)) b0 bs) in *.
    destruct (Qltb 0.5 (Qabs (snap_t - sweet))) eqn:Efar;
      [now apply (Hkeep rng1)|].
    apply Qltb_ge in Efar.
    apply (IH (pre ++ [car_ev])
              (done ++ [mkEvent (py_round3 snap_t) (lane car_ev) "enemy_car"
                          (lead car_ev)]) rng1 out rng');
      [now rewrite <- app_assoc | | exact Hrun].
    apply Forall2_app; [exact Hrel|]. constructor; [|constructor].
    right. repeat (split; [first [reflexivity | assumption]|]). split.
    + exists snap_t. split; [exact Hsnap | split; [reflexivity | exact Efar]].
    + intros c Hc Hty Hlane.
      assert (Hin : In c (done ++ car_ev :: rest)).
      { rewrite Hev in Hc. apply in_app_or in Hc. apply in_or_app.
        destruct Hc as [Hc | Hc]; [left | now right].
        eapply enemy_car_of_kept_in; eassumption. }
      destruct (Qltb (Qabs (t c - t car_ev)) 4) eqn:Enear;
        [|now apply Qltb_ge in Enear].
      exfalso.
      assert (Hex : existsb (fun e => String.eqb (type e) "car_crash_beat"
                                      && (lane e =? lane car_ev)
                                      && Qltb (Qabs (t e - t car_ev)) 4)
                            (done ++ car_ev :: rest) = true).
      { apply existsb_exists. exists c. split; [exact Hin|].
        rewrite Hty, Hlane, Z.eqb_refl, Enear. reflexivity. }
      rewrite Hex in Ecrash. discriminate.
Qed.

Lemma add_enemy_cars_facts (events : list CourseEvent) (bd : BeatData)
    (rng : Rng) (enemy_prob : Q) :
  let out := fst (add_enemy_cars events bd rng enemy_prob) in
  StronglySorted le_t out
  /\ exists events',
       Permutation out events'
       /\ Forall2 (enemy_car_of events bd) events events'.
Proof.
  unfold add_enemy_cars.
  destruct (enemy_loop [] events (beats bd) enemy_prob rng)
    as [events' rng'] eqn:Erun.
  cbn [fst]. split; [apply sort_by_t_strongly_sorted|].
  exists events'. split; [apply Permutation_sym, sort_by_t_perm|].
  apply (enemy_loop_converts events bd enemy_prob (beats bd) eq_refl
           events [] [] rng events' rng');
    [reflexivity | constructor | exact Erun].
Qed.

(** X16.  [add_enemy_cars] returns, sorted by time, a list that matches
    its input event for event: each event is left as it is, or it is a
    [car] that comes back as an [enemy_car] with the same lane and lead,
    timed on a beat within 0.5 s of the car's arrival at the sweet spot,
    and then no [car_crash_beat] of the input lies in its lane within
    4 s of it.  Events that are not cars are never changed. *)
Theorem add_enemy_cars_converts (events : list CourseEvent) (bd : BeatData)
    (rng : Rng) (enemy_prob : Q) :
  let out := fst (add_enemy_cars events bd rng enemy_prob) in
  StronglySorted le_t out
  /\ exists events',
       Permutation out events'
       /\ Forall2 (enemy_car_of events bd) events events'.
Proof. apply add_enemy_cars_facts. Qed.

End RhythmZoneFacts.

(** ** The steps of [generate_events] *)

Lemma candidate_loop_window (p_end : Q) (skip : Z) :
  forall bts i cands,
  candidate_loop bts i p_end skip = Some cands ->
  Forall (fun b => In b bts /\ (playable_start <= b)%Q /\ (b <= p_end)%Q) cands
  /\ (length cands <= length bts)%nat.
Proof.
  induction bts as [|b rest IH]; intros i cands Hrun; cbn [candidate_loop] in Hrun.
  - inversion Hrun; subst. split; [constructor | apply Nat.le_refl].
  - assert (Hlift : forall cs,
              Forall (fun b0 => In b0 rest /\ (playable_start <= b0)%Q
                                /\ (b0 <= p_end)%Q) cs ->
              Forall (fun b0 => In b0 (b :: rest) /\ (playable_start <= b0)%Q
                                /\ (b0 <= p_end)%Q) cs).
    { intros cs Hcs. eapply Forall_impl; [|exact Hcs].
      intros b0 (Hin & Hw). split; [now right | exact Hw]. }
    destruct (Qltb b playable_start || Qltb p_end b) eqn:Eout.
    + destruct (IH _ _ Hrun) as [Hall Hlen].
      split; [now apply Hlift | cbn [length]; lia].
    + apply orb_false_iff in Eout. destruct Eout as [Elo Ehi].
      apply Qltb_ge in Elo, Ehi.
      destruct (skip =? 0); [discriminate|].
      destruct (candidate_loop rest (i + 1) p_end skip) as [cs|] eqn:Erest;
        [|discriminate].
      destruct (IH _ _ Erest) as [Hall Hlen].
      inversion Hrun; subst. destruct (i mod skip =? 0).
      * split; [|cbn [length]; lia].
        constructor; [|now apply Hlift].
        split; [now left | now split].
      * split; [now apply Hlift | cbn [length]; lia].
Qed.

Lemma candidate_loop_returns (p_end : Q) (skip : Z) :
  skip <> 0 ->
  forall bts i, exists cands, candidate_loop bts i p_end skip = Some cands.
Proof.
  intros Hskip. induction bts as [|b rest IH]; intros i; cbn [candidate_loop].
  - now exists [].
  - destruct (Qltb b playable_start || Qltb p_end b); [apply IH|].
    apply Z.eqb_neq in Hskip. rewrite Hskip.
    destruct (IH (i + 1)) as [cs ->]. eexists. reflexivity.
Qed.

Lemma candidate_loop_raises (p_end : Q) :
  forall bts i,
  candidate_loop bts i p_end 0 = None
  <-> exists b, In b bts /\ (playable_start <= b)%Q /\ (b <= p_end)%Q.
Proof.
  induction bts as [|b rest IH]; intros i; cbn [candidate_loop].
  - split; [discriminate | intros (b & [] & _)].
  - destruct (Qltb b playable_start || Qltb p_end b) eqn:Eout.
    + rewrite IH. split.
      * intros (b0 & Hin & Hw). exists b0. split; [now right | exact Hw].
      * intros (b0 & [<- | Hin] & Hlo & Hhi).
        -- exfalso. apply orb_true_iff in Eout.
           destruct Eout as [E | E]; apply Qltb_lt in E; Lqa.lra.
        -- exists b0. now repeat split.
    + cbn [Z.eqb]. split; [intros _ | reflexivity].
      apply orb_false_iff in Eout. destruct Eout as [Elo Ehi].
      apply Qltb_ge in Elo, Ehi. exists b. split; [now left | now split].
Qed.

(** X17.  With a stride [beat_skip] other than 0, step 1 of
    [generate_events] returns its candidate beats, no more of them than
    the map has beats, and each is a beat of the map inside the playable
    window: not before [INTRO_SKIP_S] and not after
    [duration_s - OUTRO_SKIP_S]. *)
Theorem candidate_beats_in_window (bd : BeatData) (params : DifficultyParams) :
  beat_skip params <> 0 ->
  exists cands,
    candidate_beats bd params = Some cands
    /\ Forall (playable_beat bd) cands
    /\ (length cands <= length (beats bd))%nat.
Proof.
  intros Hskip. unfold candidate_beats.
  destruct (candidate_loop_returns (playable_end bd) _ Hskip (beats bd) 0)
    as [cands Hrun].
  exists cands. split; [exact Hrun|].
  now apply candidate_loop_window in Hrun.
Qed.

Lemma candidate_beats_in_window_witness :
  exists cands,
    candidate_beats four_beat_map preset_normal = Some cands
    /\ Forall (playable_beat four_beat_map) cands
    /\ (length cands <= length (beats four_beat_map))%nat.
Proof.
  apply candidate_beats_in_window. simpl. lia.
Defined.

(** X18.  With a stride [beat_skip] of 0, step 1 of [generate_events]
    raises (the [ZeroDivisionError] of [i % params.beat_skip]) exactly
    when some beat of the map lies inside the playable window; a map
    without such a beat gives no candidates and no error. *)
Theorem candidate_beats_zero_stride (bd : BeatData) (params : DifficultyParams) :
  beat_skip params = 0 ->
  (candidate_beats bd params = None <-> exists b, playable_beat bd b)
  /\ ((forall b, ~ playable_beat bd b) -> candidate_beats bd params = Some []).
Proof.
  intros Hskip. unfold candidate_beats. rewrite Hskip.
  split; [apply candidate_loop_raises|].
  intros Hnone.
  destruct (candidate_loop (beats bd) 0 (playable_end bd) 0) as [cands|] eqn:Erun.
  - destruct (candidate_loop_window _ _ _ _ _ Erun) as [Hall _].
    destruct cands as [|b cs]; [reflexivity|].
    inversion Hall as [|? ? Hb _]; subst.
    exfalso. apply (Hnone b). exact Hb.
  - apply candidate_loop_raises in Erun. destruct Erun as (b & Hb).
    exfalso. apply (Hnone b). exact Hb.
Qed.

Lemma candidate_beats_zero_stride_witness :
  (candidate_beats four_beat_map zero_stride = None
   <-> exists b, playable_beat four_beat_map b)
  /\ ((forall b, ~ playable_beat four_beat_map b) ->
      candidate_beats four_beat_map zero_stride = Some []).
Proof.
  apply candidate_beats_zero_stride. reflexivity.
Defined.

(** ** The lanes of a cluster *)

Lemma insert_by_perm {A} (leb : A -> A -> bool) x l :
  Permutation (x :: l) (insert_by leb x l).
Proof.
  induction l as [|y l IH]; simpl; [apply Permutation_refl|].
  destruct (leb x y); [apply Permutation_refl|].
  eapply perm_trans; [apply perm_swap|]. now apply perm_skip.
Qed.

Lemma sort_by_perm {A} (leb : A -> A -> bool) l :
  Permutation l (sort_by leb l).
Proof.
  induction l as [|x l IH]; simpl; [constructor|].
  eapply perm_trans; [|apply insert_by_perm]. now apply perm_skip.
Qed.

Lemma py_prefix_firstn {A} (l : list A) k :
  exists n, py_prefix l k = firstn n l.
Proof. unfold py_prefix. destruct (0 <=? k); eexists; reflexivity. Qed.

Lemma firstn_NoDup {A} n (l : list A) : NoDup l -> NoDup (firstn n l).
Proof.
  intros Hnd. rewrite <- (firstn_skipn n l) in Hnd.
  now apply NoDup_app_remove_r in Hnd.
Qed.

Lemma firstn_incl {A} n (l : list A) : incl (firstn n l) l.
Proof.
  intros x Hx. rewrite <- (firstn_skipn n l). apply in_or_app. now left.
Qed.

(** X19.  For a primary lane among the four and [min_safe_lanes] at most
    3, the lanes of a cluster are pairwise distinct lanes among the four,
    the primary lane first, and there are at most
    [LANE_COUNT - min_safe_lanes] of them and at most [cluster_size]
    (one, for a size below 1): a generated cluster leaves
    [min_safe_lanes] lanes free. *)
Theorem cluster_lanes_distinct (primary_lane cluster_size : Z)
    (counts : list Z) (params : DifficultyParams) :
  0 <= primary_lane <= 3 ->
  min_safe_lanes params <= 3 ->
  let lanes := cluster_lanes primary_lane cluster_size counts params in
  hd_error lanes = Some primary_lane
  /\ NoDup lanes
  /\ Forall (fun l => 0 <= l <= 3) lanes
  /\ Z.of_nat (length lanes) <= LANE_COUNT - min_safe_lanes params
  /\ Z.of_nat (length lanes) <= Z.max 1 cluster_size.
Proof.
  intros Hp Hm. unfold cluster_lanes, LANE_COUNT.
  destruct (1 <? cluster_size) eqn:Ecs.
  2:{ apply Z.ltb_ge in Ecs. cbn [hd_error length].
      repeat split; try lia.
      - constructor; [intros [] | constructor].
      - constructor; [lia | constructor]. }
  apply Z.ltb_lt in Ecs.
  set (key_le := fun a b : Z => _).
  set (available := sort_by key_le
                      (filter (fun l => negb (l =? primary_lane)) [0; 1; 2; 3])).
  assert (Hperm : Permutation
                    (filter (fun l => negb (l =? primary_lane)) [0; 1; 2; 3])
                    available) by apply sort_by_perm.
  assert (Hlen : length available = 3%nat).
  { rewrite <- (Permutation_length Hperm).
    assert (Hcase : primary_lane = 0 \/ primary_lane = 1 \/ primary_lane = 2
                    \/ primary_lane = 3) by lia.
    destruct Hcase as [-> | [-> | [-> | ->]]]; reflexivity. }
  assert (Hnd : NoDup available).
  { eapply Permutation_NoDup; [exact Hperm|].
    apply NoDup_filter. repeat constructor; simpl; intuition lia. }
  assert (Hin : forall l, In l available -> 0 <= l <= 3 /\ l <> primary_lane).
  { intros l Hl. apply (Permutation_in _ (Permutation_sym Hperm)) in Hl.
    apply filter_In in Hl. destruct Hl as [Hl Hne].
    apply negb_true_iff, Z.eqb_neq in Hne. simpl in Hl. lia. }
  rewrite Hlen.
  set (extra := Z.min (Z.min (cluster_size - 1) (4 - min_safe_lanes params - 1))
                      (Z.of_nat 3)).
  assert (Hextra : 0 <= extra) by (unfold extra; lia).
  unfold py_prefix. apply Z.leb_le in Hextra. rewrite Hextra.
  apply Z.leb_le in Hextra.
  cbn [hd_error length].
  assert (Hfl : (length (firstn (Z.to_nat extra) available) <= Z.to_nat extra)%nat)
    by apply firstn_le_length.
  split; [reflexivity|]. split; [|split; [|split]].
  - constructor; [|now apply firstn_NoDup].
    intros Hc. apply firstn_incl in Hc. apply Hin in Hc. lia.
  - constructor; [lia|]. apply Forall_forall. intros l Hl.
    apply firstn_incl in Hl. now apply Hin in Hl.
  - unfold extra in *. lia.
  - unfold extra in *. lia.
Qed.

Lemma cluster_lanes_distinct_witness :
  let lanes := cluster_lanes 1 3 [0; 0; 0; 0] preset_normal in
  hd_error lanes = Some 1
  /\ NoDup lanes
  /\ Forall (fun l => 0 <= l <= 3) lanes
  /\ Z.of_nat (length lanes) <= LANE_COUNT - min_safe_lanes preset_normal
  /\ Z.of_nat (length lanes) <= Z.max 1 3.
Proof.
  apply cluster_lanes_distinct; simpl; lia.
Defined.

(** ** The events of [generate_events] *)

Lemma incr_at_length : forall i counts counts',
  incr_at i counts = Some counts' -> length counts' = length counts.
Proof.
  induction i as [|i IH]; intros [|c rest] counts' Hinc; cbn in Hinc;
    try discriminate.
  - now inversion Hinc.
  - destruct (incr_at i rest) as [r|] eqn:E; [|discriminate].
    cbn in Hinc. inversion Hinc; subst. cbn. f_equal. now apply IH.
Qed.

Lemma incr_lane_length counts l counts' :
  incr_lane counts l = Some counts' -> length counts' = length counts.
Proof.
  unfold incr_lane. destruct (0 <=? l); [apply incr_at_length|].
  destruct (0 <=? Z.of_nat (length counts) + l);
    [apply incr_at_length | discriminate].
Qed.

Lemma argmin_key_range : forall keys i best_i best,
  0 <= best_i < i ->
  0 <= argmin_key keys i best_i best < i + Z.of_nat (length keys).
Proof.
  induction keys as [|k rest IH]; intros i best_i best Hb; cbn [argmin_key length].
  - lia.
  - destruct (key_lt k best).
    + specialize (IH (i + 1) i k). lia.
    + specialize (IH (i + 1) best_i best). lia.
Qed.

Lemma cluster_lanes_range primary_lane cluster_size counts params :
  0 <= primary_lane <= 3 ->
  Forall (fun l => 0 <= l <= 3)
         (cluster_lanes primary_lane cluster_size counts params).
Proof.
  intros Hp. unfold cluster_lanes.
  destruct (1 <? cluster_size); [|now repeat constructor].
  constructor; [exact Hp|].
  destruct (py_prefix_firstn
              (sort_by
                 (fun a b =>
                    (fst (Z.abs (a - primary_lane), nth (Z.to_nat a) counts 0)
                     <? fst (Z.abs (b - primary_lane), nth (Z.to_nat b) counts 0))
                    || ((fst (Z.abs (a - primary_lane), nth (Z.to_nat a) counts 0)
                         =? fst (Z.abs (b - primary_lane), nth (Z.to_nat b) counts 0))
                        && (snd (Z.abs (a - primary_lane), nth (Z.to_nat a) counts 0)
                            <=? snd (Z.abs (b - primary_lane),
                                     nth (Z.to_nat b) counts 0))))
                 (filter (fun l => negb (l =? primary_lane)) [0; 1; 2; 3]))
              (Z.min (Z.min (cluster_size - 1)
                            (LANE_COUNT - min_safe_lanes params - 1))
                     (Z.of_nat (length
                        (sort_by
                           (fun a b =>
                              (fst (Z.abs (a - primary_lane), nth (Z.to_nat a) counts 0)
                               <? fst (Z.abs (b - primary_lane), nth (Z.to_nat b) counts 0))
                              || ((fst (Z.abs (a - primary_lane), nth (Z.to_nat a) counts 0)
                                   =? fst (Z.abs (b - primary_lane),
                                           nth (Z.to_nat b) counts 0))
                                  && (snd (Z.abs (a - primary_lane),
                                           nth (Z.to_nat a) counts 0)
                                      <=? snd (Z.abs (b - primary_lane),
                                               nth (Z.to_nat b) counts 0))))
                           (filter (fun l => negb (l =? primary_lane))
                                   [0; 1; 2; 3]))))))
    as [n ->].
  apply Forall_forall. intros l Hl. apply firstn_incl in Hl.
  apply (Permutation_in _ (Permutation_sym (sort_by_perm _ _))) in Hl.
  apply filter_In in Hl. destruct Hl as [Hl _]. simpl in Hl. lia.
Qed.

Section GenerationFacts.
Context {Rng : Type} `{RandomSource Rng}.

Lemma bind_some {A B : Type} (m : Gen A) (k : A -> Gen B) (rng : Rng) r :
  bind m k rng = Some r ->
  exists a rng1, m rng = Some (a, rng1) /\ k a rng1 = Some r.
Proof.
  unfold bind. destruct (m rng) as [[a rng1]|]; [|discriminate].
  intros Hk. now exists a, rng1.
Qed.

Lemma ret_some {A : Type} (a b : A) (rng rng' : Rng) :
  ret a rng = Some (b, rng') -> b = a /\ rng' = rng.
Proof. unfold ret. intros Hr. now inversion Hr. Qed.

Lemma lift_some {A : Type} (o : option A) (a : A) (rng rng' : Rng) :
  lift o rng = Some (a, rng') -> o = Some a /\ rng' = rng.
Proof.
  unfold lift. destruct o; [|discriminate]. intros Hr. now inversion Hr.
Qed.

Lemma wave_lane_range event_index params (rng rng' : Rng) l :
  wave_lane event_index params rng = Some (l, rng') -> 0 <= l <= 3.
Proof.
  unfold wave_lane. intros Hrun.
  apply bind_some in Hrun. destruct Hrun as (u & rng1 & _ & Hrun).
  apply bind_some in Hrun. destruct Hrun as (base & rng2 & _ & Hrun).
  apply ret_some in Hrun. destruct Hrun as [-> _]. unfold LANE_COUNT. lia.
Qed.

Lemma pick_type_obstacle bass_val perc_val harm_val params (rng rng' : Rng) ty :
  pick_type bass_val perc_val harm_val params false rng = Some (ty, rng') ->
  In ty ["crash"; "car"; "slow"].
Proof.
  unfold pick_type. intros Hrun.
  apply bind_some in Hrun. destruct Hrun as (early & rng1 & Hearly & Hrun).
  assert (Hcase : early = None \/ early = Some "crash" \/ early = Some "car").
  { destruct (Qeq_bool _ bass_val && Qltb 0.3 bass_val).
    - apply bind_some in Hearly. destruct Hearly as (u & r & _ & Hearly).
      apply ret_some in Hearly. destruct Hearly as [-> _].
      destruct (Qltb u 0.55); auto.
    - destruct (Qeq_bool _ perc_val && Qltb 0.3 perc_val).
      + apply bind_some in Hearly. destruct Hearly as (u & r & _ & Hearly).
        apply ret_some in Hearly. destruct Hearly as [-> _].
        destruct (Qltb u 0.45); auto.
      + apply ret_some in Hearly. destruct Hearly as [-> _]. auto. }
  destruct Hcase as [-> | [-> | ->]].
  - apply bind_some in Hrun. destruct Hrun as (roll & rng2 & _ & Hrun).
    destruct (Req_dec_T _ 0); [discriminate|].
    destruct (Rltb _ _).
    + apply ret_some in Hrun. destruct Hrun as [-> _]. simpl; auto.
    + destruct (Rltb _ _); apply ret_some in Hrun; destruct Hrun as [-> _];
        simpl; auto.
  - apply ret_some in Hrun. destruct Hrun as [-> _]. simpl; auto.
  - apply ret_some in Hrun. destruct Hrun as [-> _]. simpl; auto.
Qed.

Lemma pickup_lane_keys_length : forall counts (rng rng' : Rng) keys,
  pickup_lane_keys counts rng = Some (keys, rng') ->
  length keys = length counts.
Proof.
  induction counts as [|c rest IH]; intros rng rng' keys Hrun;
    cbn [pickup_lane_keys] in Hrun.
  - apply ret_some in Hrun. now destruct Hrun as [-> _].
  - apply bind_some in Hrun. destruct Hrun as (u & rng1 & _ & Hrun).
    apply bind_some in Hrun. destruct Hrun as (ks & rng2 & Hks & Hrun).
    apply ret_some in Hrun. destruct Hrun as [-> _].
    cbn [length]. f_equal. eapply IH; eassumption.
Qed.

Lemma least_used_lane_range counts (rng rng' : Rng) l :
  least_used_lane counts rng = Some (l, rng') ->
  0 <= l < Z.of_nat (length counts).
Proof.
  unfold least_used_lane. intros Hrun.
  apply bind_some in Hrun. destruct Hrun as (keys & rng1 & Hkeys & Hrun).
  apply pickup_lane_keys_length in Hkeys.
  destruct keys as [|k rest]; [discriminate|].
  apply ret_some in Hrun. destruct Hrun as [-> _].
  rewrite <- Hkeys. cbn [length].
  pose proof (argmin_key_range rest 1 0 k). lia.
Qed.

Lemma place_obstacles_adds (tm bass_val perc_val harm_val : Q) params :
  forall lanes events counts (rng rng' : Rng) placed,
  place_obstacles lanes tm bass_val perc_val harm_val params events counts rng
    = Some (placed, rng') ->
  length (snd placed) = length counts
  /\ exists added,
       fst placed = events ++ added
       /\ Forall (fun e => t e = tm /\ In (lane e) lanes /\ lead e = None
                           /\ In (type e) ["crash"; "car"; "slow"]) added.
Proof.
  induction lanes as [|l rest IH]; intros events counts rng rng' placed Hrun;
    cbn [place_obstacles] in Hrun.
  - apply ret_some in Hrun. destruct Hrun as [-> _]. cbn [fst snd].
    split; [reflexivity|]. exists []. now rewrite app_nil_r.
  - apply bind_some in Hrun. destruct Hrun as (etype & rng1 & Hty & Hrun).
    apply pick_type_obstacle in Hty.
    apply bind_some in Hrun. destruct Hrun as (counts' & rng2 & Hinc & Hrun).
    apply lift_some in Hinc. destruct Hinc as [Hinc _].
    apply incr_lane_length in Hinc.
    destruct (IH _ _ _ _ _ Hrun) as (Hlen & added & Hfst & Hall).
    split; [congruence|].
    exists (mkEvent tm l etype None :: added). split.
    + rewrite Hfst, <- app_assoc. reflexivity.
    + constructor.
      * cbn. repeat split; auto.
      * eapply Forall_impl; [|exact Hall].
        intros e (Ht & Hl & Hrest). split; [exact Ht|]. split; [now right | exact Hrest].
Qed.

Lemma assign_loop_shape bd params pickups wave_offset :
  forall selected i obstacle_wave_idx events counts (rng rng' : Rng) out,
  assign_loop selected i bd params pickups wave_offset obstacle_wave_idx
              events counts rng = Some (out, rng') ->
  Forall (fun sb => playable_beat bd (scored_time sb)) selected ->
  length counts = 4%nat ->
  Forall (generated_event bd) events ->
  Forall (generated_event bd) out.
Proof.
  induction selected as [|sb rest IH];
    intros i owi events counts rng rng' out Hrun Hsel Hlen Hev;
    cbn [assign_loop] in Hrun.
  - apply ret_some in Hrun. now destruct Hrun as [-> _].
  - inversion Hsel as [|? ? Hsb Hrest]; subst.
    apply bind_some in Hrun. destruct Hrun as (bass_val & r1 & _ & Hrun).
    apply bind_some in Hrun. destruct Hrun as (perc_val & r2 & _ & Hrun).
    apply bind_some in Hrun. destruct Hrun as (harm_val & r3 & _ & Hrun).
    destruct (set_mem Z.eq_dec i pickups).
    + apply bind_some in Hrun. destruct Hrun as (pickup_lane & r4 & Hlane & Hrun).
      apply least_used_lane_range in Hlane. rewrite Hlen in Hlane.
      apply bind_some in Hrun. destruct Hrun as (u & r5 & _ & Hrun).
      apply bind_some in Hrun. destruct Hrun as (counts' & r6 & Hinc & Hrun).
      apply lift_some in Hinc. destruct Hinc as [Hinc _].
      apply incr_lane_length in Hinc.
      apply (IH _ _ _ _ _ _ _ Hrun Hrest); [congruence|].
      apply Forall_app. split; [exact Hev|]. constructor; [|constructor].
      unfold generated_event. cbn [lane lead type t].
      split; [lia|]. split; [reflexivity|]. split.
      * destruct (Qltb 0.3 u); simpl; tauto.
      * exists (scored_time sb). now split.
    + apply bind_some in Hrun. destruct Hrun as (cluster_size & r4 & _ & Hrun).
      apply bind_some in Hrun. destruct Hrun as (primary_lane & r5 & Hwave & Hrun).
      apply wave_lane_range in Hwave.
      apply bind_some in Hrun. destruct Hrun as (placed & r6 & Hplace & Hrun).
      apply place_obstacles_adds in Hplace.
      destruct Hplace as (Hlen' & added & Hfst & Hadded).
      apply (IH _ _ _ _ _ _ _ Hrun Hrest); [congruence|].
      rewrite Hfst. apply Forall_app. split; [exact Hev|].
      pose proof (cluster_lanes_range primary_lane cluster_size counts params Hwave)
        as Hrange.
      rewrite Forall_forall in Hrange.
      eapply Forall_impl; [|exact Hadded].
      intros e (Ht & Hl & Hld & Hty). unfold generated_event.
      split; [now apply Hrange|]. split; [exact Hld|]. split.
      * simpl in Hty |- *. intuition.
      * exists (scored_time sb). now split.
Qed.

Lemma score_beats_times bd params (P : Q -> Prop) :
  forall s_beats scored (rng rng' : Rng) out,
  score_beats s_beats bd params scored rng = Some (out, rng') ->
  Forall P s_beats ->
  Forall (fun sb => P (scored_time sb)) scored ->
  Forall (fun sb => P (scored_time sb)) out.
Proof.
  induction s_beats as [|bt rest IH]; intros scored rng rng' out Hrun Hs Hsc;
    cbn [score_beats] in Hrun.
  - apply ret_some in Hrun. now destruct Hrun as [-> _].
  - inversion Hs as [|? ? Hbt Hrest]; subst.
    apply bind_some in Hrun. destruct Hrun as (e_val & r1 & _ & Hrun).
    destruct (Rltb (Q2R e_val) (energy_floor params));
      [now apply (IH _ _ _ _ Hrun)|].
    apply bind_some in Hrun. destruct Hrun as (u & r2 & _ & Hrun).
    apply (IH _ _ _ _ Hrun Hrest).
    apply Forall_app. split; [exact Hsc|]. now repeat constructor.
Qed.

Lemma select_section_times bd params (P : Q -> Prop) s_beats quota
    (rng rng' : Rng) picked :
  select_section bd params s_beats quota rng = Some (picked, rng') ->
  Forall P s_beats ->
  Forall (fun sb => P (scored_time sb)) picked.
Proof.
  unfold select_section. intros Hrun Hs.
  destruct s_beats as [|b0 bs].
  { apply ret_some in Hrun. destruct Hrun as [-> _]. constructor. }
  destruct (quota <=? 0).
  { apply ret_some in Hrun. destruct Hrun as [-> _]. constructor. }
  apply bind_some in Hrun. destruct Hrun as (scored & r1 & Hscored & Hrun).
  apply ret_some in Hrun. destruct Hrun as [-> _].
  apply (score_beats_times bd params P) in Hscored; [|exact Hs | constructor].
  rewrite Forall_forall in Hscored. apply Forall_forall. intros sb Hsb.
  apply Hscored.
  apply (Permutation_in _ (Permutation_sym (sort_by_perm _ _))) in Hsb.
  destruct (py_prefix_firstn
              (sort_by (fun a b => Rleb (- scored_score a) (- scored_score b))
                       scored) quota) as [n Hn].
  rewrite Hn in Hsb. apply firstn_incl in Hsb.
  now apply (Permutation_in _ (Permutation_sym (sort_by_perm _ _))) in Hsb.
Qed.

Lemma select_beats_times bd params (P : Q -> Prop) :
  forall sections selected (rng rng' : Rng) out,
  select_beats bd params sections selected rng = Some (out, rng') ->
  Forall (fun sq => Forall P (fst sq)) sections ->
  Forall (fun sb => P (scored_time sb)) selected ->
  Forall (fun sb => P (scored_time sb)) out.
Proof.
  induction sections as [|[s_beats quota] rest IH];
    intros selected rng rng' out Hrun Hs Hsel; cbn [select_beats] in Hrun.
  - apply ret_some in Hrun. now destruct Hrun as [-> _].
  - inversion Hs as [|? ? Hsb Hrest]; subst.
    apply bind_some in Hrun. destruct Hrun as (picked & r1 & Hpicked & Hrun).
    apply (select_section_times bd params P) in Hpicked; [|exact Hsb].
    apply (IH _ _ _ _ Hrun Hrest).
    apply Forall_app. now split.
Qed.

Lemma generate_events_facts bd params (rng rng' : Rng) events :
  generate_events bd params rng = Some (events, rng') ->
  Forall (generated_event bd) events.
Proof.
  unfold generate_events. intros Hrun.
  apply bind_some in Hrun. destruct Hrun as (cands & r1 & Hcands & Hrun).
  apply lift_some in Hcands. destruct Hcands as [Hcands _].
  apply candidate_loop_window in Hcands. destruct Hcands as [Hwin _].
  fold (playable_end bd) in Hwin.
  destruct cands as [|c0 cs].
  { apply ret_some in Hrun. destruct Hrun as [-> _]. constructor. }
  apply bind_some in Hrun. destruct Hrun as (se & r2 & _ & Hrun).
  apply bind_some in Hrun. destruct Hrun as (selected & r3 & Hsel & Hrun).
  apply bind_some in Hrun. destruct Hrun as (pickups & r4 & _ & Hrun).
  apply bind_some in Hrun. destruct Hrun as (wave_offset & r5 & _ & Hrun).
  apply (select_beats_times bd params (playable_beat bd)) in Hsel;
    [| |constructor].
  - apply (assign_loop_shape _ _ _ _ _ _ _ _ _ _ _ _ Hrun Hsel);
      [reflexivity | constructor].
  - apply Forall_forall. intros sq Hsq. apply in_map_iff in Hsq.
    destruct Hsq as (s & <- & _). cbn [fst]. unfold section_beats.
    apply Forall_forall. intros b Hb. apply filter_In in Hb.
    destruct Hb as [Hb _]. rewrite Forall_forall in Hwin.
    exact (Hwin b Hb).
Qed.

End GenerationFacts.

(** ** A run of [generate_events] on a single beat *)

Lemma Rltb_false_of x y : (y <= x)%R -> Rltb x y = false.
Proof. intros Hle. unfold Rltb. destruct (Rlt_dec x y); [lra | reflexivity]. Qed.

Lemma Rltb_true_of x y : (x < y)%R -> Rltb x y = true.
Proof. intros Hlt. unfold Rltb. destruct (Rlt_dec x y); [reflexivity | lra]. Qed.

Lemma py_round_R_near (n : Z) (x : R) :
  (IZR n - 1 / 2 < x < IZR n + 1 / 2)%R -> py_round_R x = n.
Proof.
  intros [Hlo Hhi]. unfold py_round_R.
  destruct (Rle_lt_dec (IZR n) x) as [Hge | Hlt].
  - assert (Hf : n = Int_part x) by (apply Int_part_spec; lra).
    rewrite <- Hf. destruct (Rlt_dec (x - IZR n) (1 / 2)); [reflexivity | lra].
  - assert (Hf : n - 1 = Int_part x).
    { apply Int_part_spec. rewrite minus_IZR. lra. }
    rewrite <- Hf. rewrite minus_IZR.
    destruct (Rlt_dec (x - (IZR n - 1)) (1 / 2)); [lra|].
    destruct (Rlt_dec (1 / 2) (x - (IZR n - 1))); [lia | lra].
Qed.

Lemma bind_eq {Rng A B : Type} (m : Gen A) (k : A -> Gen B) (rng rng1 : Rng) a :
  m rng = Some (a, rng1) -> bind m k rng = k a rng1.
Proof. unfold bind. now intros ->. Qed.

Lemma single_beat_quota se cands :
  section_energies single_beat_map = Some se ->
  candidate_beats single_beat_map preset_hard = Some cands ->
  section_quota single_beat_map preset_hard se cands 0 = 1.
Proof.
  intros Hse Hc. vm_compute in Hse. inversion Hse; subst se; clear Hse.
  vm_compute in Hc. inversion Hc; subst cands; clear Hc.
  unfold section_quota.
  change (length (section_beats single_beat_map _ 0)) with 1%nat.
  rewrite (py_round_R_near 1); [reflexivity|].
  unfold preset_hard; cbn [curve_start density].
  set (q := energy_scale _ _). vm_compute in q. subst q.
  unfold Q2R, NUM_SECTIONS. cbn [Qnum Qden].
  rewrite !INR_IZR_INZ. cbn [Z.of_nat Pos.of_succ_nat Pos.succ].
  split; lra.
Qed.

Lemma single_beat_select :
  exists score e_val,
    select_section single_beat_map preset_hard [5%Q] 1 ([] : list Q)
    = Some ([mkScored 5 score e_val], []).
Proof.
  assert (He : exists e0,
             sample_at (energy single_beat_map) 5 (resolution_ms single_beat_map)
             = Some e0 /\ (e0 == 1)%Q)
    by (vm_compute; eexists; split; reflexivity).
  destruct He as (e0 & He & He1).
  assert (Hfloor : Rltb (Q2R e0) (energy_floor preset_hard) = false).
  { apply Rltb_false_of. rewrite (Qeq_eqR _ _ He1).
    unfold Q2R. cbn [Qnum Qden energy_floor preset_hard]. lra. }
  exists ((1 - energy_influence preset_hard)
          + energy_influence preset_hard * Q2R e0 + Q2R 0 * 0.1)%R, e0.
  assert (Hsc : score_beats [5%Q] single_beat_map preset_hard [] ([] : list Q)
                = Some ([mkScored 5
                           ((1 - energy_influence preset_hard)
                            + energy_influence preset_hard * Q2R e0
                            + Q2R 0 * 0.1)%R e0], [])).
  { cbn [score_beats].
    rewrite (bind_eq _ _ [] [] e0) by (unfold lift; now rewrite He).
    rewrite Hfloor.
    rewrite (bind_eq _ _ [] [] 0%Q) by reflexivity.
    reflexivity. }
  unfold select_section. cbn [Z.leb Z.compare].
  rewrite (bind_eq _ _ [] [] _ Hsc).
  reflexivity.
Qed.

Lemma single_beat_pickups :
  pickup_indices 1 preset_hard ([] : list Q) = Some ([0], []).
Proof.
  unfold pickup_indices.
  rewrite (py_round_R_near 0)
    by (cbn [pickup_ratio preset_hard]; split; lra).
  reflexivity.
Qed.

Lemma single_beat_run :
  generate_events single_beat_map preset_hard ([] : list Q)
  = Some ([mkEvent (py_round3 5) 0 "pickup_shield" None], []).
Proof.
  unfold generate_events.
  rewrite (bind_eq _ _ [] [] [5%Q]) by reflexivity.
  assert (Hse : exists se, section_energies single_beat_map = Some se)
    by (vm_compute; eexists; reflexivity).
  destruct Hse as [se Hse].
  rewrite (bind_eq _ _ [] [] se) by (unfold lift; now rewrite Hse).
  pose proof (single_beat_quota se [5%Q] Hse eq_refl) as Hq.
  cbn [map seq NUM_SECTIONS].
  rewrite Hq.
  destruct single_beat_select as (score & e_val & Hsel).
  rewrite (bind_eq _ _ [] [] [mkScored 5 score e_val]).
  2:{ repeat match goal with
             | |- context [section_beats ?a ?b ?c] =>
                 let v := eval vm_compute in (section_beats a b c) in
                 change (section_beats a b c) with v
             end.
      cbn [select_beats].
      rewrite (bind_eq _ _ [] [] [mkScored 5 score e_val]) by exact Hsel.
      reflexivity. }
  cbn [length Z.of_nat Pos.of_succ_nat].
  rewrite (bind_eq _ _ [] [] [0]) by exact single_beat_pickups.
  rewrite (bind_eq _ _ [] [] 0) by reflexivity.
  reflexivity.
Qed.

(** ** A run of [generate_events] that places obstacles *)

Lemma Rleb_false_of x y : (y < x)%R -> Rleb x y = false.
Proof. intros Hlt. unfold Rleb. destruct (Rle_dec x y); [lra | reflexivity]. Qed.

Lemma late_beats_quota se cands :
  section_energies late_beats_map = Some se ->
  candidate_beats late_beats_map preset_hard = Some cands ->
  section_quota late_beats_map preset_hard se cands 7 = 3.
Proof.
  intros Hse Hc. vm_compute in Hse. inversion Hse; subst se; clear Hse.
  vm_compute in Hc. inversion Hc; subst cands; clear Hc.
  unfold section_quota.
  change (length (section_beats late_beats_map _ 7)) with 2%nat.
  rewrite (py_round_R_near 3); [reflexivity|].
  unfold preset_hard; cbn [curve_start density].
  set (q := energy_scale _ _). vm_compute in q. subst q.
  unfold Q2R, NUM_SECTIONS. cbn [Qnum Qden].
  rewrite !INR_IZR_INZ. cbn [Z.of_nat Pos.of_succ_nat Pos.succ].
  split; lra.
Qed.

Lemma late_beats_select :
  exists s1 e1 s2 e2,
    select_section late_beats_map preset_hard [18.5; 19]%Q 3 ([] : list Q)
    = Some ([mkScored 18.5 s1 e1; mkScored 19 s2 e2], [])
    /\ (e2 == 1)%Q.
Proof.
  assert (He1 : exists e1,
             sample_at (energy late_beats_map) 18.5 (resolution_ms late_beats_map)
             = Some e1 /\ (e1 == 1 # 2)%Q)
    by (vm_compute; eexists; split; reflexivity).
  assert (He2 : exists e2,
             sample_at (energy late_beats_map) 19 (resolution_ms late_beats_map)
             = Some e2 /\ (e2 == 1)%Q)
    by (vm_compute; eexists; split; reflexivity).
  destruct He1 as (e1 & He1 & Hv1). destruct He2 as (e2 & He2 & Hv2).
  assert (Hq1 : Q2R e1 = (1 / 2)%R).
  { rewrite (Qeq_eqR _ _ Hv1). unfold Q2R. cbn [Qnum Qden]. lra. }
  assert (Hq2 : Q2R e2 = 1%R).
  { rewrite (Qeq_eqR _ _ Hv2). unfold Q2R. cbn [Qnum Qden]. lra. }
  assert (Hq0 : Q2R 0 = 0%R) by (unfold Q2R; cbn [Qnum Qden]; lra).
  set (s1 := ((1 - energy_influence preset_hard)
              + energy_influence preset_hard * Q2R e1 + Q2R 0 * 0.1)%R).
  set (s2 := ((1 - energy_influence preset_hard)
              + energy_influence preset_hard * Q2R e2 + Q2R 0 * 0.1)%R).
  exists s1, e1, s2, e2. split; [|exact Hv2].
  assert (Hsc : score_beats [18.5; 19]%Q late_beats_map preset_hard []
                  ([] : list Q)
                = Some ([mkScored 18.5 s1 e1; mkScored 19 s2 e2], [])).
  { cbn [score_beats].
    rewrite (bind_eq _ _ [] [] e1) by (unfold lift; now rewrite He1).
    rewrite (Rltb_false_of (Q2R e1))
      by (rewrite Hq1; cbn [energy_floor preset_hard]; lra).
    rewrite (bind_eq _ _ [] [] 0%Q) by reflexivity.
    rewrite (bind_eq _ _ [] [] e2) by (unfold lift; now rewrite He2).
    rewrite (Rltb_false_of (Q2R e2))
      by (rewrite Hq2; cbn [energy_floor preset_hard]; lra).
    rewrite (bind_eq _ _ [] [] 0%Q) by reflexivity.
    reflexivity. }
  unfold select_section. cbn [Z.leb Z.compare].
  rewrite (bind_eq _ _ [] [] _ Hsc).
  cbn [sort_by insert_by scored_score].
  rewrite (Rleb_false_of (- s1) (- s2)).
  2:{ unfold s1, s2. rewrite Hq1, Hq2, Hq0.
      cbn [energy_influence preset_hard]. lra. }
  reflexivity.
Qed.

Lemma late_beats_pickups :
  pickup_indices 2 preset_hard ([] : list Q) = Some ([0], []).
Proof.
  unfold pickup_indices.
  rewrite (py_round_R_near 0)
    by (cbn [pickup_ratio preset_hard]; split; lra).
  reflexivity.
Qed.

Lemma Q2R_zero : Q2R 0 = 0%R.
Proof. unfold Q2R. cbn [Qnum Qden]. lra. Qed.

Lemma late_beats_crash (rng : list Q) :
  rng = [] ->
  pick_type 0 0 0 preset_hard false rng = Some ("crash", []).
Proof.
  intros ->. unfold pick_type.
  change (Qeq_bool (Qmax (Qmax 0 0) (0 * 0.5)) 0 && Qltb 0.3 0) with false.
  cbn iota.
  rewrite (bind_eq _ _ [] [] None eq_refl).
  rewrite (bind_eq _ _ [] [] 0%Q) by reflexivity.
  destruct (Req_dec_T _ 0) as [Hz | _].
  { exfalso. cbn [crash_weight car_weight slow_weight preset_hard] in Hz. lra. }
  rewrite Rltb_true_of; [reflexivity|].
  rewrite Q2R_zero. cbn [crash_weight car_weight slow_weight preset_hard].
  apply Rdiv_lt_0_compat; lra.
Qed.

Lemma late_beats_wall (events : list CourseEvent) :
  place_obstacles [0; 1; 2] (py_round3 19) 0 0 0 preset_hard events
    [1; 0; 0; 0] ([] : list Q)
  = Some ((events ++ [mkEvent (py_round3 19) 0 "crash" None;
                      mkEvent (py_round3 19) 1 "crash" None;
                      mkEvent (py_round3 19) 2 "crash" None],
           [2; 1; 1; 0]), []).
Proof.
  cbn [place_obstacles].
  rewrite (bind_eq _ _ [] [] "crash") by now apply late_beats_crash.
  rewrite (bind_eq _ _ [] [] [2; 0; 0; 0]) by reflexivity.
  rewrite (bind_eq _ _ [] [] "crash") by now apply late_beats_crash.
  rewrite (bind_eq _ _ [] [] [2; 1; 0; 0]) by reflexivity.
  rewrite (bind_eq _ _ [] [] "crash") by now apply late_beats_crash.
  rewrite (bind_eq _ _ [] [] [2; 1; 1; 0]) by reflexivity.
  unfold ret. now rewrite <- !app_assoc.
Qed.

Lemma late_beats_cluster e_val :
  (e_val == 1)%Q ->
  cluster_size_of e_val preset_hard ([] : list Q) = Some (3, []).
Proof.
  intros He.
  assert (Hq : Q2R e_val = 1%R).
  { rewrite (Qeq_eqR _ _ He). unfold Q2R. cbn [Qnum Qden]. lra. }
  unfold cluster_size_of.
  cbn [max_per_cluster cluster2_energy cluster3_energy cluster2_prob
       cluster3_prob preset_hard Z.leb Z.compare Pos.compare Pos.compare_cont].
  rewrite !Hq.
  rewrite (Rltb_true_of 0.55 1) by lra.
  rewrite (Rltb_true_of 0.75 1) by lra.
  cbn [andb].
  rewrite (bind_eq _ _ [] [] 2).
  2:{ rewrite (bind_eq _ _ [] [] 0%Q) by reflexivity.
      rewrite Q2R_zero, Rltb_true_of by lra. reflexivity. }
  rewrite (bind_eq _ _ [] [] 0%Q) by reflexivity.
  rewrite Q2R_zero, Rltb_true_of by lra. reflexivity.
Qed.

Lemma late_beats_wave :
  wave_lane (0 + 0) preset_hard ([] : list Q) = Some (0, []).
Proof.
  unfold wave_lane.
  rewrite (bind_eq _ _ [] [] 0%Q) by reflexivity.
  rewrite Q2R_zero.
  rewrite (Rltb_true_of 0 (wave_noise preset_hard))
    by (cbn [wave_noise preset_hard]; lra).
  rewrite (bind_eq _ _ [] [] (-1)) by reflexivity.
  reflexivity.
Qed.

(** With every draw 0, the hard preset puts a pickup on the first beat and
    a wall of three crashes on the second. *)
Lemma late_beats_run :
  generate_events late_beats_map preset_hard ([] : list Q)
  = Some (late_beats_events, []).
Proof.
  unfold generate_events.
  rewrite (bind_eq _ _ [] [] [18.5; 19]%Q) by reflexivity.
  assert (Hse : exists se, section_energies late_beats_map = Some se)
    by (vm_compute; eexists; reflexivity).
  destruct Hse as [se Hse].
  rewrite (bind_eq _ _ [] [] se) by (unfold lift; now rewrite Hse).
  pose proof (late_beats_quota se [18.5; 19]%Q Hse eq_refl) as Hq.
  cbn [map seq NUM_SECTIONS].
  rewrite Hq.
  destruct late_beats_select as (s1 & e1 & s2 & e2 & Hsel & He2).
  rewrite (bind_eq _ _ [] [] [mkScored 18.5 s1 e1; mkScored 19 s2 e2]).
  2:{ repeat match goal with
             | |- context [section_beats ?a ?b ?c] =>
                 let v := eval vm_compute in (section_beats a b c) in
                 change (section_beats a b c) with v
             end.
      cbn [select_beats].
      repeat (rewrite (bind_eq _ _ [] [] (@nil ScoredBeat)) by reflexivity).
      rewrite (bind_eq _ _ [] [] _ Hsel).
      reflexivity. }
  cbn [length Z.of_nat Pos.of_succ_nat Pos.succ].
  rewrite (bind_eq _ _ [] [] [0]) by exact late_beats_pickups.
  rewrite (bind_eq _ _ [] [] 0) by reflexivity.
  cbn [assign_loop scored_time scored_energy].
  rewrite (bind_eq _ _ [] [] 0%Q) by reflexivity.
  rewrite (bind_eq _ _ [] [] 0%Q) by reflexivity.
  rewrite (bind_eq _ _ [] [] 0%Q) by reflexivity.
  change (set_mem Z.eq_dec 0 [0]) with true. cbn iota.
  rewrite (bind_eq _ _ [] [] 0) by reflexivity.
  rewrite (bind_eq _ _ [] [] 0%Q) by reflexivity.
  rewrite (bind_eq _ _ [] [] [1; 0; 0; 0]) by reflexivity.
  rewrite (bind_eq _ _ [] [] 0%Q) by reflexivity.
  rewrite (bind_eq _ _ [] [] 0%Q) by reflexivity.
  rewrite (bind_eq _ _ [] [] 0%Q) by reflexivity.
  change (set_mem Z.eq_dec (0 + 1) [0]) with false. cbn iota.
  rewrite (bind_eq _ _ [] [] 3) by now apply late_beats_cluster.
  rewrite (bind_eq _ _ [] [] 0) by exact late_beats_wave.
  change (cluster_lanes 0 3 [1; 0; 0; 0] preset_hard) with [0; 1; 2].
  rewrite (bind_eq _ _ [] [] _ (late_beats_wall _)).
  reflexivity.
Qed.

(** ** A run of [generate_events] whose outcome the draws decide *)

Lemma single_beat_select_drawn (u : Q) (rng : list Q) :
  exists score e_val,
    select_section single_beat_map preset_hard [5%Q] 1 (u :: rng)
    = Some ([mkScored 5 score e_val], rng).
Proof.
  assert (He : exists e0,
             sample_at (energy single_beat_map) 5 (resolution_ms single_beat_map)
             = Some e0 /\ (e0 == 1)%Q)
    by (vm_compute; eexists; split; reflexivity).
  destruct He as (e0 & He & He1).
  assert (Hfloor : Rltb (Q2R e0) (energy_floor preset_hard) = false).
  { apply Rltb_false_of. rewrite (Qeq_eqR _ _ He1).
    unfold Q2R. cbn [Qnum Qden energy_floor preset_hard]. lra. }
  exists ((1 - energy_influence preset_hard)
          + energy_influence preset_hard * Q2R e0 + Q2R u * 0.1)%R, e0.
  assert (Hsc : score_beats [5%Q] single_beat_map preset_hard [] (u :: rng)
                = Some ([mkScored 5
                           ((1 - energy_influence preset_hard)
                            + energy_influence preset_hard * Q2R e0
                            + Q2R u * 0.1)%R e0], rng)).
  { cbn [score_beats].
    rewrite (bind_eq _ _ (u :: rng) (u :: rng) e0) by (unfold lift; now rewrite He).
    rewrite Hfloor.
    rewrite (bind_eq _ _ (u :: rng) rng u) by reflexivity.
    reflexivity. }
  unfold select_section. cbn [Z.leb Z.compare].
  rewrite (bind_eq _ _ (u :: rng) rng _ Hsc).
  reflexivity.
Qed.

Lemma single_beat_pickups_drawn (rng : list Q) :
  pickup_indices 1 preset_hard rng
  = pickup_index_loop 1 0 1 (inject_Z 1 / inject_Z 1) (empty_set Z) rng.
Proof.
  unfold pickup_indices.
  rewrite (py_round_R_near 0)
    by (cbn [pickup_ratio preset_hard]; split; lra).
  reflexivity.
Qed.

(** On seed 1 of [seeded_draws] the one event is a shield in lane 3, on
    seed 2 an ammo pickup in lane 0: lane and type are the draws'. *)
Lemma single_beat_seeded_runs :
  (exists rng',
      generate_events single_beat_map preset_hard (seeded_draws 1)
      = Some ([mkEvent (py_round3 5) 3 "pickup_shield" None], rng'))
  /\ (exists rng',
      generate_events single_beat_map preset_hard (seeded_draws 2)
      = Some ([mkEvent (py_round3 5) 0 "pickup_ammo" None], rng')).
Proof.
  assert (Hse : exists se, section_energies single_beat_map = Some se)
    by (vm_compute; eexists; reflexivity).
  destruct Hse as [se Hse].
  pose proof (single_beat_quota se [5%Q] Hse eq_refl) as Hq.
  split.
  - set (r := seeded_draws 1). vm_compute in r.
    unfold generate_events.
    rewrite (bind_eq _ _ r r [5%Q]) by reflexivity.
    rewrite (bind_eq _ _ r r se) by (unfold lift; now rewrite Hse).
    cbn [map seq NUM_SECTIONS]. rewrite Hq.
    destruct (single_beat_select_drawn (hd 0%Q r) (tl r))
      as (score & e_val & Hsel).
    rewrite (bind_eq _ _ r (tl r) [mkScored 5 score e_val]).
    2:{ repeat match goal with
               | |- context [section_beats ?a ?b ?c] =>
                   let v := eval vm_compute in (section_beats a b c) in
                   change (section_beats a b c) with v
               end.
        cbn [select_beats].
        rewrite (bind_eq _ _ r (tl r) [mkScored 5 score e_val]) by exact Hsel.
        reflexivity. }
    cbn [length Z.of_nat Pos.of_succ_nat].
    rewrite (bind_eq _ _ (tl r) (tl (tl r)) [0])
      by (rewrite single_beat_pickups_drawn; reflexivity).
    eexists. vm_compute. reflexivity.
  - set (r := seeded_draws 2). vm_compute in r.
    unfold generate_events.
    rewrite (bind_eq _ _ r r [5%Q]) by reflexivity.
    rewrite (bind_eq _ _ r r se) by (unfold lift; now rewrite Hse).
    cbn [map seq NUM_SECTIONS]. rewrite Hq.
    destruct (single_beat_select_drawn (hd 0%Q r) (tl r))
      as (score & e_val & Hsel).
    rewrite (bind_eq _ _ r (tl r) [mkScored 5 score e_val]).
    2:{ repeat match goal with
               | |- context [section_beats ?a ?b ?c] =>
                   let v := eval vm_compute in (section_beats a b c) in
                   change (section_beats a b c) with v
               end.
        cbn [select_beats].
        rewrite (bind_eq _ _ r (tl r) [mkScored 5 score e_val]) by exact Hsel.
        reflexivity. }
    cbn [length Z.of_nat Pos.of_succ_nat].
    rewrite (bind_eq _ _ (tl r) (tl (tl r)) [0])
      by (rewrite single_beat_pickups_drawn; reflexivity).
    eexists. vm_compute. reflexivity.
Qed.

(** The theorem of C3 at work: two sources that agree on the seeds
    [1, 2, 1001, 1002] and nowhere else give the same course on the hard
    preset, where the draws decide the lane and the type of the event. *)
Lemma generate_course_deterministic_witness :
  generate_course seeded_draws one_loud_section "hard" 2 9.6
    = generate_course other_draws one_loud_section "hard" 2 9.6
  /\ (exists rng',
         generate_events one_loud_section preset_hard (seeded_draws 1)
         = Some ([mkEvent (py_round3 5) 3 "pickup_shield" None], rng'))
  /\ (exists rng',
         generate_events one_loud_section preset_hard (seeded_draws 2)
         = Some ([mkEvent (py_round3 5) 0 "pickup_ammo" None], rng')).
Proof.
  split; [|exact single_beat_seeded_runs].
  apply (generate_course_deterministic (H := replay_source)
           seeded_draws other_draws one_loud_section "hard" 2 9.6%R).
  intros seed Hseed. unfold other_draws.
  destruct (((1 <=? seed) && (seed <=? 2))
            || ((1001 <=? seed) && (seed <=? 1002))) eqn:Hin; [reflexivity|].
  apply orb_false_iff in Hin. destruct Hin as [Ha Hb].
  apply andb_false_iff in Ha, Hb.
  rewrite !Z.leb_gt in Ha, Hb. lia.
Defined.

(** X20.  Every event that [generate_events] returns sits in one of the
    four lanes, carries no lead, has one of the types [crash], [car],
    [slow], [pickup_ammo], [pickup_shield], and is timed on a beat of the
    map inside the playable window, rounded to the millisecond, whatever
    the random source draws. *)
Theorem generate_events_shape {Rng : Type} `{RandomSource Rng}
    (bd : BeatData) (params : DifficultyParams) (rng rng' : Rng)
    (events : list CourseEvent) :
  generate_events bd params rng = Some (events, rng') ->
  Forall (generated_event bd) events.
Proof. apply generate_events_facts. Qed.

Lemma generate_events_shape_witness :
  Forall (generated_event single_beat_map)
         [mkEvent (py_round3 5) 0 "pickup_shield" None].
Proof.
  apply (generate_events_shape (H := replay_source)
           single_beat_map preset_hard [] []).
  exact single_beat_run.
Defined.

(** ** [generate_events] raises nothing on usable parameters *)

Lemma sample_at_returns arr tm res :
  res <> 0 -> exists v, sample_at arr tm res = Some v.
Proof.
  intros Hres. unfold sample_at. destruct arr as [|a arr]; [now eexists|].
  apply Z.eqb_neq in Hres. rewrite Hres.
  destruct (_ <? 0); [now eexists|].
  destruct (_ <=? _); now eexists.
Qed.

Lemma sample_all_returns arr res :
  res <> 0 -> forall times, exists vs, sample_all arr times res = Some vs.
Proof.
  intros Hres. induction times as [|tm rest IH]; cbn [sample_all]; [now eexists|].
  destruct (sample_at_returns arr tm res Hres) as [v ->].
  destruct IH as [vs ->]. now eexists.
Qed.

Section GenerationReturns.
Context {Rng : Type} `{RandomSource Rng}.

Lemma draw_some (rng : Rng) : exists u rng1, draw rng = Some (u, rng1).
Proof. unfold draw. destruct (rng_random rng) as [u rng1]. now exists u, rng1. Qed.

Lemma choice_some seq (rng : Rng) : exists k rng1, choice seq rng = Some (k, rng1).
Proof.
  unfold choice. destruct (rng_randbelow _ rng) as [k rng1]. now eexists _, _.
Qed.

Lemma randint_some a b (rng : Rng) : exists k rng1, randint a b rng = Some (k, rng1).
Proof.
  unfold randint. destruct (rng_randbelow _ rng) as [k rng1]. now eexists _, _.
Qed.

Lemma bind_returns {A B : Type} (m : Gen A) (k : A -> Gen B) (rng : Rng) :
  (exists a rng1, m rng = Some (a, rng1)) ->
  (forall a rng1, exists b rng2, k a rng1 = Some (b, rng2)) ->
  exists b rng2, bind m k rng = Some (b, rng2).
Proof.
  intros (a & rng1 & Hm) Hk. rewrite (bind_eq _ _ _ _ _ Hm). apply Hk.
Qed.

Lemma wave_lane_returns event_index params (rng : Rng) :
  exists l rng', wave_lane event_index params rng = Some (l, rng').
Proof.
  unfold wave_lane.
  apply bind_returns; [apply draw_some|]. intros u rng1.
  apply bind_returns; [|intros; now eexists _, _].
  destruct (Rltb (Q2R u) (wave_noise params)); [|now eexists _, _].
  apply bind_returns; [apply choice_some | intros; now eexists _, _].
Qed.

Lemma pick_type_returns bass_val perc_val harm_val params (rng : Rng) :
  (crash_weight params + car_weight params + slow_weight params <> 0)%R ->
  exists ty rng',
    pick_type bass_val perc_val harm_val params false rng = Some (ty, rng').
Proof.
  intros Hw. unfold pick_type.
  assert (Hfall : forall rng1 : Rng,
            exists ty rng',
              bind draw
                (fun roll =>
                   if Req_dec_T (crash_weight params + car_weight params
                                 + slow_weight params) 0
                   then raise
                   else if Rltb (Q2R roll)
                             (crash_weight params
                              / (crash_weight params + car_weight params
                                 + slow_weight params))
                   then ret "crash"
                   else if Rltb (Q2R roll)
                             ((crash_weight params + car_weight params)
                              / (crash_weight params + car_weight params
                                 + slow_weight params))
                   then ret "car" else ret "slow") rng1 = Some (ty, rng')).
  { intros rng1. destruct (draw_some rng1) as (roll & rng2 & Hroll).
    rewrite (bind_eq _ _ _ _ _ Hroll).
    destruct (Req_dec_T _ 0); [contradiction|].
    destruct (Rltb _ _); [now eexists _, _|].
    destruct (Rltb _ _); now eexists _, _. }
  destruct (Qeq_bool _ bass_val && Qltb 0.3 bass_val).
  - destruct (draw_some rng) as (u & rng1 & Hu).
    rewrite (bind_eq _ _ rng rng1 (if Qltb u 0.55 then Some "crash" else None))
      by now rewrite (bind_eq _ _ _ _ _ Hu).
    destruct (Qltb u 0.55); [now eexists _, _ | apply Hfall].
  - destruct (Qeq_bool _ perc_val && Qltb 0.3 perc_val).
    + destruct (draw_some rng) as (u & rng1 & Hu).
      rewrite (bind_eq _ _ rng rng1 (if Qltb u 0.45 then Some "car" else None))
        by now rewrite (bind_eq _ _ _ _ _ Hu).
      destruct (Qltb u 0.45); [now eexists _, _ | apply Hfall].
    + rewrite (bind_eq _ _ rng rng None eq_refl). apply Hfall.
Qed.

Lemma score_beats_returns bd params :
  resolution_ms bd <> 0 ->
  forall s_beats scored (rng : Rng),
  exists out rng', score_beats s_beats bd params scored rng = Some (out, rng').
Proof.
  intros Hres. induction s_beats as [|bt rest IH]; intros scored rng;
    cbn [score_beats].
  - now eexists _, _.
  - destruct (sample_at_returns (energy bd) bt _ Hres) as [e_val He].
    rewrite (bind_eq _ _ rng rng e_val) by (unfold lift; now rewrite He).
    destruct (Rltb _ _); [apply IH|].
    destruct (draw_some rng) as (u & rng1 & Hu). rewrite (bind_eq _ _ _ _ _ Hu).
    apply IH.
Qed.

Lemma select_section_returns bd params s_beats quota (rng : Rng) :
  resolution_ms bd <> 0 ->
  exists picked rng',
    select_section bd params s_beats quota rng = Some (picked, rng').
Proof.
  intros Hres. unfold select_section.
  destruct s_beats as [|b0 bs]; [now eexists _, _|].
  destruct (quota <=? 0); [now eexists _, _|].
  destruct (score_beats_returns bd params Hres (b0 :: bs) [] rng)
    as (scored & rng1 & Hsc).
  rewrite (bind_eq _ _ _ _ _ Hsc). now eexists _, _.
Qed.

Lemma select_beats_returns bd params :
  resolution_ms bd <> 0 ->
  forall sections selected (rng : Rng),
  exists out rng', select_beats bd params sections selected rng = Some (out, rng').
Proof.
  intros Hres. induction sections as [|[s_beats quota] rest IH];
    intros selected rng; cbn [select_beats].
  - now eexists _, _.
  - destruct (select_section_returns bd params s_beats quota rng Hres)
      as (picked & rng1 & Hp).
    rewrite (bind_eq _ _ _ _ _ Hp). apply IH.
Qed.

Lemma pickup_index_loop_returns n_events spacing :
  forall turns i indices (rng : Rng),
  exists out rng',
    pickup_index_loop turns i n_events spacing indices rng = Some (out, rng').
Proof.
  induction turns as [|turns IH]; intros i indices rng; cbn [pickup_index_loop].
  - now eexists _, _.
  - destruct (draw_some rng) as (u & rng1 & Hu). rewrite (bind_eq _ _ _ _ _ Hu).
    apply IH.
Qed.

Lemma pickup_indices_returns n_events params (rng : Rng) :
  exists out rng', pickup_indices n_events params rng = Some (out, rng').
Proof.
  unfold pickup_indices. destruct (_ && _); [|now eexists _, _].
  apply pickup_index_loop_returns.
Qed.

Lemma pickup_lane_keys_returns :
  forall counts (rng : Rng),
  exists keys rng', pickup_lane_keys counts rng = Some (keys, rng').
Proof.
  induction counts as [|c rest IH]; intros rng; cbn [pickup_lane_keys].
  - now eexists _, _.
  - destruct (draw_some rng) as (u & rng1 & Hu). rewrite (bind_eq _ _ _ _ _ Hu).
    destruct (IH rng1) as (keys & rng2 & Hk). rewrite (bind_eq _ _ _ _ _ Hk).
    now eexists _, _.
Qed.

Lemma least_used_lane_returns counts (rng : Rng) :
  counts <> [] ->
  exists l rng', least_used_lane counts rng = Some (l, rng').
Proof.
  intros Hne. unfold least_used_lane.
  destruct (pickup_lane_keys_returns counts rng) as (keys & rng1 & Hk).
  rewrite (bind_eq _ _ _ _ _ Hk).
  apply pickup_lane_keys_length in Hk.
  destruct keys as [|k rest]; [|now eexists _, _].
  destruct counts; [congruence | discriminate].
Qed.

Lemma cluster_size_of_returns e_val params (rng : Rng) :
  exists size rng', cluster_size_of e_val params rng = Some (size, rng').
Proof.
  unfold cluster_size_of. apply bind_returns.
  - destruct ((2 <=? max_per_cluster params)
              && Rltb (cluster2_energy params) (Q2R e_val));
      [|now eexists _, _].
    apply bind_returns; [apply draw_some | intros; now eexists _, _].
  - intros size2 rng1.
    destruct ((3 <=? max_per_cluster params)
              && Rltb (cluster3_energy params) (Q2R e_val));
      [|now eexists _, _].
    apply bind_returns; [apply draw_some | intros; now eexists _, _].
Qed.

Lemma place_obstacles_returns tm bass_val perc_val harm_val params :
  (crash_weight params + car_weight params + slow_weight params <> 0)%R ->
  forall lanes events counts (rng : Rng),
  length counts = 4%nat ->
  Forall (fun l => 0 <= l <= 3) lanes ->
  exists placed rng',
    place_obstacles lanes tm bass_val perc_val harm_val params events counts rng
      = Some (placed, rng').
Proof.
  intros Hw. induction lanes as [|l rest IH]; intros events counts rng Hlen Hall;
    cbn [place_obstacles].
  - now eexists _, _.
  - inversion Hall as [|? ? Hl Hrest]; subst.
    destruct (pick_type_returns bass_val perc_val harm_val params rng Hw)
      as (etype & rng1 & Hty).
    rewrite (bind_eq _ _ _ _ _ Hty).
    destruct (incr_lane_some counts l) as (counts' & Hinc & Hlen');
      [rewrite Hlen; lia|].
    rewrite (bind_eq _ _ rng1 rng1 counts') by (unfold lift; now rewrite Hinc).
    apply IH; [congruence | exact Hrest].
Qed.

Lemma assign_loop_returns bd params pickups wave_offset :
  resolution_ms bd <> 0 ->
  (crash_weight params + car_weight params + slow_weight params <> 0)%R ->
  forall selected i obstacle_wave_idx events counts (rng : Rng),
  length counts = 4%nat ->
  exists out rng',
    assign_loop selected i bd params pickups wave_offset obstacle_wave_idx
                events counts rng = Some (out, rng').
Proof.
  intros Hres Hw. induction selected as [|sb rest IH];
    intros i owi events counts rng Hlen; cbn [assign_loop].
  - now eexists _, _.
  - destruct (sample_at_returns (bass bd) (scored_time sb) _ Hres) as [bv Hb].
    rewrite (bind_eq _ _ rng rng bv) by (unfold lift; now rewrite Hb).
    destruct (sample_at_returns (percussive bd) (scored_time sb) _ Hres) as [pv Hp].
    rewrite (bind_eq _ _ rng rng pv) by (unfold lift; now rewrite Hp).
    destruct (sample_at_returns (harmonic bd) (scored_time sb) _ Hres) as [hv Hh].
    rewrite (bind_eq _ _ rng rng hv) by (unfold lift; now rewrite Hh).
    destruct (set_mem Z.eq_dec i pickups).
    + destruct (least_used_lane_returns counts rng) as (pl & rng1 & Hpl).
      { destruct counts; [discriminate | discriminate]. }
      rewrite (bind_eq _ _ _ _ _ Hpl).
      apply least_used_lane_range in Hpl. rewrite Hlen in Hpl.
      destruct (draw_some rng1) as (u & rng2 & Hu). rewrite (bind_eq _ _ _ _ _ Hu).
      destruct (incr_lane_some counts pl) as (counts' & Hinc & Hlen');
        [rewrite Hlen; lia|].
      rewrite (bind_eq _ _ rng2 rng2 counts') by (unfold lift; now rewrite Hinc).
      apply IH. congruence.
    + destruct (cluster_size_of_returns (scored_energy sb) params rng)
        as (cs & rng1 & Hcs).
      rewrite (bind_eq _ _ _ _ _ Hcs).
      destruct (wave_lane_returns (owi + wave_offset) params rng1)
        as (pl & rng2 & Hpl).
      rewrite (bind_eq _ _ _ _ _ Hpl).
      apply wave_lane_range in Hpl.
      destruct (place_obstacles_returns (py_round3 (scored_time sb)) bv pv hv
                  params Hw (cluster_lanes pl cs counts params) events counts
                  rng2 Hlen (cluster_lanes_range pl cs counts params Hpl))
        as (placed & rng3 & Hplaced).
      rewrite (bind_eq _ _ _ _ _ Hplaced).
      apply place_obstacles_adds in Hplaced. destruct Hplaced as [Hlen' _].
      apply IH. congruence.
Qed.

Lemma generate_events_returns bd params (rng : Rng) :
  usable_params params -> resolution_ms bd <> 0 ->
  exists events rng', generate_events bd params rng = Some (events, rng').
Proof.
  intros [Hskip Hw] Hres. unfold generate_events.
  destruct (candidate_loop_returns (playable_end bd) _ Hskip (beats bd) 0)
    as [cands Hc].
  rewrite (bind_eq _ _ rng rng cands)
    by (unfold lift, candidate_beats; now rewrite Hc).
  destruct cands as [|c0 cs]; [now eexists _, _|].
  destruct (sample_all_returns (energy bd) _ Hres
              (map (section_mid bd) (seq 0 NUM_SECTIONS))) as [se Hse].
  rewrite (bind_eq _ _ rng rng se)
    by (unfold lift, section_energies; now rewrite Hse).
  destruct (select_beats_returns bd params Hres
              (map (fun s => (section_beats bd (c0 :: cs) s,
                              section_quota bd params se (c0 :: cs) s))
                   (seq 0 NUM_SECTIONS)) [] rng) as (selected & rng1 & Hsel).
  rewrite (bind_eq _ _ _ _ _ Hsel).
  destruct (pickup_indices_returns (Z.of_nat (length selected)) params rng1)
    as (pickups & rng2 & Hpk).
  rewrite (bind_eq _ _ _ _ _ Hpk).
  destruct (randint_some 0 (Z.of_nat (length BOUNCE) - 1) rng2)
    as (wo & rng3 & Hwo).
  rewrite (bind_eq _ _ _ _ _ Hwo).
  now apply assign_loop_returns.
Qed.

End GenerationReturns.

(** ** Attempts, the search loop and the course document *)

Lemma validate_paths_incl events params :
  incl (fst (validate_paths events params)) events.
Proof.
  unfold validate_paths. destruct events as [|e0 es] eqn:E; [apply incl_refl|].
  rewrite <- E. clear E e0 es.
  destruct (validate_groups params None (time_groups events) [] 0)
    as [validated cull] eqn:Ev.
  apply validate_groups_facts in Ev. destruct Ev as (_ & _ & Hincl).
  cbn [fst app] in *. intros e He.
  apply (Permutation_in _ (Permutation_sym (sort_by_t_perm validated))) in He.
  apply Hincl in He. rewrite flatten_time_groups in He.
  now apply (Permutation_in _ (Permutation_sym (sort_by_t_perm events))) in He.
Qed.

Lemma adjust_rules_usable
    (rule : ScoreBreakdown -> DifficultyParams -> DifficultyParams)
    (scores : ScoreBreakdown) (p : DifficultyParams) :
  In rule [adjust_flow; adjust_curve; adjust_variety; adjust_coverage;
           adjust_energy; adjust_cull] ->
  usable_params p -> usable_params (rule scores p).
Proof.
  intros Hin. unfold usable_params. intros [Hskip Hw]. cbn [In] in Hin.
  repeat (destruct Hin as [<- | Hin];
          [each_rule ltac:(split; [exact Hskip|]; try exact Hw;
                           intros Heq; apply Hw; rewrite <- Heq; field)|]).
  contradiction.
Qed.

Lemma adjust_params_usable params scores :
  usable_params params -> usable_params (adjust_params params scores).
Proof.
  intros Hu. unfold adjust_params.
  repeat (apply adjust_rules_usable; [cbn; tauto|]).
  exact Hu.
Qed.

Lemma presets_usable difficulty params :
  preset_of difficulty = Some params -> usable_params params.
Proof.
  unfold preset_of.
  destruct (String.eqb difficulty "easy");
    [|destruct (String.eqb difficulty "normal");
      [|destruct (String.eqb difficulty "hard"); [|discriminate]]];
    intros Hp; inversion Hp; subst; unfold usable_params; cbn;
    (split; [lia | lra]).
Qed.

Lemma generated_is_course_event bd e : generated_event bd e -> course_event e.
Proof.
  intros (Hl & Hld & Hty & _). split; [exact Hl|]. split.
  - simpl in Hty |- *. tauto.
  - intros Hne. congruence.
Qed.

Lemma enemy_cars_course_events evs bd l l' :
  Forall2 (enemy_car_of evs bd) l l' ->
  Forall course_event l -> Forall course_event l'.
Proof.
  induction 1 as [|e e' l l' Hee _ IH]; intros Hall; [constructor|].
  inversion Hall as [|? ? He Hl]; subst. constructor; [|now apply IH].
  destruct Hee as [-> | (Hcar & Hty & Hlane & Hld & _)]; [exact He|].
  destruct He as (Hl1 & _ & Hlead). split; [now rewrite Hlane|].
  split; [rewrite Hty; simpl; tauto|].
  intros Hne. rewrite Hld in Hne. specialize (Hlead Hne).
  rewrite Hlead in Hcar. discriminate.
Qed.

Section CourseFacts.
Context {Rng : Type} `{RandomSource Rng}.

Lemma post_process_shape (events : list CourseEvent) (bd : BeatData) (rng : Rng) :
  Forall course_event events ->
  Forall course_event (post_process events bd rng)
  /\ StronglySorted le_t (post_process events bd rng)
  /\ (length events <= length (post_process events bd rng))%nat.
Proof.
  intros Hev. unfold post_process.
  pose proof (add_car_crash_beats_facts events bd rng 0.35) as H1.
  destruct (add_car_crash_beats events bd rng 0.35) as [events1 rng1].
  cbn [fst] in H1. destruct H1 as (_ & new1 & Hp1 & Hn1 & _).
  pose proof (add_guardians_facts events1 rng1 0.5) as H2.
  destruct (add_guardians events1 rng1 0.5) as [events2 rng2].
  cbn [fst] in H2. destruct H2 as (_ & new2 & Hp2 & Hn2 & _).
  pose proof (add_enemy_cars_facts events2 bd rng2 0.25) as H3.
  cbn zeta in H3. destruct H3 as (Hsorted & events3 & Hp3 & Hrel).
  assert (Hev1 : Forall course_event events1).
  { apply Forall_forall. intros e He.
    apply (Permutation_in _ Hp1) in He. apply in_app_or in He.
    destruct He as [He | He]; [rewrite Forall_forall in Hev; now apply Hev|].
    rewrite Forall_forall in Hn1. destruct (Hn1 e He)
      as (Hty & c & b & l & Hc & _ & Hlane & _).
    rewrite Forall_forall in Hev. destruct (Hev c Hc) as (Hcl & _).
    split; [now rewrite Hlane|]. split; [rewrite Hty; simpl; tauto|].
    intros _. exact Hty. }
  assert (Hev2 : Forall course_event events2).
  { apply Forall_forall. intros e He.
    apply (Permutation_in _ Hp2) in He. apply in_app_or in He.
    destruct He as [He | He]; [rewrite Forall_forall in Hev1; now apply Hev1|].
    rewrite Forall_forall in Hn2. destruct (Hn2 e He)
      as (Hty & Hld & _ & p & Hp & _ & Hlane).
    rewrite Forall_forall in Hev1. destruct (Hev1 p Hp) as (Hpl & _).
    split; [now rewrite Hlane|]. split; [rewrite Hty; simpl; tauto|].
    intros Hne. congruence. }
  assert (Hev3 : Forall course_event events3)
    by (eapply enemy_cars_course_events; eassumption).
  split; [|split; [exact Hsorted|]].
  - apply Forall_forall. intros e He. apply (Permutation_in _ Hp3) in He.
    rewrite Forall_forall in Hev3. now apply Hev3.
  - rewrite (Permutation_length Hp3), <- (Forall2_length Hrel),
      (Permutation_length Hp2), length_app, (Permutation_length Hp1), length_app.
    lia.
Qed.

Variable Random : Z -> Rng.

Lemma run_attempt_shape bd params seed validated scores :
  run_attempt Random bd params seed = Some (validated, scores) ->
  Forall (generated_event bd) validated.
Proof.
  unfold run_attempt. intros Hrun.
  destruct (generate_events bd params (Random seed)) as [[events rng']|] eqn:Eg;
    [|discriminate].
  apply generate_events_facts in Eg.
  pose proof (validate_paths_incl events params) as Hincl.
  destruct (validate_paths events params) as [v cull]. cbn [fst] in Hincl.
  destruct (compute_scores v bd cull _); [|discriminate].
  inversion Hrun; subst. apply Forall_forall. intros e He.
  rewrite Forall_forall in Eg. apply Eg, Hincl, He.
Qed.

Lemma run_attempt_returns bd params seed :
  usable_params params -> resolution_ms bd <> 0 ->
  exists validated scores,
    run_attempt Random bd params seed = Some (validated, scores).
Proof.
  intros Hu Hres. unfold run_attempt.
  destruct (generate_events_returns bd params (Random seed) Hu Hres)
    as (events & rng' & Eg).
  rewrite Eg. apply generate_events_facts in Eg.
  pose proof (validate_paths_incl events params) as Hincl.
  destruct (validate_paths events params) as [v cull]. cbn [fst] in Hincl.
  assert (Hs : exists s,
            compute_scores v bd cull (Z.of_nat (length events)) = Some s).
  { unfold compute_scores. destruct v as [|e0 es] eqn:Ev; [now eexists|].
    rewrite <- Ev in *.
    destruct (lane_counts_some v [0; 0; 0; 0]) as [counts ->].
    - apply Forall_forall. intros e He. rewrite Forall_forall in Eg.
      destruct (Eg e (Hincl e He)) as (Hl & _). cbn [length]. lia.
    - apply Z.eqb_neq in Hres. rewrite Hres, andb_false_r. now eexists. }
  destruct Hs as [s ->]. now eexists _, _.
Qed.

Lemma search_loop_returns bd target_score :
  resolution_ms bd <> 0 ->
  forall turns attempt params champion,
  usable_params params ->
  exists result,
    search_loop Random turns attempt bd target_score params champion
    = Some result.
Proof.
  intros Hres. induction turns as [|turns IH]; intros attempt params champion Hu;
    cbn [search_loop].
  - now eexists.
  - destruct (run_attempt_returns bd params (attempt + 1) Hu Hres)
      as (events & scores & ->).
    destruct (Rleb target_score (total scores)); [now eexists|].
    apply IH. now apply adjust_params_usable.
Qed.

Lemma search_loop_inv bd target_score :
  forall turns attempt params champion result,
  0 <= attempt ->
  champion_inv bd attempt champion ->
  search_loop Random turns attempt bd target_score params champion
    = Some result ->
  champion_inv bd (attempt + Z.of_nat turns) result.
Proof.
  induction turns as [|turns IH];
    intros attempt params champion result Hpos Hinv Hrun;
    cbn [search_loop] in Hrun.
  - inversion Hrun; subst. rewrite Z.add_0_r. exact Hinv.
  - destruct (run_attempt Random bd params (attempt + 1))
      as [[events scores]|] eqn:Erun; [|discriminate].
    apply run_attempt_shape in Erun.
    set (champion' :=
           if Rltb (total (champion_score champion)) (total scores)
           then mkChampion (Some events) scores (attempt + 1) (attempt + 1)
           else champion) in *.
    assert (Hinv' : champion_inv bd (attempt + 1) champion').
    { subst champion'. destruct (Rltb _ _).
      - unfold champion_inv. cbn. split; [reflexivity|]. split; [lia|].
        split; [lia|]. intros evs Hevs. now inversion Hevs; subst.
      - destruct Hinv as (Hs & Hr & Hz & Hg).
        repeat split; try assumption; lia. }
    clearbody champion'.
    destruct (Rleb target_score (total scores)).
    + inversion Hrun; subst.
      destruct Hinv' as (Hs & Hr & Hz & Hg).
      repeat split; try assumption; lia.
    + apply IH in Hrun; [|lia | exact Hinv'].
      destruct Hrun as (Hs & Hr & Hz & Hg).
      repeat split; try assumption; lia.
Qed.

Lemma generate_course_returns bd difficulty max_attempts target_score :
  In difficulty ["easy"; "normal"; "hard"] ->
  resolution_ms bd <> 0 ->
  exists course,
    generate_course Random bd difficulty max_attempts target_score
    = Some course.
Proof.
  intros Hd Hres. unfold generate_course.
  assert (Hp : exists params, preset_of difficulty = Some params).
  { simpl in Hd. destruct Hd as [<- | [<- | [<- | []]]]; now eexists. }
  destruct Hp as [params Hp]. rewrite Hp.
  destruct (search_loop_returns bd target_score Hres (Z.to_nat max_attempts) 0
              params (mkChampion None (mkScores 0 0 0 0 0 0 0) 0 0)
              (presets_usable _ _ Hp)) as [champion ->].
  now eexists.
Qed.

Lemma generate_course_facts bd difficulty max_attempts target_score course :
  generate_course Random bd difficulty max_attempts target_score = Some course ->
  course_seed course = course_attempts course
  /\ 0 <= course_attempts course <= Z.max 0 max_attempts
  /\ (course_attempts course = 0 -> course_events course = [])
  /\ Forall course_event (course_events course)
  /\ StronglySorted le_t (course_events course).
Proof.
  unfold generate_course. intros Hrun.
  destruct (preset_of difficulty) as [params|]; [|discriminate].
  destruct (search_loop Random (Z.to_nat max_attempts) 0 bd target_score params
              (mkChampion None (mkScores 0 0 0 0 0 0 0) 0 0))
    as [champion|] eqn:Eloop; [|discriminate].
  apply search_loop_inv in Eloop; [|lia|].
  2:{ unfold champion_inv. cbn. repeat split; try lia. discriminate. }
  destruct Eloop as (Hs & Hr & Hz & Hg).
  inversion Hrun; subst course; clear Hrun. cbn.
  split; [exact Hs|]. split; [lia|]. split.
  { intros H0. now rewrite (Hz H0). }
  destruct (champion_events champion) as [[|e0 es]|] eqn:Eev;
    try (split; constructor).
  specialize (Hg _ eq_refl).
  destruct (post_process_shape (e0 :: es) bd
              (Random (champion_seed champion + 1000))) as (Hshape & Hsorted & _).
  - eapply Forall_impl; [|exact Hg]. intros e. apply generated_is_course_event.
  - now split.
Qed.

End CourseFacts.

(** X21.  [generate_events] raises nothing when the stride [beat_skip] is
    not 0, the three obstacle weights do not add up to 0 and
    [resolution_ms] is not 0: it returns an event list, whatever the beat
    map holds and whatever the random source draws. *)
Theorem generate_events_total {Rng : Type} `{RandomSource Rng}
    (bd : BeatData) (params : DifficultyParams) (rng : Rng) :
  usable_params params -> resolution_ms bd <> 0 ->
  exists events rng', generate_events bd params rng = Some (events, rng').
Proof. apply generate_events_returns. Qed.

Lemma generate_events_total_witness :
  (exists events rng',
      generate_events late_beats_map preset_hard ([] : list Q)
      = Some (events, rng'))
  /\ generate_events late_beats_map preset_hard ([] : list Q)
     = Some (late_beats_events, []).
Proof.
  split; [|exact late_beats_run].
  apply (generate_events_total (H := replay_source)).
  - split; cbn; [lia | lra].
  - cbn. lia.
Defined.

(** X22.  On a beat map whose [resolution_ms] is not 0, [generate_course]
    returns a course document exactly for the difficulties [easy],
    [normal] and [hard], whatever [max_attempts], [target_score] and the
    random source are; any other difficulty raises (the [KeyError] of
    [DIFFICULTY_PRESETS[difficulty]]). *)
Theorem generate_course_total {Rng : Type} `{RandomSource Rng}
    (Random : Z -> Rng) (bd : BeatData) (difficulty : string)
    (max_attempts : Z) (target_score : R) :
  resolution_ms bd <> 0 ->
  (exists course,
      generate_course Random bd difficulty max_attempts target_score
      = Some course)
  <-> In difficulty ["easy"; "normal"; "hard"].
Proof.
  intros Hres. split; [|intros Hd; now apply generate_course_returns].
  intros [course Hrun]. unfold generate_course, preset_of in Hrun.
  destruct (String.eqb difficulty "easy") eqn:E1;
    [apply String.eqb_eq in E1; subst; simpl; tauto|].
  destruct (String.eqb difficulty "normal") eqn:E2;
    [apply String.eqb_eq in E2; subst; simpl; tauto|].
  destruct (String.eqb difficulty "hard") eqn:E3;
    [apply String.eqb_eq in E3; subst; simpl; tauto|].
  discriminate.
Qed.

Lemma generate_course_total_witness :
  (exists course,
      generate_course no_draws single_beat_map "hard" 50 9.6 = Some course)
  <-> In "hard" ["easy"; "normal"; "hard"].
Proof.
  apply (generate_course_total (H := replay_source)). cbn. lia.
Defined.

(** X23.  In every course document that [generate_course] returns, [seed]
    and [attempts] are equal and lie between 0 and [max_attempts] (0 for a
    negative [max_attempts]); when they are 0 the course has no events.
    The events are sorted by time, each sits in one of the four lanes, has
    one of the eight event types, and carries a lead only if it is a
    [car_crash_beat]. *)
Theorem generate_course_document {Rng : Type} `{RandomSource Rng}
    (Random : Z -> Rng) (bd : BeatData) (difficulty : string)
    (max_attempts : Z) (target_score : R) (course : Course) :
  generate_course Random bd difficulty max_attempts target_score = Some course ->
  course_seed course = course_attempts course
  /\ 0 <= course_attempts course <= Z.max 0 max_attempts
  /\ (course_attempts course = 0 -> course_events course = [])
  /\ Forall course_event (course_events course)
  /\ StronglySorted le_t (course_events course).
Proof. apply generate_course_facts. Qed.

Lemma generate_course_document_witness :
  exists course,
    generate_course no_draws single_beat_map "hard" 3 9.6 = Some course
    /\ course_seed course = course_attempts course
    /\ 0 <= course_attempts course <= Z.max 0 3
    /\ (course_attempts course = 0 -> course_events course = [])
    /\ Forall course_event (course_events course)
    /\ StronglySorted le_t (course_events course).
Proof.
  destruct (generate_course_returns (H := replay_source) no_draws
              single_beat_map "hard" 3 9.6%R) as [course Hrun];
    [simpl; tauto | cbn; lia |].
  exists course. split; [exact Hrun|].
  exact (generate_course_document no_draws single_beat_map "hard" 3 9.6%R
           course Hrun).
Defined.

(** ** The three post-processing passes together *)

Lemma enemy_car_of_keeps events bd (pre done : list CourseEvent) :
  Forall2 (enemy_car_of events bd) pre done ->
  forall c, In c pre -> type c <> "car" -> In c done.
Proof.
  induction 1 as [|e e' pre done Hrel _ IH]; intros c Hc Hty; [contradiction|].
  destruct Hc as [<- | Hc].
  - left. destruct Hrel as [-> | (Hcar & _)]; [reflexivity | contradiction].
  - right. now apply IH.
Qed.

(** X24.  The post-processing of the champion (crash beats, guardians,
    enemy cars, on one generator) loses no event: the result is at least as
    long as the input, every input event that is not a [car] is in it
    unchanged, it is sorted by time, and if the input events sit in the
    four lanes with the generated types, so do the events of the
    result. *)
Theorem post_process_keeps {Rng : Type} `{RandomSource Rng}
    (events : list CourseEvent) (bd : BeatData) (rng : Rng) :
  let out := post_process events bd rng in
  (length events <= length out)%nat
  /\ (forall e, In e events -> type e <> "car" -> In e out)
  /\ StronglySorted le_t out
  /\ (Forall course_event events -> Forall course_event out).
Proof.
  cbn zeta. split; [|split; [|split]].
  - unfold post_process.
    pose proof (add_car_crash_beats_facts events bd rng 0.35) as H1.
    destruct (add_car_crash_beats events bd rng 0.35) as [events1 rng1].
    cbn [fst] in H1. destruct H1 as (_ & new1 & Hp1 & _).
    pose proof (add_guardians_facts events1 rng1 0.5) as H2.
    destruct (add_guardians events1 rng1 0.5) as [events2 rng2].
    cbn [fst] in H2. destruct H2 as (_ & new2 & Hp2 & _).
    pose proof (add_enemy_cars_facts events2 bd rng2 0.25) as H3.
    cbn zeta in H3. destruct H3 as (_ & events3 & Hp3 & Hrel).
    rewrite (Permutation_length Hp3), <- (Forall2_length Hrel),
      (Permutation_length Hp2), length_app, (Permutation_length Hp1), length_app.
    lia.
  - intros e He Hty. unfold post_process.
    pose proof (add_car_crash_beats_facts events bd rng 0.35) as H1.
    destruct (add_car_crash_beats events bd rng 0.35) as [events1 rng1].
    cbn [fst] in H1. destruct H1 as (_ & new1 & Hp1 & _).
    pose proof (add_guardians_facts events1 rng1 0.5) as H2.
    destruct (add_guardians events1 rng1 0.5) as [events2 rng2].
    cbn [fst] in H2. destruct H2 as (_ & new2 & Hp2 & _).
    pose proof (add_enemy_cars_facts events2 bd rng2 0.25) as H3.
    cbn zeta in H3. destruct H3 as (_ & events3 & Hp3 & Hrel).
    apply (Permutation_in _ (Permutation_sym Hp3)).
    apply (enemy_car_of_keeps _ _ _ _ Hrel); [|exact Hty].
    apply (Permutation_in _ (Permutation_sym Hp2)). apply in_or_app. left.
    apply (Permutation_in _ (Permutation_sym Hp1)). apply in_or_app. now left.
  - unfold post_process.
    destruct (add_car_crash_beats events bd rng 0.35) as [events1 rng1].
    destruct (add_guardians events1 rng1 0.5) as [events2 rng2].
    apply (add_enemy_cars_facts events2 bd rng2 0.25%Q).
  - intros Hev. now apply post_process_shape.
Qed.

(** ** The range of the energy factor of a quota *)

Lemma fold_left_Qplus_shift (l : list Q) : forall a,
  (fold_left Qplus l a == a + fold_left Qplus l 0)%Q.
Proof.
  induction l as [|x l IH]; intros a; cbn [fold_left].
  - ring.
  - rewrite (IH (a + x)%Q), (IH (0 + x)%Q). ring.
Qed.

Lemma Qsum_cons x l : (Qsum (x :: l) == x + Qsum l)%Q.
Proof.
  unfold Qsum. cbn [fold_left]. rewrite fold_left_Qplus_shift. ring.
Qed.

Lemma Qsum_nonneg l : Forall (fun v => (0 <= v)%Q) l -> (0 <= Qsum l)%Q.
Proof.
  induction 1 as [|x l Hx _ IH]; [apply Qle_refl|].
  rewrite Qsum_cons. Lqa.lra.
Qed.

Lemma nth_le_Qsum l : Forall (fun v => (0 <= v)%Q) l ->
  forall s, (0 <= nth s l 0 <= Qsum l)%Q.
Proof.
  induction 1 as [|x l Hx Hl IH]; intros s.
  - destruct s; cbn; split; apply Qle_refl.
  - pose proof (Qsum_nonneg l Hl) as Hs. rewrite Qsum_cons.
    destruct s as [|s]; cbn [nth]; [Lqa.lra|].
    specialize (IH s). Lqa.lra.
Qed.

(** X25.  For section energies that are not negative, the factor
    [energy_scale] of a section lies between 0.7 and
    [0.7 + 0.3 * len(section_energies)]: with the eight sections of the
    generator, between 0.7 and 3.1. *)
Theorem energy_scale_range (se : list Q) (s : nat) :
  Forall (fun v => (0 <= v)%Q) se ->
  (s < length se)%nat ->
  (0.7 <= energy_scale se s
   <= 0.7 + 0.3 * inject_Z (Z.of_nat (length se)))%Q.
Proof.
  intros Hse Hs. unfold energy_scale.
  assert (Hn : (1 <= inject_Z (Z.of_nat (length se)))%Q).
  { change 1%Q with (inject_Z 1). rewrite <- Zle_Qle. lia. }
  destruct (Qltb 0 (avg_section_energy se)) eqn:Eavg; [|split; Lqa.lra].
  apply Qltb_lt in Eavg. unfold avg_section_energy in *.
  replace (Z.max 1 (Z.of_nat (length se))) with (Z.of_nat (length se)) in * by lia.
  set (N := inject_Z (Z.of_nat (length se))) in *.
  destruct (nth_le_Qsum se Hse s) as [Hx0 Hx1].
  set (x := nth s se 0%Q) in *. set (S := Qsum se) in *.
  set (M := Qmax 0.01 (S / N * 2)).
  assert (HM1 : (S / N * 2 <= M)%Q) by apply Q.le_max_r.
  assert (HM0 : (0 < M)%Q) by Lqa.lra.
  assert (HS : (N * (S / N) == S)%Q) by (field; Lqa.lra).
  assert (HNM : (N * (S / N * 2) <= N * M)%Q)
    by (apply Qmult_le_l; [Lqa.lra | exact HM1]).
  assert (Hlo : (0 <= x / M)%Q)
    by (apply Qle_shift_div_l; [exact HM0 | Lqa.lra]).
  assert (Hhi : (x / M <= N * (1 # 2))%Q).
  { apply Qle_shift_div_r; [exact HM0|].
    clearbody x S M N. clear - Hx1 HS HNM. Lqa.lra. }
  clearbody x M N. clear - Hlo Hhi. split; Lqa.lra.
Qed.

Lemma energy_scale_range_witness :
  (0.7 <= energy_scale loud_first_section 0
   <= 0.7 + 0.3 * inject_Z (Z.of_nat (length loud_first_section)))%Q.
Proof.
  apply energy_scale_range.
  - repeat constructor; discriminate.
  - cbn. lia.
Defined.

(** ** A perfect lane coverage *)

Lemma Rsum_squares_zero {A : Type} (f : A -> R) (l : list A) :
  (0 <= Rsum (map (fun c => (f c ^ 2)%R) l))%R
  /\ ((Rsum (map (fun c => (f c ^ 2)%R) l) <= 0)%R ->
      Forall (fun c => f c = 0%R) l).
Proof.
  induction l as [|c l [IH0 IH]]; unfold Rsum in *; cbn [map fold_right].
  - split; [lra | constructor].
  - pose proof (pow2_ge_0 (f c)) as Hc. split; [lra|].
    intros Hle. constructor; [|apply IH; lra].
    assert (Hz : (f c ^ 2 = 0)%R) by lra.
    destruct (Req_dec (f c) 0) as [|Hne]; [assumption|].
    exfalso. apply (pow_nonzero _ 2) in Hne. contradiction.
Qed.

Lemma Rsum_squares_of_zeros {A : Type} (f : A -> R) (l : list A) :
  Forall (fun c => f c = 0%R) l ->
  Rsum (map (fun c => (f c ^ 2)%R) l) = 0%R.
Proof.
  induction 1 as [|c l Hc _ IH]; unfold Rsum in *; cbn [map fold_right];
    [reflexivity|].
  rewrite IH, Hc. ring.
Qed.

(** X26.  For lane counters that add up to a positive number of events,
    [lane_coverage] is 10 exactly when every counter holds a quarter of
    the events; any unevenness scores below 10. *)
Theorem lane_coverage_perfect_iff_even (counts : list Z) :
  0 < Zsum counts ->
  lane_coverage_score counts = 10%R
  <-> Forall (fun c => 4 * c = Zsum counts) counts.
Proof.
  intros Hn. unfold lane_coverage_score, LANE_COUNT.
  apply Z.ltb_lt in Hn. rewrite Hn. apply Z.ltb_lt in Hn.
  set (n := Zsum counts) in *.
  assert (He : (0 < IZR n / 4)%R).
  { apply IZR_lt in Hn. lra. }
  set (e := (IZR n / 4)%R) in *.
  destruct (Rsum_squares_zero (fun c => (IZR c - e)%R) counts) as [Hs0 Hsz].
  set (S := Rsum (map (fun c => ((IZR c - e) ^ 2)%R) counts)) in *.
  assert (Hdev : (0 <= S / e)%R).
  { unfold Rdiv. apply Rmult_le_pos; [exact Hs0|].
    left. now apply Rinv_0_lt_compat. }
  split.
  - intros Hscore.
    assert (Hle : (S / e <= 0)%R).
    { unfold Rmin, Rmax in Hscore.
      destruct (Rle_dec 0 (10 - S / e * 2));
        destruct (Rle_dec 10 _); lra. }
    assert (HS : (S <= 0)%R).
    { assert (Hm : (S = S / e * e)%R) by (field; lra).
      rewrite Hm. assert (Hz : (S / e = 0)%R) by lra. rewrite Hz. lra. }
    specialize (Hsz HS). eapply Forall_impl; [|exact Hsz].
    intros c Hc. cbv beta in Hc. apply eq_IZR.
    rewrite mult_IZR. unfold e in Hc. lra.
  - intros Hall.
    assert (HS : S = 0%R).
    { apply Rsum_squares_of_zeros. eapply Forall_impl; [|exact Hall].
      intros c Hc. cbv beta in Hc. apply (f_equal IZR) in Hc.
      rewrite mult_IZR in Hc. unfold e. fold n in Hc. lra. }
    rewrite HS. unfold Rdiv. rewrite Rmult_0_l.
    unfold Rmin, Rmax.
    destruct (Rle_dec 0 (10 - 0 * 2)); destruct (Rle_dec 10 _); lra.
Qed.

Lemma lane_coverage_perfect_iff_even_witness :
  lane_coverage_score even_counts = 10%R
  <-> Forall (fun c => 4 * c = Zsum even_counts) even_counts.
Proof.
  apply lane_coverage_perfect_iff_even. cbn. lia.
Defined.

(** ** The wave of obstacle lanes *)

Lemma bounce_lane_cases (i : Z) :
  exists j, i mod 8 = j /\ 0 <= j < 8
            /\ bounce_lane i = nth (Z.to_nat j) BOUNCE 0
            /\ bounce_lane (i + 1) = nth (Z.to_nat ((j + 1) mod 8)) BOUNCE 0.
Proof.
  exists (i mod 8). split; [reflexivity|].
  split; [apply Z.mod_pos_bound; lia|].
  unfold bounce_lane. cbn [BOUNCE length Z.of_nat Pos.of_succ_nat Pos.succ].
  split; [reflexivity|]. now rewrite Zplus_mod_idemp_l.
Qed.

(** X27.  [wave_lane] always returns a lane among the four that is at most
    one lane away from the bounce pattern [BOUNCE[event_index % 8]], and
    the pattern itself never moves by more than one lane from one index to
    the next, wrap-around included. *)
Theorem wave_lane_near_bounce {Rng : Type} `{RandomSource Rng}
    (event_index : Z) (params : DifficultyParams) (rng : Rng) :
  (exists l rng',
      wave_lane event_index params rng = Some (l, rng')
      /\ 0 <= l <= 3
      /\ Z.abs (l - bounce_lane event_index) <= 1)
  /\ Z.abs (bounce_lane (event_index + 1) - bounce_lane event_index) <= 1.
Proof.
  destruct (bounce_lane_cases event_index) as (j & _ & Hj & Hb & Hb1).
  assert (Hcase : j = 0 \/ j = 1 \/ j = 2 \/ j = 3 \/ j = 4 \/ j = 5 \/ j = 6
                  \/ j = 7) by lia.
  split.
  - assert (Hbase : 0 <= bounce_lane event_index <= 3).
    { rewrite Hb.
      destruct Hcase as [-> | [-> | [-> | [-> | [-> | [-> | [-> | ->]]]]]]];
        vm_compute; split; discriminate. }
    unfold wave_lane. cbv zeta.
    change (nth (Z.to_nat (event_index mod Z.of_nat (length BOUNCE))) BOUNCE 0)
      with (bounce_lane event_index).
    set (base := bounce_lane event_index) in *. clearbody base.
    unfold bind, draw, choice, ret.
    destruct (rng_random rng) as [u rng1].
    destruct (Rltb (Q2R u) (wave_noise params)).
    + destruct (rng_randbelow _ rng1) as [k rng2].
      eexists _, _. split; [reflexivity|].
      assert (Hd : -1 <= nth (Z.to_nat k) [-1; 1] 0 <= 1).
      { destruct (Z.to_nat k) as [|[|[|n]]]; cbn; lia. }
      unfold LANE_COUNT. lia.
    + eexists _, _. split; [reflexivity|].
      unfold LANE_COUNT. lia.
  - rewrite Hb, Hb1.
    destruct Hcase as [-> | [-> | [-> | [-> | [-> | [-> | [-> | ->]]]]]]];
      vm_compute; discriminate.
Qed.

(** ** Reachability of what the validator keeps *)

Lemma safe_lanes_of_iff blocked l :
  In l (safe_lanes_of blocked) <-> 0 <= l <= 3 /\ ~ In l blocked.
Proof.
  unfold safe_lanes_of. rewrite set_diff_iff. simpl. split.
  - intros [Hl Hn]. split; [lia | exact Hn].
  - intros [Hl Hn]. split; [lia | exact Hn].
Qed.

Lemma reachable_iff prev_safe cur_safe m :
  reachable prev_safe cur_safe m = true
  <-> exists p c, In p prev_safe /\ In c cur_safe /\ Z.abs (c - p) <= m.
Proof.
  unfold reachable. rewrite existsb_exists. split.
  - intros (p & Hp & Hc). apply existsb_exists in Hc.
    destruct Hc as (c & Hc & Hle). apply Z.leb_le in Hle. now exists p, c.
  - intros (p & c & Hp & Hc & Hle). exists p. split; [exact Hp|].
    apply existsb_exists. exists c. split; [exact Hc | now apply Z.leb_le].
Qed.

Lemma reachable_incl ps ps' cs cs' m :
  incl ps ps' -> incl cs cs' ->
  reachable ps cs m = true -> reachable ps' cs' m = true.
Proof.
  intros Hp Hc. rewrite !reachable_iff. intros (p & c & H1 & H2 & H3).
  exists p, c. split; [now apply Hp|]. split; [now apply Hc | exact H3].
Qed.

Lemma tracks_blocked_lanes blocked obs :
  tracks blocked obs ->
  forall l, In l blocked <-> In l (blocked_lanes_of obs).
Proof.
  intros [_ Hb] l. destruct (blocked_lanes_of_tracks obs) as [_ Ho].
  now rewrite Hb, Ho.
Qed.

(** A set that tracks the obstacles a group keeps has the safe lanes of
    the kept group. *)
Lemma kept_safe_lanes blocked robs pickups :
  Forall (fun e => is_obstacle e = true) robs ->
  tracks blocked robs ->
  forall l, In l (safe_lanes_of blocked)
            <-> In l (safe_lanes_of
                        (blocked_lanes_of
                           (filter is_obstacle (rev robs ++ filter is_pickup pickups)))).
Proof.
  intros Hobs Htr l.
  rewrite filter_app, filter_obstacle_pickups, app_nil_r.
  rewrite filter_obstacle_id by (apply Forall_rev; exact Hobs).
  rewrite !safe_lanes_of_iff.
  rewrite <- (tracks_blocked_lanes blocked (rev robs) (tracks_rev _ _ Htr)).
  reflexivity.
Qed.

Lemma restore_reachability_reaches ps mlc robs : forall blocked cull r b c,
  restore_reachability ps mlc robs blocked cull = (r, b, c) ->
  reachable ps (safe_lanes_of b) mlc = true \/ r = [].
Proof.
  induction robs as [|e rest IH]; intros blocked cull r b c Hrun;
    cbn [restore_reachability] in Hrun.
  - inversion Hrun; subst. now right.
  - destruct (reachable ps (safe_lanes_of (set_remove Z.eq_dec (lane e) blocked)) mlc)
      eqn:Er.
    + inversion Hrun; subst. now left.
    + apply IH in Hrun. exact Hrun.
Qed.

Lemma reachable_all_safe ps mlc :
  (exists p, In p ps) -> 0 <= mlc ->
  incl ps [0; 1; 2; 3] ->
  reachable ps (safe_lanes_of []) mlc = true.
Proof.
  intros [p Hp] Hm Hin. apply reachable_iff. exists p, p.
  split; [exact Hp|]. split; [|lia].
  apply safe_lanes_of_iff. specialize (Hin p Hp). simpl in Hin.
  split; [lia | intros []].
Qed.

Lemma safe_lanes_in_range blocked : incl (safe_lanes_of blocked) [0; 1; 2; 3].
Proof.
  intros l Hl. apply safe_lanes_of_iff in Hl. simpl. lia.
Qed.

Lemma obstacles_rev_filter l :
  Forall (fun e => is_obstacle e = true) (rev (filter is_obstacle l)).
Proof. apply Forall_rev, obstacles_of_group. Qed.

Lemma skipn_obstacles k l :
  Forall (fun e => is_obstacle e = true) l ->
  Forall (fun e => is_obstacle e = true) (skipn k l).
Proof.
  intros Hl. apply Forall_forall. intros e He.
  rewrite Forall_forall in Hl. apply Hl.
  rewrite <- (firstn_skipn k l). apply in_or_app. now right.
Qed.

Lemma enforce_keeps_one m robs : forall blocked cull r b c,
  m <= 3 ->
  NoDup (map lane robs) -> tracks blocked robs -> robs <> [] ->
  enforce_min_safe m robs blocked cull = (r, b, c) ->
  r <> [].
Proof.
  induction robs as [|e rest IH]; intros blocked cull r b c Hm Hnd Htr Hne Hrun;
    [congruence|].
  cbn [enforce_min_safe] in Hrun.
  destruct (safe_count blocked <? m) eqn:Elt.
  - apply Z.ltb_lt in Elt. unfold safe_count, LANE_COUNT in Elt.
    rewrite (tracks_length _ _ Hnd Htr) in Elt. cbn [length] in Elt.
    assert (Hrest : rest <> []) by (destruct rest; [cbn in Elt; lia | discriminate]).
    apply (IH _ _ _ _ _ Hm) in Hrun; trivial.
    + cbn [map] in Hnd. now inversion Hnd.
    + now apply tracks_pop.
  - inversion Hrun; subst. discriminate.
Qed.

Lemma single_obstacle_reachable ps mlc blocked e :
  1 <= mlc -> (exists p, In p ps) -> incl ps [0; 1; 2; 3] ->
  tracks blocked [e] ->
  reachable ps (safe_lanes_of blocked) mlc = true.
Proof.
  intros Hm [p Hp] Hin [_ Hb]. apply reachable_iff.
  assert (Hr : 0 <= p <= 3) by (specialize (Hin p Hp); simpl in Hin; lia).
  assert (Hblocked : forall l, In l blocked -> l = lane e).
  { intros l Hl. apply Hb in Hl. simpl in Hl. destruct Hl as [<- | []].
    reflexivity. }
  destruct (Z.eq_dec p (lane e)) as [Heq | Hne].
  - destruct (Z_le_gt_dec p 2).
    + exists p, (p + 1). split; [exact Hp|]. split; [|lia].
      apply safe_lanes_of_iff. split; [lia|]. intros Hl.
      apply Hblocked in Hl. lia.
    + exists p, (p - 1). split; [exact Hp|]. split; [|lia].
      apply safe_lanes_of_iff. split; [lia|]. intros Hl.
      apply Hblocked in Hl. lia.
  - exists p, p. split; [exact Hp|]. split; [|lia].
    apply safe_lanes_of_iff. split; [lia|]. intros Hl.
    apply Hblocked in Hl. lia.
Qed.

Lemma restore_keeps_one ps mlc :
  1 <= mlc -> (exists p, In p ps) -> incl ps [0; 1; 2; 3] ->
  forall robs blocked cull r b c,
  NoDup (map lane robs) -> tracks blocked robs -> robs <> [] ->
  reachable ps (safe_lanes_of blocked) mlc = false ->
  restore_reachability ps mlc robs blocked cull = (r, b, c) ->
  r <> [].
Proof.
  intros Hm Hps Hin.
  induction robs as [|e rest IH]; intros blocked cull r b c Hnd Htr Hne Hr Hrun;
    [congruence|].
  destruct rest as [|e2 rest].
  - rewrite (single_obstacle_reachable ps mlc blocked e Hm Hps Hin Htr) in Hr.
    discriminate.
  - cbn [restore_reachability] in Hrun.
    assert (Htr' : tracks (set_remove Z.eq_dec (lane e) blocked) (e2 :: rest))
      by now apply tracks_pop.
    assert (Hnd' : NoDup (map lane (e2 :: rest)))
      by (cbn [map] in Hnd; now inversion Hnd).
    destruct (reachable ps (safe_lanes_of (set_remove Z.eq_dec (lane e) blocked)) mlc)
      eqn:Er.
    + inversion Hrun; subst. discriminate.
    + apply (IH _ _ _ _ _ Hnd' Htr') in Hrun; trivial. discriminate.
Qed.

(** Non-empty blocks that share a time stamp and are far apart come out
    of the grouping loop one group each. *)
Lemma blocks_groups_exact (bs : list TimeGroup) : forall ct cur acc,
  tight bs -> far_apart (map fst bs) ->
  Forall (fun b => (ct + 0.05 <= fst b)%Q) bs ->
  Forall (fun b => snd b <> []) bs ->
  cur <> [] ->
  group_loop (concat (map snd bs)) ct cur acc
  = acc ++ (ct, cur) :: map (fun b => (first_time (snd b), snd b)) bs.
Proof.
  induction bs as [|b bs IH]; intros ct cur acc Ht Hf Hlater Hne Hcur.
  - simpl. destruct cur; [congruence | reflexivity].
  - inversion Ht as [|? ? Hb Ht']; subst.
    inversion Hf as [|? ? Hf' Hall]; subst.
    inversion Hlater as [|? ? Hb0 Hlater']; subst.
    inversion Hne as [|? ? HK Hne']; subst.
    destruct b as [T K]. cbn [fst snd map concat] in *.
    destruct K as [|e K]; [congruence|].
    inversion Hb as [|? ? He HKt]; subst.
    cbn [app group_loop]. rewrite (later_opens e ct T He Hb0).
    rewrite join_all by (eapply same_time_window; eassumption).
    rewrite (IH (t e) ([e] ++ K) (flush_group ct cur acc)); trivial.
    + destruct cur; [congruence|]. cbn [flush_group app first_time].
      now rewrite <- app_assoc.
    + rewrite Forall_forall in Hall |- *. intros b' Hb'.
      assert (Hfar : (T + 0.05 <= fst b')%Q) by (apply Hall; now apply in_map).
      rewrite He. exact Hfar.
Qed.

Lemma blocks_time_groups_exact (bs : list TimeGroup) :
  tight bs -> far_apart (map fst bs) ->
  Forall (fun b => Forall (fun e => (0 <= t e)%Q) (snd b)) bs ->
  Forall (fun b => snd b <> []) bs ->
  group_loop (concat (map snd bs)) (-999) [] []
  = map (fun b => (first_time (snd b), snd b)) bs.
Proof.
  intros Ht Hf Hpos Hne. destruct bs as [|b bs]; [reflexivity|].
  inversion Ht as [|? ? Hb Ht']; subst.
  inversion Hf as [|? ? Hf' Hall]; subst.
  inversion Hpos as [|? ? Hb0 Hpos']; subst.
  inversion Hne as [|? ? HK Hne']; subst.
  destruct b as [T K]. cbn [fst snd map concat] in *.
  destruct K as [|e K]; [congruence|].
  inversion Hb as [|? ? He HKt]; subst.
  inversion Hb0 as [|? ? He0 _]; subst.
  cbn [app group_loop].
  assert (Hopen : Qltb (Qabs (t e - -999)) 0.05 = false).
  { apply Qltb_ge. rewrite Qabs_pos; Lqa.lra. }
  rewrite Hopen. cbn [flush_group].
  rewrite join_all by (eapply same_time_window; eassumption).
  rewrite (blocks_groups_exact bs (t e) ([e] ++ K) []); trivial.
  - rewrite Forall_forall in Hall |- *. intros b' Hb'.
    assert (Hfar : (T + 0.05 <= fst b')%Q) by (apply Hall; now apply in_map).
    rewrite He. exact Hfar.
Qed.

Lemma kept_blocks_less (k ges : list CourseEvent) (x y : Q) :
  incl k ges ->
  incl (safe_lanes_of (group_blocked (x, ges)))
       (safe_lanes_of (group_blocked (y, k))).
Proof.
  intros Hincl l. rewrite !safe_lanes_of_iff. unfold group_blocked. cbn [snd].
  intros [Hr Hn]. split; [exact Hr|]. intros Hl. apply Hn.
  destruct (blocked_lanes_of_tracks (filter is_obstacle k)) as [_ Hk].
  destruct (blocked_lanes_of_tracks (filter is_obstacle ges)) as [_ Hg].
  apply Hg. apply Hk in Hl. apply in_map_iff in Hl.
  destruct Hl as (e & <- & He). apply filter_In in He. destruct He as [He Ho].
  apply in_map. apply filter_In. split; [now apply Hincl | exact Ho].
Qed.

Lemma first_time_of_kept (k : list CourseEvent) (g : TimeGroup) :
  k <> [] -> incl k (snd g) ->
  Forall (fun e => (t e == fst g)%Q) (snd g) ->
  (first_time k == fst g)%Q.
Proof.
  intros Hne Hincl Htight. destruct k as [|e k]; [congruence|].
  cbn [first_time]. rewrite Forall_forall in Htight.
  apply Htight, Hincl. now left.
Qed.

Lemma combine_kept {A B C : Type} (R : A * B -> C -> Prop) (gs : list (A * B))
    (ks : list C) :
  Forall2 R gs ks ->
  map snd (combine (map fst gs) ks) = ks
  /\ map fst (combine (map fst gs) ks) = map fst gs
  /\ Forall2 (fun g b => fst b = fst g /\ R g (snd b)) gs
             (combine (map fst gs) ks).
Proof.
  induction 1 as [|g k gs ks Hgk _ (IH1 & IH2 & IH3)]; cbn [map combine].
  - repeat split; constructor.
  - rewrite IH1, IH2. repeat split. constructor; [now split | exact IH3].
Qed.

Lemma Forall2_Forall_r {A B : Type} (R : A -> B -> Prop) (P : B -> Prop) l l' :
  Forall2 R l l' ->
  (forall x y, In x l -> R x y -> P y) ->
  Forall P l'.
Proof.
  induction 1 as [|x y l l' Hxy _ IH]; intros Himp; constructor.
  - apply (Himp x y); [now left | exact Hxy].
  - apply IH. intros x' y' Hx'. apply Himp. now right.
Qed.

(** What a group keeps can be reached from the safe lanes of the group
    before it, as the grouping made it. *)
Lemma validate_group_with_reachable crossings params pt pes g cull :
  NoDup (map lane (filter is_obstacle (snd g))) ->
  (exists p, In p (safe_lanes_of (group_blocked (pt, pes)))) ->
  0 <= crossings pt (fst g) ->
  reachable (safe_lanes_of (group_blocked (pt, pes)))
            (safe_lanes_of
               (group_blocked
                  (fst g,
                   fst (validate_group_with crossings params
                          (Some (pt, pes)) g cull))))
            (crossings pt (fst g)) = true.
Proof.
  intros Hnd Hps Hm. destruct g as [gt ges]. cbn [fst snd] in *.
  unfold group_blocked at 2. cbn [snd]. unfold validate_group_with.
  pose proof (blocked_lanes_of_tracks (filter is_obstacle ges)) as Htr0.
  apply tracks_rev in Htr0.
  assert (Hnd0 : NoDup (map lane (rev (filter is_obstacle ges)))).
  { rewrite map_rev. apply NoDup_rev. exact Hnd. }
  destruct (enforce_min_safe (min_safe_lanes params)
              (rev (filter is_obstacle ges))
              (blocked_lanes_of (filter is_obstacle ges)) cull)
    as [[robs1 blocked1] cull1] eqn:E1.
  assert (Hobs1 : Forall (fun e => is_obstacle e = true) robs1).
  { destruct (enforce_min_safe_pops _ _ _ _ _ _ _ E1) as (k & -> & _).
    apply skipn_obstacles, obstacles_rev_filter. }
  destruct (enforce_min_safe_tracks _ _ _ _ _ _ _ Hnd0 Htr0 E1)
    as (Hnd1 & Htr1 & _).
  unfold group_blocked in *. cbn [snd] in *.
  set (ps := safe_lanes_of (blocked_lanes_of (filter is_obstacle pes))) in *.
  set (mlc := crossings pt gt) in *.
  destruct (reachable ps (safe_lanes_of blocked1) mlc) eqn:Er.
  - cbn [fst]. eapply reachable_incl; [apply incl_refl | | exact Er].
    intros l Hl. now apply (kept_safe_lanes blocked1 robs1 ges Hobs1 Htr1).
  - destruct (restore_reachability ps mlc robs1 blocked1 cull1)
      as [[robs2 blocked2] cull2] eqn:E2.
    cbn [fst].
    assert (Hobs2 : Forall (fun e => is_obstacle e = true) robs2).
    { destruct (restore_reachability_pops _ _ _ _ _ _ _ _ E2) as (k & -> & _).
      now apply skipn_obstacles. }
    destruct (restore_reachability_tracks _ _ _ _ _ _ _ _ Hnd1 Htr1 E2)
      as (Hnd2 & Htr2 & _).
    assert (Hreach : reachable ps (safe_lanes_of blocked2) mlc = true).
    { destruct (restore_reachability_reaches _ _ _ _ _ _ _ _ E2) as [Hr | ->];
        [exact Hr|].
      apply tracks_nil in Htr2. subst blocked2.
      apply reachable_all_safe; [exact Hps | exact Hm |].
      apply safe_lanes_in_range. }
    eapply reachable_incl; [apply incl_refl | | exact Hreach].
    intros l Hl. now apply (kept_safe_lanes blocked2 robs2 ges Hobs2 Htr2).
Qed.

(** A group that follows its predecessor by a lane change or more never
    loses all its events. *)
Lemma validate_group_with_nonempty crossings params prev g cull :
  snd g <> [] ->
  min_safe_lanes params <= 3 ->
  NoDup (map lane (filter is_obstacle (snd g))) ->
  match prev with
  | None => True
  | Some pg =>
      1 <= crossings (fst pg) (fst g)
      /\ exists p, In p (safe_lanes_of (group_blocked pg))
  end ->
  fst (validate_group_with crossings params prev g cull) <> [].
Proof.
  intros Hne Hm Hnd Hprev. destruct g as [gt ges]. cbn [fst snd] in *.
  unfold validate_group_with.
  destruct (filter is_pickup ges) as [|pk pks] eqn:Epk.
  2:{ destruct (enforce_min_safe _ _ _ _) as [[robs1 blocked1] cull1].
      destruct prev as [[pt pes]|];
        [destruct (reachable _ _ _);
         [|destruct (restore_reachability _ _ _ _ _) as [[r b] c]]|];
        cbn [fst]; intros Heq; apply app_eq_nil in Heq;
        destruct Heq as [_ Heq]; discriminate. }
  assert (Hobs : filter is_obstacle ges <> []).
  { pose proof (filter_partition_length is_pickup ges) as Hlen.
    rewrite Epk in Hlen. cbn [length] in Hlen.
    change (fun x => negb (is_pickup x)) with is_obstacle in Hlen.
    destruct (filter is_obstacle ges); [|discriminate].
    destruct ges; [congruence | cbn in Hlen; lia]. }
  pose proof (blocked_lanes_of_tracks (filter is_obstacle ges)) as Htr0.
  apply tracks_rev in Htr0.
  assert (Hnd0 : NoDup (map lane (rev (filter is_obstacle ges)))).
  { rewrite map_rev. apply NoDup_rev. exact Hnd. }
  assert (Hne0 : rev (filter is_obstacle ges) <> []).
  { intros Heq. apply (f_equal (@rev _)) in Heq. rewrite rev_involutive in Heq.
    now apply Hobs. }
  destruct (enforce_min_safe (min_safe_lanes params)
              (rev (filter is_obstacle ges))
              (blocked_lanes_of (filter is_obstacle ges)) cull)
    as [[robs1 blocked1] cull1] eqn:E1.
  pose proof (enforce_keeps_one _ _ _ _ _ _ _ Hm Hnd0 Htr0 Hne0 E1) as Hne1.
  destruct (enforce_min_safe_tracks _ _ _ _ _ _ _ Hnd0 Htr0 E1)
    as (Hnd1 & Htr1 & _).
  assert (Hrev : forall r : list CourseEvent, r <> [] -> rev r ++ [] <> []).
  { intros r Hr Heq. rewrite app_nil_r in Heq.
    apply (f_equal (@rev _)) in Heq. rewrite rev_involutive in Heq.
    now apply Hr. }
  destruct prev as [[pt pes]|]; [|cbn [fst]; now apply Hrev].
  cbn [fst] in Hprev. destruct Hprev as [Hmlc Hps].
  destruct (reachable _ (safe_lanes_of blocked1) _) eqn:Er;
    [cbn [fst]; now apply Hrev|].
  destruct (restore_reachability _ _ robs1 blocked1 cull1)
    as [[robs2 blocked2] cull2] eqn:E2.
  cbn [fst]. apply Hrev.
  eapply (restore_keeps_one _ _ Hmlc Hps (safe_lanes_in_range _));
    [exact Hnd1 | exact Htr1 | exact Hne1 | exact Er | exact E2].
Qed.

Lemma validate_groups_with_chain crossings params gs :
  forall prev validated cull v' c',
  validate_groups_with crossings params prev gs validated cull = (v', c') ->
  exists ks,
    v' = validated ++ concat ks /\ kept_chain crossings params prev gs ks.
Proof.
  induction gs as [|g gs IH]; cbn [validate_groups_with];
    intros prev validated cull v' c' Hrun.
  - inversion Hrun; subst. exists []. cbn. now rewrite app_nil_r.
  - destruct (validate_group_with crossings params prev g cull)
      as [kept cull1] eqn:Eg.
    apply IH in Hrun. destruct Hrun as (ks & -> & Hchain).
    exists (kept :: ks). split.
    + cbn [concat]. now rewrite <- app_assoc.
    + cbn [kept_chain]. split; [|exact Hchain].
      exists cull. now rewrite Eg.
Qed.

Lemma chain_reachable crossings params :
  respects_times crossings ->
  min_safe_lanes params <= 3 ->
  forall gs prev ks,
  kept_chain crossings params prev gs ks ->
  Forall paced_group gs ->
  match prev with
  | None => lane_change_apart crossings gs
  | Some pg => lane_change_apart crossings (pg :: gs) /\ paced_group pg
  end ->
  Forall2 (fun g k => k <> [] /\ incl k (snd g)) gs ks
  /\ consecutive_reachable_with crossings
       (map (fun k => (first_time k, k)) ks) = true
  /\ match prev, gs, ks with
     | Some pg, g :: _, k :: _ =>
         reachable (safe_lanes_of (group_blocked pg))
                   (safe_lanes_of (group_blocked (fst g, k)))
                   (crossings (fst pg) (fst g)) = true
     | _, _, _ => True
     end.
Proof.
  intros Hproper Hm.
  induction gs as [|g gs IH]; intros prev ks Hchain Hgs Hprev.
  - destruct ks; [|contradiction]. cbn.
    split; [constructor|]. split; [reflexivity|]. now destruct prev.
  - destruct ks as [|k ks]; [contradiction|].
    cbn [kept_chain] in Hchain. destruct Hchain as [[c0 Hk] Hchain].
    apply Forall_cons_iff in Hgs. destruct Hgs as [Hg Hgs'].
    destruct Hg as (Hgne & Hgt & Hgnd & Hgsafe).
    assert (Hnext : lane_change_apart crossings (g :: gs)).
    { destruct prev as [pg|]; [|exact Hprev].
      destruct Hprev as [Hl _]. cbn [lane_change_apart] in Hl. apply Hl. }
    destruct (IH (Some g) ks Hchain Hgs')
      as (Hall & Hcons & Hlink).
    { split; [exact Hnext|]. now repeat split. }
    assert (Hincl : incl k (snd g))
      by (rewrite Hk; apply validate_group_with_incl).
    assert (Hkne : k <> []).
    { rewrite Hk. apply validate_group_with_nonempty; trivial.
      destruct prev as [pg|]; [|exact I].
      destruct Hprev as [Hl (_ & _ & _ & Hpsafe)].
      cbn [lane_change_apart] in Hl. destruct Hl as [Hgap _].
      split; [exact Hgap|].
      destruct (safe_lanes_of (group_blocked pg)) as [|p ps];
        [congruence | exists p; now left]. }
    split; [constructor; [now split | exact Hall]|]. split.
    + cbn [map consecutive_reachable_with].
      destruct ks as [|k2 ks]; [reflexivity|].
      destruct gs as [|g2 gs]; [contradiction|].
      cbn [map] in Hcons |- *. rewrite Hcons, andb_true_r.
      apply Forall2_cons_iff in Hall. destruct Hall as [[Hk2ne Hk2incl] _].
      apply Forall_cons_iff in Hgs'. destruct Hgs' as [(_ & Hg2t & _) _].
      unfold pair_reachable_with. cbn [fst].
      rewrite (Hproper _ (fst g) _ (fst g2)
                 (first_time_of_kept k g Hkne Hincl Hgt)
                 (first_time_of_kept k2 g2 Hk2ne Hk2incl Hg2t)).
      eapply reachable_incl; [| |exact Hlink].
      * destruct g as [gt ges]. now apply kept_blocks_less.
      * intros l Hl. exact Hl.
    + destruct prev as [pg|]; [|exact I].
      destruct Hprev as [Hl (_ & _ & _ & Hpsafe)].
      cbn [lane_change_apart] in Hl. destruct Hl as [Hgap _].
      rewrite Hk. destruct pg as [pt pes]. cbn [fst] in *.
      apply validate_group_with_reachable; trivial.
      * destruct (safe_lanes_of (group_blocked (pt, pes))) as [|p ps];
          [congruence | exists p; now left].
      * lia.
Qed.

Lemma validate_paths_reachable_facts (crossings : Q -> Q -> Z)
    (events : list CourseEvent) (params : DifficultyParams) :
  respects_times crossings ->
  min_safe_lanes params <= 3 ->
  paced crossings events ->
  let out := fst (validate_paths_with crossings events params) in
  groups_survive (time_groups events) (time_groups out)
  /\ reachability_invariant_with crossings out = true.
Proof.
  intros Hproper Hm ((Hpos & Hcl) & Hsafe & Hgap). cbn zeta.
  unfold validate_paths_with.
  destruct events as [|e0 es] eqn:E; [split; [constructor | reflexivity]|].
  rewrite <- E in *. clear E e0 es.
  destruct (validate_groups_with crossings params None (time_groups events) [] 0)
    as [validated cull] eqn:Ev.
  apply validate_groups_with_chain in Ev. destruct Ev as (ks & -> & Hchain).
  cbn [fst app].
  destruct (time_groups_windows events) as [Hwin Hsp].
  pose proof (flatten_time_groups events) as Hflat.
  set (gs := time_groups events) in *.
  assert (Hpaced : Forall paced_group gs).
  { apply Forall_forall. intros g Hg.
    rewrite Forall_forall in Hwin, Hcl, Hsafe.
    destruct (Hwin g Hg) as [Hne _]. destruct (Hcl g Hg) as [Ht Hnd].
    repeat split; trivial. now apply Hsafe. }
  destruct (chain_reachable crossings params Hproper Hm gs None ks Hchain
              Hpaced Hgap) as (Hall & Hcons & _).
  destruct (combine_kept _ gs ks Hall) as (Hsnd & Hfst & Hbs).
  set (bs := combine (map fst gs) ks) in *.
  assert (Hin : forall g, In g gs -> Forall (fun e => (0 <= t e)%Q) (snd g)).
  { intros g Hg. apply Forall_forall. intros e He.
    rewrite Forall_forall in Hpos. apply Hpos.
    apply (Permutation_in _ (Permutation_sym (sort_by_t_perm events))).
    rewrite <- Hflat. unfold flatten. apply in_concat.
    exists (snd g). split; [now apply in_map | exact He]. }
  assert (Htight : tight bs).
  { apply (Forall2_Forall_r _ _ _ _ Hbs). intros g b Hg (Hf & _ & Hincl).
    rewrite Forall_forall in Hpaced. destruct (Hpaced g Hg) as (_ & Ht & _).
    rewrite Forall_forall in Ht. apply Forall_forall. intros e He.
    rewrite Hf. apply Ht, Hincl, He. }
  assert (Hnonneg : Forall (fun b => Forall (fun e => (0 <= t e)%Q) (snd b)) bs).
  { apply (Forall2_Forall_r _ _ _ _ Hbs). intros g b Hg (_ & _ & Hincl).
    specialize (Hin g Hg). rewrite Forall_forall in Hin.
    apply Forall_forall. intros e He. apply Hin, Hincl, He. }
  assert (Hne : Forall (fun b => snd b <> []) bs).
  { apply (Forall2_Forall_r _ _ _ _ Hbs). now intros g b _ (_ & Hk & _). }
  assert (Hfar : far_apart (map fst bs)).
  { rewrite Hfst. now apply spaced_far_apart. }
  pose proof (blocks_sorted bs Htight Hfar) as Hsorted.
  rewrite Hsnd in Hsorted.
  assert (Hgroups : time_groups (sort_by_t (concat ks))
                    = map (fun k => (first_time k, k)) ks).
  { unfold time_groups. rewrite !(sort_by_t_sorted_id _ Hsorted).
    rewrite <- Hsnd at 1.
    rewrite (blocks_time_groups_exact bs Htight Hfar Hnonneg Hne).
    rewrite <- Hsnd. now rewrite map_map. }
  unfold reachability_invariant_with. rewrite Hgroups.
  split; [|exact Hcons].
  unfold groups_survive.
  clear - Hall Hpaced. revert Hpaced.
  induction Hall as [|g k gs ks [Hk Hincl] _ IH]; intros Hpaced;
    [constructor|].
  apply Forall_cons_iff in Hpaced. destruct Hpaced as [(_ & Ht & _) Hpaced].
  cbn [map]. constructor; [|now apply IH].
  cbn [fst snd]. split; [exact Hk|]. split; [exact Hincl|].
  now apply first_time_of_kept.
Qed.

(** X28.  Whatever the rounding of [int(time_gap / LANE_CROSS_TIME_S)]
    (the count [crossings] is left open): on paced input (times not
    negative, one time stamp per time group, the obstacles of a group in
    pairwise distinct lanes, a lane left free in every group, at least one
    lane change counted between successive groups) and with
    [min_safe_lanes] at most 3, no time group is culled away entirely
    (each time group of the input is in the output with some of its events
    and at its time), and the output satisfies the reachability invariant:
    from each of its time groups some safe lane of the next is within the
    lane changes counted between them. *)
Theorem validate_paths_reachable_when_paced (crossings : Q -> Q -> Z)
    (events : list CourseEvent) (params : DifficultyParams) :
  respects_times crossings ->
  min_safe_lanes params <= 3 ->
  paced crossings events ->
  let out := fst (validate_paths_with crossings events params) in
  groups_survive (time_groups events) (time_groups out)
  /\ reachability_invariant_with crossings out = true.
Proof. apply validate_paths_reachable_facts. Qed.

(** Groups at 2 s and 2.5 s: one lane change, in doubles as in exact
    arithmetic. *)
Lemma validate_paths_reachable_when_paced_witness :
  let out := fst (validate_paths_with exact_crossings facing_walls preset_hard) in
  groups_survive (time_groups facing_walls) (time_groups out)
  /\ reachability_invariant_with exact_crossings out = true.
Proof.
  apply validate_paths_reachable_when_paced.
  - apply exact_crossings_respects_times.
  - cbn. lia.
  - split; [split|split].
    + repeat constructor; discriminate.
    + repeat constructor; simpl; try reflexivity; intuition discriminate.
    + repeat constructor; discriminate.
    + cbn. split; [discriminate | exact I].
Defined.

(** ** The score report of a course document *)

Lemma py_round_R_facts (x : R) :
  (- (1 / 2) <= IZR (py_round_R x) - x <= 1 / 2)%R
  /\ forall n m, (IZR n <= x <= IZR m)%R -> n <= py_round_R x <= m.
Proof.
  unfold py_round_R. destruct (base_Int_part x) as [Hlo Hhi].
  set (f := Int_part x) in *. clearbody f.
  assert (Hbetween : forall n m, (IZR n <= x <= IZR m)%R -> n <= f <= m).
  { intros n m [Hn Hm]. split.
    - assert (Hlt : (IZR n < IZR (f + 1))%R) by (rewrite plus_IZR; lra).
      apply lt_IZR in Hlt. lia.
    - apply le_IZR. lra. }
  destruct (Rlt_dec (x - IZR f) (1 / 2)) as [Hd | Hd].
  - split; [lra | exact Hbetween].
  - assert (Hup : forall n m, (IZR n <= x <= IZR m)%R -> n <= f + 1 <= m).
    { intros n m Hnm. destruct (Hbetween n m Hnm) as [H1 H2].
      split; [lia|]. destruct Hnm as [_ Hm].
      assert (Hlt : (IZR f < IZR m)%R) by lra.
      apply lt_IZR in Hlt. lia. }
    destruct (Rlt_dec (1 / 2) (x - IZR f)) as [Hd' | Hd'].
    + split; [rewrite plus_IZR; lra | exact Hup].
    + destruct (Z.even f).
      * split; [lra | exact Hbetween].
      * split; [rewrite plus_IZR; lra | exact Hup].
Qed.

Lemma py_round2_rounds (x : R) : rounds_to (py_round2 x) x.
Proof.
  unfold rounds_to, py_round2.
  destruct (py_round_R_facts (x * 100)) as [Hclose Hbetween].
  split.
  - apply Rabs_le. lra.
  - unfold in_score_range. intros Hx.
    destruct (Hbetween 0 1000) as [H0 H1]; [lra|].
    apply IZR_le in H0, H1. lra.
Qed.

(** X29.  [ScoreBreakdown.to_dict] reports every score and the total
    rounded to two decimals: each reported number is within 0.005 of the
    number it reports, and is between 0 and 10 whenever that number
    is. *)
Theorem to_dict_rounds (s : ScoreBreakdown) :
  let r := to_dict s in
  rounds_to (report_total r) (total s)
  /\ rounds_to (report_beat_sync r) (beat_sync s)
  /\ rounds_to (report_flow r) (flow s)
  /\ rounds_to (report_difficulty_curve r) (difficulty_curve s)
  /\ rounds_to (report_type_variety r) (type_variety s)
  /\ rounds_to (report_lane_coverage r) (lane_coverage s)
  /\ rounds_to (report_energy_match r) (energy_match s)
  /\ rounds_to (report_cull_rate r) (cull_rate s).
Proof.
  cbn. do 7 (split; [apply py_round2_rounds|]). apply py_round2_rounds.
Qed.

Lemma to_dict_in_range (s : ScoreBreakdown) :
  scores_in_range s -> report_in_range (to_dict s).
Proof.
  intros (H1 & H2 & H3 & H4 & H5 & H6 & H7 & H8).
  unfold report_in_range. cbn.
  do 7 (split; [now apply py_round2_rounds|]). now apply py_round2_rounds.
Qed.

Lemma compute_scores_range events bd cull_count total_generated s :
  compute_scores events bd cull_count total_generated = Some s ->
  scores_in_range s.
Proof.
  intros Hs. unfold compute_scores in Hs.
  destruct events as [|e0 es] eqn:Eev.
  - inversion Hs; subst. unfold scores_in_range, total, weight, SCORE_WEIGHTS.
    simpl. unfold in_score_range. repeat split; lra.
  - rewrite <- Eev in *.
    assert (Hne : events <> []) by (rewrite Eev; discriminate).
    destruct (lane_counts events [0; 0; 0; 0]) as [counts|]; [|discriminate].
    destruct (Qltb 0 (duration_s bd) && (resolution_ms bd =? 0));
      [discriminate|].
    inversion Hs; subst s; clear Hs.
    pose proof (beat_sync_in_range events (beats bd) Hne) as H1.
    pose proof (flow_in_range (filter is_obstacle events)) as H2.
    pose proof (difficulty_curve_in_range (filter is_obstacle events)
                  (duration_s bd)) as H3.
    pose proof (type_variety_in_range events Hne) as H4.
    pose proof (lane_coverage_in_range counts) as H5.
    pose proof (energy_match_in_range events bd) as H6.
    pose proof (cull_rate_in_range cull_count total_generated) as H7.
    unfold scores_in_range; simpl.
    repeat (split; [assumption|]).
    now apply total_in_range.
Qed.

Section ScoreReportFacts.
Context {Rng : Type} `{RandomSource Rng}.
Variable Random : Z -> Rng.

Lemma search_loop_scores bd target_score :
  forall turns attempt params champion result,
  scores_in_range (champion_score champion) ->
  search_loop Random turns attempt bd target_score params champion
    = Some result ->
  scores_in_range (champion_score result).
Proof.
  induction turns as [|turns IH]; intros attempt params champion result Hinv Hrun;
    cbn [search_loop] in Hrun.
  - now inversion Hrun; subst.
  - destruct (run_attempt Random bd params (attempt + 1))
      as [[events scores]|] eqn:Erun; [|discriminate].
    assert (Hs : scores_in_range scores).
    { unfold run_attempt in Erun.
      destruct (generate_events bd params (Random (attempt + 1)))
        as [[evs rng']|]; [|discriminate].
      destruct (validate_paths evs params) as [v cull].
      destruct (compute_scores v bd cull _) as [s|] eqn:Ec; [|discriminate].
      inversion Erun; subst. now apply compute_scores_range in Ec. }
    assert (Hinv' : scores_in_range
                      (champion_score
                         (if Rltb (total (champion_score champion)) (total scores)
                          then mkChampion (Some events) scores (attempt + 1)
                                          (attempt + 1)
                          else champion))).
    { destruct (Rltb _ _); [exact Hs | exact Hinv]. }
    destruct (Rleb target_score (total scores)).
    + now inversion Hrun; subst.
    + now apply IH in Hrun.
Qed.

Lemma generate_course_report_facts bd difficulty max_attempts target_score course :
  generate_course Random bd difficulty max_attempts target_score = Some course ->
  report_in_range (course_score course).
Proof.
  unfold generate_course. intros Hrun.
  destruct (preset_of difficulty) as [params|]; [|discriminate].
  destruct (search_loop Random (Z.to_nat max_attempts) 0 bd target_score params
              (mkChampion None (mkScores 0 0 0 0 0 0 0) 0 0))
    as [champion|] eqn:Eloop; [|discriminate].
  apply search_loop_scores in Eloop.
  - inversion Hrun; subst course. cbn [course_score].
    now apply to_dict_in_range.
  - unfold scores_in_range, total, weight, SCORE_WEIGHTS. simpl.
    unfold in_score_range. repeat split; lra.
Qed.

End ScoreReportFacts.

(** X30.  In every course document that [generate_course] returns, the
    score report holds eight numbers between 0 and 10: the total and the
    seven sub-scores of the champion, each rounded to two decimals. *)
Theorem generate_course_score_report {Rng : Type} `{RandomSource Rng}
    (Random : Z -> Rng) (bd : BeatData) (difficulty : string)
    (max_attempts : Z) (target_score : R) (course : Course) :
  generate_course Random bd difficulty max_attempts target_score = Some course ->
  report_in_range (course_score course).
Proof. apply generate_course_report_facts. Qed.

Lemma generate_course_score_report_witness :
  exists course,
    generate_course no_draws single_beat_map "hard" 5 9.6 = Some course
    /\ report_in_range (course_score course).
Proof.
  destruct (generate_course_returns (H := replay_source) no_draws
              single_beat_map "hard" 5 9.6%R) as [course Hrun];
    [simpl; tauto | cbn; lia |].
  exists course. split; [exact Hrun|].
  exact (generate_course_score_report no_draws single_beat_map "hard" 5 9.6%R
           course Hrun).
Defined.
